(** * FLUPS: planner, topology and transpose engine

    A shallow embedding of the parts of the FLUPS sources that the
    specification makes statements about:

    - [Topology.cpp]: the constructor, [cmpt_sizes], [change_comm] and
      [cmpt_intersect_id], with the real/complex toggle;
    - [Solver.cpp]: the boundary-condition toggle of the constructor,
      [_sort_plans], [_scaleGreenFunction], the entry checks of [solve] and
      [do_copy];
    - [dothemagic_std.ipp]: the product with the Green's function;
    - [SwitchTopo.hpp], [SwitchTopo.cpp]: [gcd], the sizes of the staging
      buffers and the start offsets of the reference transpose;
    - [SwitchTopo_a2a.cpp]: the block extent, the colours of the
      sub-communicators, the all-to-all selection, [_setup_subComm],
      [setup_buffers] and the pack loop of [execute];
    - [SwitchTopo_nb.cpp]: [setup_buffers] and [execute];
    - [green_functions.hpp]: [_lgf_readfile];
    - [Profiler.cpp]: the timers and their tree.

    The first part of the file holds the embedding, the second part the
    statements and their proofs.

    C [int] values are integers of [Z]; in [cmpt_sizes], where the source
    mixes [int] and [size_t], the conversions are written out, and so is the
    wrap of the sums that the transposes accumulate in arrays of [int].  Buffers of
    [double] are functions from an index to a value of an uninterpreted
    type: the code under study copies and scales values, it never inspects
    them. *)

From Stdlib Require Import ZArith List Lia Bool String.
From stdpp Require Import base list gmap strings pretty relations.
Import ListNotations.

Local Open Scope Z_scope.

(** * Part I: the embedding *)

(** ** Common vocabulary *)

(** [FLUPS_CHECK] and [FLUPS_ERROR] live in [defines.hpp], which is not part
    of the sources at hand.  They are taken as the specification describes
    them: a failed check prints a location and aborts the process. *)

Inductive outcome (A : Type) : Type :=
| Done (a : A)
| Fatal (msg : string).
Arguments Done {A} a.
Arguments Fatal {A} msg.

(** A call that waits on messages may also never return. *)
Inductive execution (A : Type) : Type :=
| Returns (a : A)
| Aborts (msg : string)
| Blocks.
Arguments Returns {A} a.
Arguments Aborts {A} msg.
Arguments Blocks {A}.

Definition FLUPS_CHECK {A : Type} (cond : bool) (msg : string)
  (k : outcome A) : outcome A :=
  if cond then k else Fatal msg.

(** Arrays of three elements, as [int x[3]] or [FFTW_plan_dim *plan[3]]. *)

Definition arr3 (A : Type) : Type := (A * A * A)%type.

Definition get3 {A : Type} (a : arr3 A) (i : nat) : A :=
  let '(x0, x1, x2) := a in
  match i with
  | O => x0
  | S O => x1
  | _ => x2
  end.

Definition set3 {A : Type} (a : arr3 A) (i : nat) (v : A) : arr3 A :=
  let '(x0, x1, x2) := a in
  match i with
  | O => (v, x1, x2)
  | S O => (x0, v, x2)
  | _ => (x0, x1, v)
  end.

Definition map3 {A B : Type} (f : A -> B) (a : arr3 A) : arr3 B :=
  let '(x0, x1, x2) := a in (f x0, f x1, f x2).

Definition add3 (a b : arr3 Z) : arr3 Z :=
  (get3 a 0 + get3 b 0, get3 a 1 + get3 b 1, get3 a 2 + get3 b 2).

(** Indices counted from direction [axsrc] ("[axsrc]-indexing": [i0] runs
    along [axsrc], [i1] along the next direction, [i2] along the one after)
    name the point [unrot axsrc i0 i1 i2] of the grid. *)
Definition unrot (axsrc : nat) (i0 i1 i2 : Z) : arr3 Z :=
  match axsrc with
  | O => (i0, i1, i2)
  | S O => (i2, i0, i1)
  | _ => (i1, i2, i0)
  end.

(** Machine integers: [int] is 32 bits and signed, [size_t] 64 bits and
    unsigned. *)

Definition INT_MAX : Z := 2147483647.
Definition sizeof_double : Z := 8.
Definition to_int (x : Z) : Z := (x + 2 ^ 31) mod 2 ^ 32 - 2 ^ 31.
Definition to_size_t (x : Z) : Z := x mod 2 ^ 64.

(** Loops.  [for_each l body s] runs [body] on the elements of [l] in order;
    [for_range lo hi] is [for (i = lo; i < hi; i++)]. *)

Definition for_each {I S : Type} (l : list I) (body : I -> S -> S) (s : S)
  : S :=
  fold_left (fun s i => body i s) l s.

Definition zrange (lo hi : Z) : list Z :=
  List.map (fun k => lo + Z.of_nat k) (seq 0 (Z.to_nat (hi - lo))).

Definition for_range {S : Type} (lo hi : Z) (body : Z -> S -> S) (s : S) : S :=
  for_each (zrange lo hi) body s.

(** Memory reached through a [double*]. *)

Definition buffer (D : Type) : Type := Z -> D.

Definition write {D : Type} (b : buffer D) (i : Z) (v : D) : buffer D :=
  fun j => if j =? i then v else b j.

(** A piece of code [T] that stores into a buffer values that do not depend
    on the buffer "writes [W]" when every place of the result either holds a
    value that [W] relates to it, or is related to nothing and unchanged. *)
Definition writes {D : Type} (T : buffer D -> buffer D)
  (W : Z -> D -> Prop) : Prop :=
  forall d p,
    (exists x, W p x /\ T d p = x) \/ ((forall x, ~ W p x) /\ T d p = d p).

(** ** Topology.cpp *)

Module Topology.

Record Topology : Type := {
  _axis : nat;
  _nf : Z;
  _alignment : Z;
  _nloc : arr3 Z;
  _nmem : arr3 Z
}.

(** Body of the loop of [cmpt_sizes] for one direction [id].
    [cmpt_nbyproc], declared in [Topology.hpp], is not part of the sources at
    hand: its value for each direction is an argument. *)
Definition cmpt_sizes_dim (t : Topology) (cmpt_nbyproc : nat -> Z) (id : nat)
  : Z * Z :=
  let nloc := cmpt_nbyproc id in
  let nmem := nloc in
  if Nat.eqb id (_axis t) then
    let modulo :=
      to_int (to_size_t (to_size_t (to_int (nloc * _nf t)) * sizeof_double)
              mod to_size_t (_alignment t)) in
    let delta :=
      to_int (to_size_t (to_int (_alignment t - modulo)) / sizeof_double) in
    (nloc, to_int (nmem + (if modulo =? 0 then 0 else Z.quot delta (_nf t))))
  else (nloc, nmem).

Definition cmpt_sizes (t : Topology) (cmpt_nbyproc : nat -> Z) : Topology :=
  for_each [0%nat; 1%nat; 2%nat]
    (fun id t =>
       let '(nloc, nmem) := cmpt_sizes_dim t cmpt_nbyproc id in
       {| _axis := _axis t; _nf := _nf t; _alignment := _alignment t;
          _nloc := set3 (_nloc t) id nloc;
          _nmem := set3 (_nmem t) id nmem |})
    t.

(** The constructor: the check on the process grid, the choice of [_nf] and
    the call of [cmpt_sizes]. *)
Definition Topology_new (axis : nat) (nproc : arr3 Z) (isComplex : bool)
  (alignment : Z) (comm_size : Z) (cmpt_nbyproc : nat -> Z)
  : outcome Topology :=
  FLUPS_CHECK (get3 nproc 0 * get3 nproc 1 * get3 nproc 2 =? comm_size)
    "the total number of procs have to be = to the comm size"
    (Done (cmpt_sizes
             {| _axis := axis;
                _nf := if isComplex then 2 else 1;
                _alignment := alignment;
                _nloc := (0, 0, 0);
                _nmem := (0, 0, 0) |}
             cmpt_nbyproc)).

(** [change_comm] recomputes the rank of the process, hence possibly its
    share of the grid, and calls [cmpt_sizes] again. *)
Definition change_comm (t : Topology) (cmpt_nbyproc : nat -> Z) : Topology :=
  cmpt_sizes t cmpt_nbyproc.

(** Bytes along the fast axis of one pencil. *)
Definition pencil_bytes (t : Topology) : Z :=
  get3 (_nmem t) (_axis t) * _nf t * sizeof_double.

(** The real/complex toggle, [switch2complex] and [switch2real], is declared
    in [Topology.hpp], which is not part of the sources at hand.  It is
    taken as the specification words it and as [Solver.cpp] uses it (a
    transpose towards complex data "is planned in real layout then the
    output topology is switched to complex"): the memory stays as it is and
    is read as complex numbers, two scalars for a point, or as single
    scalars, so that the counts along the fast axis are halved, or
    doubled. *)
Definition switch2complex (t : Topology) : Topology :=
  if _nf t =? 1 then
    {| _axis := _axis t; _nf := 2; _alignment := _alignment t;
       _nloc := set3 (_nloc t) (_axis t) (Z.quot (get3 (_nloc t) (_axis t)) 2);
       _nmem := set3 (_nmem t) (_axis t) (Z.quot (get3 (_nmem t) (_axis t)) 2)
    |}
  else t.

Definition switch2real (t : Topology) : Topology :=
  if _nf t =? 2 then
    {| _axis := _axis t; _nf := 1; _alignment := _alignment t;
       _nloc := set3 (_nloc t) (_axis t) (to_int (get3 (_nloc t) (_axis t) * 2));
       _nmem := set3 (_nmem t) (_axis t) (to_int (get3 (_nmem t) (_axis t) * 2))
    |}
  else t.

End Topology.

(** ** Solver.cpp *)

Module Solver.

(** *** Boundary conditions ([Solver::Solver], "initialize the diff bc") *)

Inductive BoundaryType : Type := EVEN | ODD | PER | UNB.

Definition BoundaryType_eqb (a b : BoundaryType) : bool :=
  match a, b with
  | EVEN, EVEN | ODD, ODD | PER, PER | UNB, UNB => true
  | _, _ => false
  end.

(** [rhsbc[id][is]] points to [_lda] boundary types: direction, side, then
    component. *)
Definition bc_array : Type := nat -> nat -> list BoundaryType.

(** Body of the innermost loop: one component of one side. *)
Definition diffbc_entry (rhs : BoundaryType) : BoundaryType :=
  if BoundaryType_eqb rhs EVEN then ODD
  else if BoundaryType_eqb rhs ODD then EVEN
  else rhs.

(** The loop over [lia < _lda] fills a freshly allocated array of [_lda]
    entries. *)
Definition diffbc_side (_lda : nat) (rhs : list BoundaryType)
  : list BoundaryType :=
  List.map diffbc_entry (firstn _lda rhs).

(** [diffbc] is only filled when [_odiff] is non-zero. *)
Definition init_diffbc (_odiff : Z) (_lda : nat) (rhsbc : bc_array)
  : option bc_array :=
  if _odiff =? 0 then None
  else Some (fun id side => diffbc_side _lda (rhsbc id side)).

(** The arguments handed to [new FFTW_plan_dim(lda, dimID, h, L, bc, sign,
    isGreen)]; the class itself is not part of the sources at hand, the grid
    spacing and the domain length play no role here. *)
Inductive PlanSign : Type := FLUPS_FORWARD | FLUPS_BACKWARD.

Record FFTW_plan_dim : Type := new_FFTW_plan_dim {
  plan_lda : nat;
  dimID : nat;
  plan_bc : nat -> list BoundaryType;
  plan_sign : PlanSign;
  plan_isGreen : bool
}.

(** "create the backward plan in the EXACT same order as the backward one" *)
Definition init_plan_backward_diff (_odiff : Z) (_lda : nat)
  (rhsbc : bc_array) (_plan_backward : arr3 FFTW_plan_dim)
  : option (arr3 FFTW_plan_dim) :=
  match init_diffbc _odiff _lda rhsbc with
  | None => None
  | Some diffbc =>
      Some (map3 (fun p =>
                    new_FFTW_plan_dim _lda (dimID p) (diffbc (dimID p))
                      FLUPS_BACKWARD false)
              _plan_backward)
  end.

(** *** [Solver::_sort_plans] *)

Section SortPlans.
(** The plan class and its [type()] getter (an enumeration converted to
    [int]) are not part of the sources at hand. *)
Context {Plan : Type}.
Variable type : Plan -> Z.

(** First loop: [id_min] stays uninitialised ([None]) as long as no
    priority is below [val_min], which starts at [INT_MAX]. *)
Definition scan_step (priority : arr3 Z) (id : nat) (st : option nat * Z)
  : option nat * Z :=
  if get3 priority id <? snd st then (Some id, get3 priority id) else st.

Definition scan_min (priority : arr3 Z) : option nat * Z :=
  for_each [0%nat; 1%nat; 2%nat] (scan_step priority) (None, INT_MAX).

(** Final exchange of positions 1 and 2, common to both branches. *)
Definition order_12 (priority : arr3 Z) (plan : arr3 Plan) : arr3 Plan :=
  if get3 priority 1 >? get3 priority 2 then
    let temp_plan := get3 plan 2 in
    let plan := set3 plan 2 (get3 plan 1) in
    set3 plan 1 temp_plan
  else plan.

(** The reordering itself; [None] stands for the read of an uninitialised
    [id_min]. *)
Definition sort_plans_body (plan : arr3 Plan) : option (arr3 Plan) :=
  let priority := map3 type plan in
  match fst (scan_min priority) with
  | None => None
  | Some id_min =>
      if Nat.eqb id_min 0 then Some (order_12 priority plan)
      else
        let temp_priority := get3 priority id_min in
        let temp_plan := get3 plan id_min in
        let plan := set3 plan id_min (get3 plan 0) in
        let plan := set3 plan 0 temp_plan in
        let priority := set3 priority id_min (get3 priority 0) in
        let priority := set3 priority 0 temp_priority in
        Some (order_12 priority plan)
  end.

(** The function with its closing [FLUPS_CHECK]. *)
Definition _sort_plans (plan : arr3 Plan) : option (outcome (arr3 Plan)) :=
  match sort_plans_body plan with
  | None => None
  | Some plan =>
      Some (FLUPS_CHECK
              ((type (get3 plan 0) <=? type (get3 plan 1))
               && (type (get3 plan 1) <=? type (get3 plan 2)))
              "Wrong order in the plans" (Done plan))
  end.
End SortPlans.

(** *** [Solver::_scaleGreenFunction] *)

Section ScaleGreen.
(** A [double] with its product and the constants [0.0] and [1.0]. *)
Context {D : Type}.
Variable dmul : D -> D -> D.
Variable dzero : D.
Variable done : D.
(** [collapsedIndex] and [FLUPS_ALIGNMENT] come from [defines.hpp] and
    [flups.h], which are not part of the sources at hand. *)
Variable collapsedIndex : nat -> Z -> Z -> arr3 Z -> Z -> Z.
Variable FLUPS_ALIGNMENT : Z.

(** The constructor accumulates the volume factors of the forward plans. *)
Definition init_volfact (plan_volfact : arr3 D) : D :=
  for_each [0%nat; 1%nat; 2%nat]
    (fun ip _volfact => dmul _volfact (get3 plan_volfact ip)) done.

(** The scaling loop. *)
Definition scale_loop (ax0 : nat) (nf : Z) (nmem : arr3 Z)
  (onmax inmax : Z) (volfact : D) (data : buffer D) : buffer D :=
  for_range 0 onmax
    (fun io data =>
       let dataloc := collapsedIndex ax0 0 io nmem nf in
       for_range 0 inmax
         (fun ii data =>
            write data (dataloc + ii) (dmul (data (dataloc + ii)) volfact))
         data)
    data.

(** [istart] is what [topo->get_istart_glob] returns, [data_aligned] what
    [FLUPS_ISALIGNED(data)] evaluates to. *)
Definition _scaleGreenFunction (_volfact : D) (topo : Topology.Topology)
  (istart : arr3 Z) (data_aligned : bool) (data : buffer D)
  (killModeZero : bool) : outcome (buffer D) :=
  let ax0 := Topology._axis topo in
  let ax1 := ((ax0 + 1) mod 3)%nat in
  let ax2 := ((ax0 + 2) mod 3)%nat in
  let nf := Topology._nf topo in
  let nmem := Topology._nmem topo in
  let onmax := get3 (Topology._nloc topo) ax1 * get3 (Topology._nloc topo) ax2 in
  let inmax := get3 (Topology._nloc topo) ax0 * nf in
  let volfact := _volfact in
  FLUPS_CHECK
    (data_aligned
     && ((get3 nmem ax0 * nf * sizeof_double) mod FLUPS_ALIGNMENT =? 0))
    "please use FLUPS_ALIGNMENT to align the memory"
    (let data := scale_loop ax0 nf nmem onmax inmax volfact data in
     Done
       (if killModeZero then
          if (get3 istart 0 =? 0) && (get3 istart 1 =? 0)
             && (get3 istart 2 =? 0)
          then for_range 0 nf (fun i0 data => write data i0 dzero) data
          else data
        else data)).

(** The scaling step of [_cmptGreenFunction]: the Green's function sits in
    the topology of the last plan. *)
Definition _cmptGreenFunction_scale (_volfact : D) (_ndim : nat)
  (topo : arr3 Topology.Topology) (istart : arr3 Z) (data_aligned : bool)
  (green : buffer D) : outcome (buffer D) :=
  _scaleGreenFunction _volfact (get3 topo (_ndim - 1)) istart data_aligned
    green false.
End ScaleGreen.

(** *** [Solver::solve]: the entry checks *)

Inductive FLUPS_SolverType : Type := STD | ROT.

Definition FLUPS_SolverType_eqb (a b : FLUPS_SolverType) : bool :=
  match a, b with
  | STD, STD | ROT, ROT => true
  | _, _ => false
  end.

(** The part of the solver state that the constructor stores from its
    arguments ("store the meshsize, the lda and the orderDiff"). *)
Record SolverState : Type := {
  _lda : nat;
  _odiff : Z
}.

(** Constructor arguments that matter here: the [lda] of the topology and
    [orderDiff].  The solve mode is not an argument. *)
Definition Solver_new (topo_lda : nat) (orderDiff : Z) : SolverState :=
  {| _lda := topo_lda; _odiff := orderDiff |}.

(** [setup] takes [changeTopoComm] only and leaves [_odiff] untouched. *)
Definition setup (s : SolverState) (changeTopoComm : bool) : SolverState := s.

(** [solve]: the three checks that precede any work on the data; pointers
    are modelled by their being [NULL] or not. *)
Definition solve (s : SolverState) (field_is_null rhs_is_null : bool)
  (type : FLUPS_SolverType) : outcome unit :=
  FLUPS_CHECK (negb (FLUPS_SolverType_eqb type ROT && (_odiff s =? 0)))
    "If calling the ROT solver, you need to initialize it with orderDiff = 1 or orderDiff = 2"
    (FLUPS_CHECK (negb field_is_null) "field is NULL"
       (FLUPS_CHECK (negb rhs_is_null) "rhs is NULL" (Done tt))).

(** The phase of the life cycle in which a run aborts, if any. *)
Inductive Phase : Type := AtConstruct | AtSetup | AtSolve.

Definition abort_phase (topo_lda : nat) (orderDiff : Z)
  (changeTopoComm field_is_null rhs_is_null : bool)
  (type : FLUPS_SolverType) : option Phase :=
  let s := Solver_new topo_lda orderDiff in
  let s := setup s changeTopoComm in
  match solve s field_is_null rhs_is_null type with
  | Fatal _ => Some AtSolve
  | Done _ => None
  end.

End Solver.

(** ** SwitchTopo.hpp and SwitchTopo.cpp *)

Module SwitchTopo.

(** [gcd(a, b) = (a == 0) ? b : gcd(b % a, a)], with the remainder of C.
    The recursion is on [|a|], which the remainder decreases; the fuel given
    by [gcd] is never used up. *)
Fixpoint gcd_fuel (fuel : nat) (a b : Z) : Z :=
  match fuel with
  | O => b
  | S fuel => if a =? 0 then b else gcd_fuel fuel (Z.rem b a) a
  end.

Definition gcd (a b : Z) : Z := gcd_fuel (S (Z.to_nat (Z.abs a))) a b.

(** The start offsets of the reference transpose: the arrays are zeroed,
    then [_ssend[i] = _ssend[i - 1] + _nsend[i - 1]] for [1 <= i < comm_size].
    The arrays hold [int]s: the sum is an [int]. *)
Definition cmpt_start (comm_size : nat) (n : list Z) : list Z :=
  for_each (seq 1 (comm_size - 1))
    (fun i s => <[i := to_int (s !!! (i - 1)%nat + n !!! (i - 1)%nat)]> s)
    (replicate comm_size 0).

End SwitchTopo.

(** ** SwitchTopo_a2a.cpp *)

Module SwitchTopo_a2a.

(** *** The block extent (constructor, one direction [id]) *)

(** What one process contributes in direction [id]: the extents of the
    shared zone seen from the input and from the output topology, and
    whether the process is the last one of either topology. *)
Record proc_extent : Type := {
  isend : Z;
  osend : Z;
  in_is_last : bool;
  out_is_last : bool
}.

(** [MPI_Allreduce] of [isend] with [MPI_SUM]. *)
Definition exSize (procs : list proc_extent) : Z :=
  fold_right Z.add 0 (List.map isend procs).

(** The extents after "if I am the last one, I decrease the blocksize by one
    if needed". *)
Definition isend_adj (ex : Z) (p : proc_extent) : Z :=
  if in_is_last p then isend p - Z.rem ex 2 else isend p.

Definition osend_adj (ex : Z) (p : proc_extent) : Z :=
  if out_is_last p then osend p - Z.rem ex 2 else osend p.

Definition npoints (ex : Z) (p : proc_extent) : Z :=
  SwitchTopo.gcd (isend_adj ex p) (osend_adj ex p).

(** [MPI_Allgather] of [npoints], then the loop over the processes.  A
    communicator is never empty. *)
Definition cmpt_nByBlock (procs : list proc_extent) : option Z :=
  match List.map (npoints (exSize procs)) procs with
  | [] => None
  | n0 :: nperProc =>
      Some (for_each nperProc (fun n my_gcd => SwitchTopo.gcd my_gcd n) n0)
  end.

(** *** [_setup_subComm] *)

(** The ranks of the blocks are translated to the sub-communicator, the
    blocks are counted per rank, then the start offsets are computed. *)
Definition translate_destRank (newRanks destRank : list nat) : list nat :=
  List.map (fun d => newRanks !!! d) destRank.

(** The loop [count[destRank[ib]] += blockMem], on an array of [int]. *)
Definition cmpt_count (subsize : nat) (blockMem : Z) (destRank : list nat)
  : list Z :=
  for_each destRank
    (fun d count => <[d := to_int (count !!! d + blockMem)]> count)
    (replicate subsize 0).

(** The loop [start[ir] = start[ir-1] + count[ir]], on an array of [int]. *)
Definition cmpt_start (subsize : nat) (count : list Z) : list Z :=
  for_each (seq 1 (subsize - 1))
    (fun ir start =>
       <[ir := to_int (start !!! (ir - 1)%nat + count !!! ir)]> start)
    (<[0%nat := 0]> (replicate subsize 0)).

Definition _setup_subComm (subsize : nat) (blockMem : Z)
  (newRanks destRank : list nat) : list nat * list Z * list Z :=
  let destRank := translate_destRank newRanks destRank in
  let count := cmpt_count subsize blockMem destRank in
  (destRank, count, cmpt_start subsize count).

(** *** The choice of the collective *)

(** "determine if we are a All to All" *)
Definition cmpt_is_all2all (subsize : nat) (_i2o_count _o2i_count : list Z)
  : bool :=
  let tmp_size := _i2o_count !!! 0%nat in
  for_each (seq 1 (subsize - 1))
    (fun ir _is_all2all =>
       let _is_all2all := _is_all2all && (tmp_size =? _i2o_count !!! ir) in
       _is_all2all && (tmp_size =? _o2i_count !!! ir))
    (negb (tmp_size =? 0)).

(** The collective called by [execute], with the counts and the start
    offsets it is given. *)
Inductive Collective : Type :=
| MPI_Alltoall (send_count recv_count : Z)
| MPI_Alltoallv (send_count send_start recv_count recv_start : list Z).

Record Descriptor : Type := {
  _i2o_count : list Z;
  _o2i_count : list Z;
  _i2o_start : list Z;
  _o2i_start : list Z;
  _is_all2all : bool
}.

(** The part of the constructor that follows [MPI_Comm_split]. *)
Definition init_counts (subsize : nat) (blockMem : Z)
  (newRanks i2o_destRank o2i_destRank : list nat) : Descriptor :=
  let '(_, i2o_count, i2o_start) :=
    _setup_subComm subsize blockMem newRanks i2o_destRank in
  let '(_, o2i_count, o2i_start) :=
    _setup_subComm subsize blockMem newRanks o2i_destRank in
  {| _i2o_count := i2o_count; _o2i_count := o2i_count;
     _i2o_start := i2o_start; _o2i_start := o2i_start;
     _is_all2all := cmpt_is_all2all subsize i2o_count o2i_count |}.

(** "Do the communication" in [execute]. *)
Definition execute_collective (d : Descriptor) (sign : Solver.PlanSign)
  : Collective :=
  let '(send_count, recv_count, send_start, recv_start) :=
    match sign with
    | Solver.FLUPS_FORWARD =>
        (_i2o_count d, _o2i_count d, _i2o_start d, _o2i_start d)
    | Solver.FLUPS_BACKWARD =>
        (_o2i_count d, _i2o_count d, _o2i_start d, _i2o_start d)
    end in
  if _is_all2all d then
    MPI_Alltoall (send_count !!! 0%nat) (recv_count !!! 0%nat)
  else MPI_Alltoallv send_count send_start recv_count recv_start.

End SwitchTopo_a2a.

(** ** SwitchTopo_nb.cpp *)

Module SwitchTopo_nb.

(** The descriptor of one process.  Arrays indexed by a block are functions
    of the block index; [_iBlockSize id bid] is [_iBlockSize[id][bid]].  The
    ranks are those of the sub-communicator. *)
Record SwitchTopo_nb : Type := {
  _topo_in : Topology.Topology;
  _topo_out : Topology.Topology;
  _nByBlock : arr3 Z;
  _istart : arr3 Z;
  _ostart : arr3 Z;
  _inBlock : arr3 Z;
  _onBlock : arr3 Z;
  _iBlockSize : nat -> Z -> Z;
  _oBlockSize : nat -> Z -> Z;
  _i2o_destRank : Z -> Z;
  _o2i_destRank : Z -> Z;
  _i2o_destTag : Z -> Z;
  _o2i_destTag : Z -> Z;
  _selfBlockN : Z
}.

Definition nblocks (nBlock : arr3 Z) : Z :=
  get3 nBlock 0 * get3 nBlock 1 * get3 nBlock 2.

(** A persistent request: the peer and the tag given to [MPI_Send_init] or
    [MPI_Recv_init]; [None] is [MPI_REQUEST_NULL]. *)
Record Request : Type := {
  req_peer : Z;
  req_tag : Z
}.

(** *** [setup_buffers]

    Block [bid] of the input side owns the slot [bid * blockMemSize] of the
    send buffer, block [bid] of the output side the same slot of the receive
    buffer.  A block whose destination is the process itself gets no
    request and is listed among the self blocks. *)

Definition _i2o_sendRequest (d : SwitchTopo_nb) (newrank bid : Z)
  : option Request :=
  if _i2o_destRank d bid =? newrank then None
  else Some {| req_peer := _i2o_destRank d bid; req_tag := _i2o_destTag d bid |}.

Definition _o2i_recvRequest (d : SwitchTopo_nb) (newrank bid : Z)
  : option Request :=
  if _i2o_destRank d bid =? newrank then None
  else Some {| req_peer := _i2o_destRank d bid; req_tag := bid |}.

Definition _i2o_recvRequest (d : SwitchTopo_nb) (newrank bid : Z)
  : option Request :=
  if _o2i_destRank d bid =? newrank then None
  else Some {| req_peer := _o2i_destRank d bid; req_tag := bid |}.

Definition _o2i_sendRequest (d : SwitchTopo_nb) (newrank bid : Z)
  : option Request :=
  if _o2i_destRank d bid =? newrank then None
  else Some {| req_peer := _o2i_destRank d bid; req_tag := _o2i_destTag d bid |}.

Definition _iselfBlockID (d : SwitchTopo_nb) (newrank : Z) : list Z :=
  List.filter (fun bid => _i2o_destRank d bid =? newrank)
    (zrange 0 (nblocks (_inBlock d))).

Definition _oselfBlockID (d : SwitchTopo_nb) (newrank : Z) : list Z :=
  List.filter (fun bid => _o2i_destRank d bid =? newrank)
    (zrange 0 (nblocks (_onBlock d))).

(** *** [execute]: the choice of the arrays by [sign] *)

(** The local variables that [execute] sets from [sign].  [send_is_sendData]
    tells whether [sendBuf] is [_sendBuf] (forward) or [_recvBuf]
    (backward); [recvBuf] is the other one. *)
Record View : Type := {
  topo_in : Topology.Topology;
  topo_out : Topology.Topology;
  sendRequest : Z -> option Request;
  recvRequest : Z -> option Request;
  send_is_sendData : bool;
  oselfBlockID : list Z;
  destTag : Z -> Z;
  send_nBlock : arr3 Z;
  recv_nBlock : arr3 Z;
  istart : arr3 Z;
  ostart : arr3 Z;
  inmem : arr3 Z;
  onmem : arr3 Z;
  iBlockSize : nat -> Z -> Z;
  oBlockSize : nat -> Z -> Z;
  nByBlock : arr3 Z;
  selfBlockN : Z
}.

Definition view (d : SwitchTopo_nb) (newrank : Z) (sign : Solver.PlanSign)
  : View :=
  match sign with
  | Solver.FLUPS_FORWARD =>
      {| topo_in := _topo_in d;
         topo_out := _topo_out d;
         sendRequest := _i2o_sendRequest d newrank;
         recvRequest := _i2o_recvRequest d newrank;
         send_is_sendData := true;
         oselfBlockID := _oselfBlockID d newrank;
         destTag := _i2o_destTag d;
         send_nBlock := _inBlock d;
         recv_nBlock := _onBlock d;
         istart := _istart d;
         ostart := _ostart d;
         inmem := Topology._nmem (_topo_in d);
         onmem := Topology._nmem (_topo_out d);
         iBlockSize := _iBlockSize d;
         oBlockSize := _oBlockSize d;
         nByBlock := _nByBlock d;
         selfBlockN := _selfBlockN d |}
  | Solver.FLUPS_BACKWARD =>
      {| topo_in := _topo_out d;
         topo_out := _topo_in d;
         sendRequest := _o2i_sendRequest d newrank;
         recvRequest := _o2i_recvRequest d newrank;
         send_is_sendData := false;
         oselfBlockID := _iselfBlockID d newrank;
         destTag := _o2i_destTag d;
         send_nBlock := _onBlock d;
         recv_nBlock := _inBlock d;
         istart := _ostart d;
         ostart := _istart d;
         inmem := Topology._nmem (_topo_out d);
         onmem := Topology._nmem (_topo_in d);
         iBlockSize := _oBlockSize d;
         oBlockSize := _iBlockSize d;
         nByBlock := _nByBlock d;
         selfBlockN := _selfBlockN d |}
  end.

Section Execute.
(** A [double], by its bytes; [dzero] is the one [memset] writes. *)
Context {D : Type}.
Variable dzero : D.
(** [localIndex] and [localSplit] come from [defines.hpp], [memsize] from
    [Topology.hpp] and [get_blockMemSize] from [SwitchTopo_nb.hpp]; none is
    part of the sources at hand.  The size of a block slot is the same on
    every process. *)
Variable localIndex : nat -> Z -> Z -> Z -> nat -> arr3 Z -> Z -> Z.
Variable localSplit : Z -> arr3 Z -> nat -> Z -> arr3 Z.
Variable memsize : Topology.Topology -> Z.
Variable blockMemSize : Z.

(** The memory of one process: the field and the two staging buffers handed
    to [setup_buffers]. *)
Record Memory : Type := {
  v : buffer D;
  sendData : buffer D;
  recvData : buffer D
}.

(** "fill the buffers": the copy of block [bid] into [data], which starts
    at [off] in its staging buffer. *)
Definition fill_block (w : View) (v : buffer D) (bid off : Z)
  (data : buffer D) : buffer D :=
  let ax0 := Topology._axis (topo_in w) in
  let ax1 := ((ax0 + 1) mod 3)%nat in
  let ax2 := ((ax0 + 2) mod 3)%nat in
  let nf := Topology._nf (topo_in w) in
  let ib := localSplit bid (send_nBlock w) 0 1 in
  let loci0 := get3 (istart w) ax0 + get3 ib ax0 * get3 (nByBlock w) ax0 in
  let loci1 := get3 (istart w) ax1 + get3 ib ax1 * get3 (nByBlock w) ax1 in
  let loci2 := get3 (istart w) ax2 + get3 ib ax2 * get3 (nByBlock w) ax2 in
  let my_v := localIndex ax0 loci0 loci1 loci2 ax0 (inmem w) nf in
  let id_max := iBlockSize w ax1 bid * iBlockSize w ax2 bid in
  for_range 0 id_max
    (fun id data =>
       let i2 := Z.quot id (iBlockSize w ax1 bid) in
       let i1 := Z.rem id (iBlockSize w ax1 bid) in
       let buf_idx := id * iBlockSize w ax0 bid * nf in
       let my_idx := localIndex ax0 0 i1 i2 ax0 (inmem w) nf in
       let nmax := iBlockSize w ax0 bid * nf in
       for_range 0 nmax
         (fun i0 data =>
            write data (off + (buf_idx + i0)) (v (my_v + (my_idx + i0))))
         data)
    data.

(** One iteration of the loop over the blocks to send.  The state is the
    pair ([sendBuf], [recvBuf]): a self block is copied straight into the
    slot [destTag[bid]] of the receive buffer. *)
Definition pack_block (w : View) (v : buffer D) (bid : Z)
  (bufs : buffer D * buffer D) : buffer D * buffer D :=
  match sendRequest w bid with
  | None => (fst bufs, fill_block w v bid (destTag w bid * blockMemSize) (snd bufs))
  | Some _ => (fill_block w v bid (bid * blockMemSize) (fst bufs), snd bufs)
  end.

Definition pack (w : View) (v : buffer D) (bufs : buffer D * buffer D)
  : buffer D * buffer D :=
  for_range 0 (nblocks (send_nBlock w)) (pack_block w v) bufs.

(** The send that a receive request of process [s] matches: the first block
    of the peer whose send request names [s] and the tag. *)
Definition find_send (w_peer : View) (s tag : Z) : option Z :=
  List.find
    (fun bid =>
       match sendRequest w_peer bid with
       | Some rq => (req_peer rq =? s) && (req_tag rq =? tag)
       | None => false
       end)
    (zrange 0 (nblocks (send_nBlock w_peer))).

(** The completion of the receive of block [bid] on process [s]: the
    [blockMemSize] scalars of the matching send land in slot [bid].  A
    receive that no send matches never completes. *)
Definition receive_block (views : Z -> View) (sent : Z -> buffer D) (s bid : Z)
  (recvBuf : option (buffer D)) : option (buffer D) :=
  match recvBuf, recvRequest (views s) bid with
  | None, _ => None
  | Some recvBuf, None => Some recvBuf
  | Some recvBuf, Some rq =>
      match find_send (views (req_peer rq)) s (req_tag rq) with
      | None => None
      | Some sbid =>
          Some (for_range 0 blockMemSize
                  (fun k recvBuf =>
                     write recvBuf (bid * blockMemSize + k)
                       (sent (req_peer rq) (sbid * blockMemSize + k)))
                  recvBuf)
      end
  end.

Definition receive (views : Z -> View) (sent : Z -> buffer D) (s : Z)
  (recvBuf : buffer D) : option (buffer D) :=
  for_range 0 (nblocks (recv_nBlock (views s))) (receive_block views sent s)
    (Some recvBuf).

(** [std::memset(v, 0, sizeof(double) * topo_out->memsize())] *)
Definition memset_zero (n : Z) (v : buffer D) : buffer D :=
  fun p => if (0 <=? p) && (p <? n) then dzero else v p.

(** "wait for a block and copy when it arrives": the copy of block [bid],
    found at [off] in the receive buffer, into the field. *)
Definition unpack_block (w : View) (recvBuf : buffer D) (bid : Z)
  (v : buffer D) : buffer D :=
  let ax0 := Topology._axis (topo_in w) in
  let ax1 := ((ax0 + 1) mod 3)%nat in
  let ax2 := ((ax0 + 2) mod 3)%nat in
  let nf := Topology._nf (topo_in w) in
  let out_axis := Topology._axis (topo_out w) in
  let ibv := localSplit bid (recv_nBlock w) 0 1 in
  let off := bid * blockMemSize in
  let loci0 := get3 (ostart w) ax0 + get3 ibv ax0 * get3 (nByBlock w) ax0 in
  let loci1 := get3 (ostart w) ax1 + get3 ibv ax1 * get3 (nByBlock w) ax1 in
  let loci2 := get3 (ostart w) ax2 + get3 ibv ax2 * get3 (nByBlock w) ax2 in
  let my_v := localIndex ax0 loci0 loci1 loci2 out_axis (onmem w) nf in
  let stride := localIndex ax0 1 0 0 out_axis (onmem w) nf in
  let id_max := oBlockSize w ax1 bid * oBlockSize w ax2 bid in
  if nf =? 1 then
    for_range 0 id_max
      (fun id v =>
         let i2 := Z.quot id (oBlockSize w ax1 bid) in
         let i1 := Z.rem id (oBlockSize w ax1 bid) in
         let buf_idx := id * oBlockSize w ax0 bid * nf in
         let my_idx := localIndex ax0 0 i1 i2 out_axis (onmem w) nf in
         for_range 0 (oBlockSize w ax0 bid)
           (fun i0 v =>
              write v (my_v + (my_idx + i0 * stride))
                (recvBuf (off + (buf_idx + i0))))
           v)
      v
  else if nf =? 2 then
    for_range 0 id_max
      (fun id v =>
         let i2 := Z.quot id (oBlockSize w ax1 bid) in
         let i1 := Z.rem id (oBlockSize w ax1 bid) in
         let buf_idx := id * oBlockSize w ax0 bid * nf in
         let my_idx := localIndex ax0 0 i1 i2 out_axis (onmem w) nf in
         for_range 0 (oBlockSize w ax0 bid)
           (fun i0 v =>
              let v := write v (my_v + (my_idx + i0 * stride + 0))
                         (recvBuf (off + (buf_idx + i0 * 2 + 0))) in
              write v (my_v + (my_idx + i0 * stride + 1))
                (recvBuf (off + (buf_idx + i0 * 2 + 1))))
           v)
      v
  else v.

(** The block handled by iteration [count] of the receiving loop: the self
    blocks first, then the blocks in the order [MPI_Waitany] reports them,
    [arrival] being the list of the tags it returns. *)
Definition received_bid (w : View) (arrival : list Z) (count : Z) : Z :=
  if count <? selfBlockN w then oselfBlockID w !!! Z.to_nat count
  else arrival !!! Z.to_nat (count - selfBlockN w).

Definition unpack (w : View) (arrival : list Z) (recvBuf : buffer D)
  (v : buffer D) : buffer D :=
  for_range 0 (nblocks (recv_nBlock w))
    (fun count v => unpack_block w recvBuf (received_bid w arrival count) v)
    (memset_zero (memsize (topo_out w)) v).

(** The two checks at the head of [execute]; [isComplex()] is [nf == 2]. *)
Definition execute_checks (w : View) : outcome unit :=
  FLUPS_CHECK
    (Bool.eqb (Topology._nf (topo_in w) =? 2) (Topology._nf (topo_out w) =? 2))
    "both topologies have to be complex or real"
    (FLUPS_CHECK (Topology._nf (topo_in w) <=? 2)
       "the value of nf is not supported" (Done tt)).

Definition staging (w : View) (m : Memory) : buffer D * buffer D :=
  if send_is_sendData w then (sendData m, recvData m)
  else (recvData m, sendData m).

Definition store (w : View) (v : buffer D) (bufs : buffer D * buffer D)
  : Memory :=
  if send_is_sendData w
  then {| v := v; sendData := fst bufs; recvData := snd bufs |}
  else {| v := v; sendData := snd bufs; recvData := fst bufs |}.

(** [MPI_Waitall] on the send requests: the send of block [bid] of process
    [r] completes when its peer is a process of the sub-communicator that
    posted a receive for this tag from [r], and when this send is the one
    the receive takes. *)
Definition send_completes (nranks : Z) (views : Z -> View) (r bid : Z) : bool :=
  match sendRequest (views r) bid with
  | None => true
  | Some rq =>
      let s := req_peer rq in
      let tag := req_tag rq in
      (0 <=? s) && (s <? nranks)
      && (0 <=? tag) && (tag <? nblocks (recv_nBlock (views s)))
      && match recvRequest (views s) tag with
         | Some rq' =>
             (req_peer rq' =? r)
             && match find_send (views r) s tag with
                | Some sbid => sbid =? bid
                | None => false
                end
         | None => false
         end
  end.

(** [execute] on every process of the sub-communicator at once.  The
    processes pack, the messages travel, the processes unpack; a message
    only ever lands in a slot that its receiver neither packs nor reads
    before, so the three steps can be taken one after the other.  The call
    aborts when a check fails on some process, and blocks when some receive
    or some send is never matched. *)
Definition execute (nranks : Z) (descr : Z -> SwitchTopo_nb)
  (sign : Solver.PlanSign) (arrival : Z -> list Z) (world : Z -> Memory)
  : execution (Z -> Memory) :=
  let views := fun r => view (descr r) r sign in
  let packed :=
    fun r => pack (views r) (v (world r)) (staging (views r) (world r)) in
  let received :=
    fun r => receive views (fun r => fst (packed r)) r (snd (packed r)) in
  if negb (forallb
             (fun r => match execute_checks (views r) with
                       | Done _ => true
                       | Fatal _ => false
                       end)
             (zrange 0 nranks))
  then Aborts "execute"
  else if forallb
            (fun r =>
               match received r with Some _ => true | None => false end
               && forallb (send_completes nranks views r)
                    (zrange 0 (nblocks (send_nBlock (views r)))))
            (zrange 0 nranks)
  then
    Returns
      (fun r =>
         match received r with
         | Some recvBuf =>
             store (views r)
               (unpack (views r) (arrival r) recvBuf (v (world r)))
               (fst (packed r), recvBuf)
         | None => world r
         end)
  else Blocks.

(** The sequence of [SwitchTopo_nb_test]: [execute] forward, then [execute]
    backward on what the forward call left, nothing in between. *)
Definition forward_backward (nranks : Z) (descr : Z -> SwitchTopo_nb)
  (arrival_fwd arrival_bwd : Z -> list Z) (world : Z -> Memory)
  : execution (Z -> Memory) :=
  match execute nranks descr Solver.FLUPS_FORWARD arrival_fwd world with
  | Returns there =>
      execute nranks descr Solver.FLUPS_BACKWARD arrival_bwd there
  | Aborts msg => Aborts msg
  | Blocks => Blocks
  end.

(** The scalar at place [p] of the field of process [r] once the call has
    returned. *)
Definition field_after (e : execution (Z -> Memory)) (r p : Z) : option D :=
  match e with
  | Returns world => Some (v (world r) p)
  | _ => None
  end.
End Execute.

(** *** The exchange of blocks

    What [execute] relies on, and what the constructor is there to
    establish; stated for one direction of the exchange. *)

Section Invariant.
Variable localIndex : nat -> Z -> Z -> Z -> nat -> arr3 Z -> Z -> Z.
Variable localSplit : Z -> arr3 Z -> nat -> Z -> arr3 Z.
Variable blockMemSize : Z.

(** The points of a block, counted from its first point. *)
Definition in_box (size : nat -> Z) (X : arr3 Z) : Prop :=
  0 <= get3 X 0 < size 0%nat
  /\ 0 <= get3 X 1 < size 1%nat
  /\ 0 <= get3 X 2 < size 2%nat.

(** The first point of block [bid]. *)
Definition origin (start nBlock nByBlock : arr3 Z) (bid : Z) : arr3 Z :=
  let ib := localSplit bid nBlock 0 1 in
  (get3 start 0 + get3 ib 0 * get3 nByBlock 0,
   get3 start 1 + get3 ib 1 * get3 nByBlock 1,
   get3 start 2 + get3 ib 2 * get3 nByBlock 2).

(** Where scalar [c] of point [X] sits in a memory of extents [nmem] whose
    fast direction is [axis]. *)
Definition position (axis : nat) (nmem : arr3 Z) (nf : Z) (X : arr3 Z) (c : Z)
  : Z :=
  localIndex 0 (get3 X 0) (get3 X 1) (get3 X 2) axis nmem nf + c.

(** What is asked of [localIndex] for one memory: the indexing from any
    direction names the same place, places depend linearly on the point,
    the fast direction has stride [nf], and two scalars of the memory never
    share a place. *)
Definition layout_law (axis : nat) (nmem : arr3 Z) (nf : Z) : Prop :=
  (forall (a : nat) i0 i1 i2, (a < 3)%nat ->
     localIndex a i0 i1 i2 axis nmem nf
     = localIndex 0 (get3 (unrot a i0 i1 i2) 0) (get3 (unrot a i0 i1 i2) 1)
         (get3 (unrot a i0 i1 i2) 2) axis nmem nf)
  /\ (exists k0 k1 k2, forall x0 x1 x2,
        localIndex 0 x0 x1 x2 axis nmem nf = k0 * x0 + k1 * x1 + k2 * x2)
  /\ localIndex axis 1 0 0 axis nmem nf = nf
  /\ (forall X Y c c',
        in_box (get3 nmem) X -> in_box (get3 nmem) Y ->
        0 <= c < nf -> 0 <= c' < nf ->
        position axis nmem nf X c = position axis nmem nf Y c' ->
        X = Y /\ c = c').

(** The destination of a block to send and the source of a block to
    receive, as the requests made by [setup_buffers] tell them. *)
Definition send_dest (w : View) (r bid : Z) : Z * Z :=
  match sendRequest w bid with
  | None => (r, destTag w bid)
  | Some rq => (req_peer rq, req_tag rq)
  end.

Definition recv_src (w : View) (s bid : Z) : Z :=
  match recvRequest w bid with
  | None => s
  | Some rq => req_peer rq
  end.

(** The tag under which the source knows a block to receive: the tag table
    of the opposite direction. *)
Definition srcTag (d : SwitchTopo_nb) (sign : Solver.PlanSign) : Z -> Z :=
  match sign with
  | Solver.FLUPS_FORWARD => _o2i_destTag d
  | Solver.FLUPS_BACKWARD => _i2o_destTag d
  end.

Definition send_origin (w : View) (bid : Z) : arr3 Z :=
  origin (istart w) (send_nBlock w) (nByBlock w) bid.

Definition recv_origin (w : View) (bid : Z) : arr3 Z :=
  origin (ostart w) (recv_nBlock w) (nByBlock w) bid.

Definition disjoint_boxes (o1 : arr3 Z) (size1 : nat -> Z) (o2 : arr3 Z)
  (size2 : nat -> Z) : Prop :=
  exists d : nat,
    (d < 3)%nat
    /\ (get3 o1 d + size1 d <= get3 o2 d \/ get3 o2 d + size2 d <= get3 o1 d).

(** "for every block held by rank R and destined for rank S, rank S holds
    exactly one reciprocal block from R of equal size", with what the copy
    loops need besides: one [nf] and one input fast axis [ax0] for all
    processes, blocks that fit in a slot, and received blocks that lie
    inside the local memory and do not overlap. *)
Definition exchange_invariant (nranks : Z) (descr : Z -> SwitchTopo_nb)
  (sign : Solver.PlanSign) (nf : Z) (ax0 : nat) : Prop :=
  let W := fun r => view (descr r) r sign in
    (nf = 1 \/ nf = 2) /\ (ax0 < 3)%nat
    /\ forall r, 0 <= r < nranks ->
         Topology._nf (topo_in (W r)) = nf
         /\ Topology._nf (topo_out (W r)) = nf
         /\ Topology._axis (topo_in (W r)) = ax0
         /\ (Topology._axis (topo_out (W r)) < 3)%nat
         /\ layout_law ax0 (inmem (W r)) nf
         /\ layout_law (Topology._axis (topo_out (W r))) (onmem (W r)) nf
         /\ selfBlockN (W r) = Z.of_nat (length (oselfBlockID (W r)))
         /\ (forall b, 0 <= b < nblocks (send_nBlock (W r)) ->
               let s := fst (send_dest (W r) r b) in
               let t := snd (send_dest (W r) r b) in
               0 <= s < nranks
               /\ 0 <= t < nblocks (recv_nBlock (W s))
               /\ recv_src (W s) s t = r
               /\ srcTag (descr s) sign t = b
               /\ (forall d : nat, oBlockSize (W s) d t = iBlockSize (W r) d b)
               /\ (forall d : nat, 0 <= iBlockSize (W r) d b)
               /\ iBlockSize (W r) 0%nat b * iBlockSize (W r) 1%nat b
                  * iBlockSize (W r) 2%nat b * nf <= blockMemSize)
         /\ (forall t, 0 <= t < nblocks (recv_nBlock (W r)) ->
               let s := recv_src (W r) r t in
               let b := srcTag (descr r) sign t in
               0 <= s < nranks
               /\ 0 <= b < nblocks (send_nBlock (W s))
               /\ send_dest (W s) s b = (r, t)
               /\ (forall d : nat, (d < 3)%nat ->
                     0 <= get3 (recv_origin (W r) t) d
                     /\ get3 (recv_origin (W r) t) d + oBlockSize (W r) d t
                        <= get3 (onmem (W r)) d))
         /\ (forall t t',
               0 <= t < nblocks (recv_nBlock (W r)) ->
               0 <= t' < nblocks (recv_nBlock (W r)) ->
               t <> t' ->
               disjoint_boxes (recv_origin (W r) t) (fun d => oBlockSize (W r) d t)
                 (recv_origin (W r) t') (fun d => oBlockSize (W r) d t')).

(** Where scalar [c] of point [X] of a block of extents [size] sits in the
    slot of the block: the points are laid out with direction [ax0] fastest. *)
Definition bufpos (ax0 : nat) (size : nat -> Z) (nf : Z) (X : arr3 Z) (c : Z)
  : Z :=
  let ax1 := ((ax0 + 1) mod 3)%nat in
  let ax2 := ((ax0 + 2) mod 3)%nat in
  ((get3 X ax2 * size ax1 + get3 X ax1) * size ax0 + get3 X ax0) * nf + c.

(** The stores of the two copy loops, iteration by iteration. *)
Definition fill_stores {D : Type} (w : View) (v : buffer D) (bid off : Z)
  (p : Z) (x : D) : Prop :=
  let ax0 := Topology._axis (topo_in w) in
  let ax1 := ((ax0 + 1) mod 3)%nat in
  let ax2 := ((ax0 + 2) mod 3)%nat in
  let nf := Topology._nf (topo_in w) in
  let ib := localSplit bid (send_nBlock w) 0 1 in
  let loci0 := get3 (istart w) ax0 + get3 ib ax0 * get3 (nByBlock w) ax0 in
  let loci1 := get3 (istart w) ax1 + get3 ib ax1 * get3 (nByBlock w) ax1 in
  let loci2 := get3 (istart w) ax2 + get3 ib ax2 * get3 (nByBlock w) ax2 in
  let my_v := localIndex ax0 loci0 loci1 loci2 ax0 (inmem w) nf in
  exists id, 0 <= id < iBlockSize w ax1 bid * iBlockSize w ax2 bid
    /\ exists i0, 0 <= i0 < iBlockSize w ax0 bid * nf
    /\ p = off + (id * iBlockSize w ax0 bid * nf + i0)
    /\ x = v (my_v
              + (localIndex ax0 0 (Z.rem id (iBlockSize w ax1 bid))
                   (Z.quot id (iBlockSize w ax1 bid)) ax0 (inmem w) nf
                 + i0)).

Definition unpack_stores {D : Type} (w : View) (recvBuf : buffer D) (bid : Z)
  (p : Z) (x : D) : Prop :=
  let ax0 := Topology._axis (topo_in w) in
  let ax1 := ((ax0 + 1) mod 3)%nat in
  let ax2 := ((ax0 + 2) mod 3)%nat in
  let nf := Topology._nf (topo_in w) in
  let out_axis := Topology._axis (topo_out w) in
  let ibv := localSplit bid (recv_nBlock w) 0 1 in
  let off := bid * blockMemSize in
  let loci0 := get3 (ostart w) ax0 + get3 ibv ax0 * get3 (nByBlock w) ax0 in
  let loci1 := get3 (ostart w) ax1 + get3 ibv ax1 * get3 (nByBlock w) ax1 in
  let loci2 := get3 (ostart w) ax2 + get3 ibv ax2 * get3 (nByBlock w) ax2 in
  let my_v := localIndex ax0 loci0 loci1 loci2 out_axis (onmem w) nf in
  let stride := localIndex ax0 1 0 0 out_axis (onmem w) nf in
  exists id, 0 <= id < oBlockSize w ax1 bid * oBlockSize w ax2 bid
    /\ exists i0, 0 <= i0 < oBlockSize w ax0 bid
    /\ exists c, 0 <= c < nf
    /\ p = my_v
           + (localIndex ax0 0 (Z.rem id (oBlockSize w ax1 bid))
                (Z.quot id (oBlockSize w ax1 bid)) out_axis (onmem w) nf
              + i0 * stride + c)
    /\ x = recvBuf (off + (id * oBlockSize w ax0 bid * nf + i0 * nf + c)).

(** The tags that [MPI_Waitany] reports on one process: every block that is
    not a self block, once. *)
Definition arrival_ok (w : View) (arrival : list Z) : Prop :=
  Z.of_nat (length arrival) = nblocks (recv_nBlock w) - selfBlockN w
  /\ forall t, In t arrival <->
               0 <= t < nblocks (recv_nBlock w) /\ recvRequest w t <> None.

(** The places of the field of process [r] that belong to the shared zone:
    the scalars of the blocks of the input topology. *)
Definition shared_zone (d : SwitchTopo_nb) (p : Z) : Prop :=
  exists b X c,
    0 <= b < nblocks (_inBlock d)
    /\ in_box (fun k => _iBlockSize d k b) X
    /\ 0 <= c < Topology._nf (_topo_in d)
    /\ p = position (Topology._axis (_topo_in d))
             (Topology._nmem (_topo_in d)) (Topology._nf (_topo_in d))
             (add3 (origin (_istart d) (_inBlock d) (_nByBlock d) b) X) c.
End Invariant.

End SwitchTopo_nb.

(** ** green_functions.hpp *)

Module green_functions.

Section LGF.
(** A sample of the kernel file. *)
Context {D : Type}.
(** [KERNEL_PATH] is fixed when the library is compiled. *)
Variable KERNEL_PATH : string.

(** What [_lgf_readfile] hands back: [N], the number of samples the buffer
    is allocated for and asked from [fread], and the samples [fread] got. *)
Record LGF : Type := {
  lgf_N : Z;
  lgf_size : Z;
  lgf_data : list D
}.

(** [sprintf(lgfname, "%s/LGF_3d_sym_acc12_%d.ker", path, N)] *)
Definition lgfname (dim : string) (N : Z) : string :=
  KERNEL_PATH +:+ "/LGF_" +:+ dim +:+ "d_sym_acc12_" +:+ pretty N +:+ ".ker".

(** [fs] maps the files that can be opened to the samples they hold. *)
Definition _lgf_readfile (fs : gmap string (list D)) (greendim : Z)
  : outcome LGF :=
  match
    (if greendim =? 3 then Some (64, lgfname "3" 64)
     else if greendim =? 2 then Some (32, lgfname "2" 32)
     else None)
  with
  | None => Fatal "Greendim is not available in this version"
  | Some (N, name) =>
      match fs !! name with
      | Some samples =>
          let size := N * N * N in
          Done {| lgf_N := N; lgf_size := size;
                  lgf_data := take (Z.to_nat size) samples |}
      | None => Fatal "unable to read file"
      end
  end.
End LGF.

End green_functions.

(** ** The words of the specification

    Two notions that the specification uses and the sources do not define:
    the greatest common divisor of a family of extents, and counts that are
    all equal. *)

Definition gcd_list (l : list Z) : Z := fold_right Z.gcd 0 l.

(** "the greatest common divisor of the send extent and receive extent
    across all processes in that direction" *)
Definition spec_block_extent (procs : list SwitchTopo_a2a.proc_extent) : Z :=
  gcd_list
    (flat_map (fun p => [SwitchTopo_a2a.isend p; SwitchTopo_a2a.osend p])
       procs).

(** "all per-destination counts are equal": the counts sent to and received
    from every rank of the sub-communicator. *)
Definition spec_uniform (subsize : nat) (i2o_count o2i_count : list Z) : bool :=
  forallb
    (fun ir =>
       (i2o_count !!! ir =? i2o_count !!! 0%nat)
       && (o2i_count !!! ir =? i2o_count !!! 0%nat))
    (seq 0 subsize).

(** The exclusive prefix sum of counts: [0], then the running totals. *)
Fixpoint exclusive_prefix_sum (from : Z) (count : list Z) : list Z :=
  match count with
  | [] => []
  | c :: count => from :: exclusive_prefix_sum (from + c) count
  end.

(** ** Concrete configurations

    Small instances on which the statements of the second part are
    exercised. *)

Module Examples.

(** The layout of a padded pencil: rows of [nmem[ax0] * nf] scalars. *)
Definition collapsedIndex (axsrc : nat) (i0 id : Z) (size : arr3 Z) (nf : Z)
  : Z :=
  i0 * nf + get3 size axsrc * nf * id.

(** A real pencil along direction 0 with two rows of two points. *)
Definition green_topo : Topology.Topology :=
  {| Topology._axis := 0;
     Topology._nf := 1;
     Topology._alignment := 16;
     Topology._nloc := (2, 2, 1);
     Topology._nmem := (2, 2, 1) |}.

(** A kernel file of 2000 samples for the two-dimensional kernel. *)
Definition lgf_fs : gmap string (list Z) :=
  {[ "kernel/LGF_2d_sym_acc12_32.ker"%string := replicate 2000 7 ]}.

(** The pencil layout for [localIndex]: the point given by [(i0, i1, i2)]
    counted from direction [axsrc], in a memory whose fast direction is
    [axtrg]. *)
Definition localIndex (axsrc : nat) (i0 i1 i2 : Z) (axtrg : nat)
  (size : arr3 Z) (nf : Z) : Z :=
  let X := unrot axsrc i0 i1 i2 in
  let ax0 := axtrg in
  let ax1 := ((ax0 + 1) mod 3)%nat in
  let ax2 := ((ax0 + 2) mod 3)%nat in
  get3 X ax0 * nf + get3 size ax0 * nf * (get3 X ax1 + get3 size ax1 * get3 X ax2).

Definition localSplit (id : Z) (size : arr3 Z) (axtrg : nat) (nf : Z)
  : arr3 Z :=
  let ax0 := axtrg in
  let ax1 := ((ax0 + 1) mod 3)%nat in
  let ax2 := ((ax0 + 2) mod 3)%nat in
  let size0 := get3 size ax0 * nf in
  let idv := (0, 0, 0) in
  let idv := set3 idv ax0 (Z.rem id size0) in
  let idv := set3 idv ax1 (Z.quot (Z.rem id (size0 * get3 size ax1)) size0) in
  set3 idv ax2 (Z.quot id (size0 * get3 size ax1)).

Definition memsize (t : Topology.Topology) : Z :=
  get3 (Topology._nmem t) 0 * get3 (Topology._nmem t) 1
  * get3 (Topology._nmem t) 2 * Topology._nf t.

(** Two processes and a grid of 2 x 2 x 1 points: pencils along direction 0
    (process [r] holds the row [y = r]) are turned into pencils along
    direction 1 (process [s] holds the column [x = s]). *)
Definition pencil (axis : nat) (n : arr3 Z) : Topology.Topology :=
  {| Topology._axis := axis;
     Topology._nf := 1;
     Topology._alignment := 8;
     Topology._nloc := n;
     Topology._nmem := n |}.

Definition transpose_xy (r : Z) : SwitchTopo_nb.SwitchTopo_nb :=
  {| SwitchTopo_nb._topo_in := pencil 0 (2, 1, 1);
     SwitchTopo_nb._topo_out := pencil 1 (1, 2, 1);
     SwitchTopo_nb._nByBlock := (1, 1, 1);
     SwitchTopo_nb._istart := (0, 0, 0);
     SwitchTopo_nb._ostart := (0, 0, 0);
     SwitchTopo_nb._inBlock := (2, 1, 1);
     SwitchTopo_nb._onBlock := (1, 2, 1);
     SwitchTopo_nb._iBlockSize := fun _ _ => 1;
     SwitchTopo_nb._oBlockSize := fun _ _ => 1;
     SwitchTopo_nb._i2o_destRank := fun bid => bid;
     SwitchTopo_nb._o2i_destRank := fun bid => bid;
     SwitchTopo_nb._i2o_destTag := fun _ => r;
     SwitchTopo_nb._o2i_destTag := fun _ => r;
     SwitchTopo_nb._selfBlockN := 1 |}.

(** The order in which the only message addressed to a process arrives. *)
Definition arrival_xy (r : Z) : list Z := [1 - r].

(** One process, one point, a pencil padded to two scalars. *)
Definition padded_point : Topology.Topology :=
  {| Topology._axis := 0;
     Topology._nf := 1;
     Topology._alignment := 16;
     Topology._nloc := (1, 1, 1);
     Topology._nmem := (2, 1, 1) |}.

Definition transpose_point (r : Z) : SwitchTopo_nb.SwitchTopo_nb :=
  {| SwitchTopo_nb._topo_in := padded_point;
     SwitchTopo_nb._topo_out := padded_point;
     SwitchTopo_nb._nByBlock := (1, 1, 1);
     SwitchTopo_nb._istart := (0, 0, 0);
     SwitchTopo_nb._ostart := (0, 0, 0);
     SwitchTopo_nb._inBlock := (1, 1, 1);
     SwitchTopo_nb._onBlock := (1, 1, 1);
     SwitchTopo_nb._iBlockSize := fun _ _ => 1;
     SwitchTopo_nb._oBlockSize := fun _ _ => 1;
     SwitchTopo_nb._i2o_destRank := fun _ => 0;
     SwitchTopo_nb._o2i_destRank := fun _ => 0;
     SwitchTopo_nb._i2o_destTag := fun _ => 0;
     SwitchTopo_nb._o2i_destTag := fun _ => 0;
     SwitchTopo_nb._selfBlockN := 1 |}.

(** A memory whose field holds [f] and whose staging buffers hold [junk]. *)
Definition memory_of (f : Z -> Z) (junk : Z) : SwitchTopo_nb.Memory :=
  {| SwitchTopo_nb.v := f;
     SwitchTopo_nb.sendData := fun _ => junk;
     SwitchTopo_nb.recvData := fun _ => junk |}.

(** Fields to transpose: process [r] holds [10 * (r + 1) + p + 1] at place
    [p]. *)
Definition numbered_field (r : Z) : SwitchTopo_nb.Memory :=
  memory_of (fun p => 10 * (r + 1) + p + 1) 99.

End Examples.

(** ** Topology.cpp: the shared zone *)

Module TopologyIntersect.
Import Topology.

(** One direction of [cmpt_intersect_id].  [start_id] is what
    [cmpt_start_id(id)] returns (declared in [Topology.hpp], not part of the
    sources at hand): the global index of the first local point. *)
Definition intersect_step (start_id shift onglob : Z) (i : Z) (se : Z * Z)
  : Z * Z :=
  let oid_global := start_id + i + shift in
  let start := if oid_global <=? 0 then i else fst se in
  let end_ := if oid_global <? onglob then i + 1 else snd se in
  (start, end_).

Definition cmpt_intersect_id_dim (nloc start_id shift onglob : Z) : Z * Z :=
  for_range 0 nloc (intersect_step start_id shift onglob) (0, 0).

(** [other] is given by its record and by its global size, which the record
    of the topology does not hold; [isComplex()] is [_nf == 2]. *)
Definition cmpt_intersect_id (t : Topology) (cmpt_start_id : nat -> Z)
  (shift : arr3 Z) (other : Topology) (other_nglob : arr3 Z)
  : outcome (arr3 Z * arr3 Z) :=
  FLUPS_CHECK (Bool.eqb (_nf t =? 2) (_nf other =? 2))
    "The two topo have to be both complex or real"
    (let dim := fun id =>
       cmpt_intersect_id_dim (get3 (_nloc t) id) (cmpt_start_id id)
         (get3 shift id) (get3 other_nglob id) in
     Done ((fst (dim 0%nat), fst (dim 1%nat), fst (dim 2%nat)),
           (snd (dim 0%nat), snd (dim 1%nat), snd (dim 2%nat)))).

End TopologyIntersect.

(** ** SwitchTopo.hpp: the size of the staging buffers *)

Module SwitchTopoMemory.

(** [get_blockMemSize(ib, nf, blockSize)]: the scalars of block [ib],
    padded so that the block takes a whole number of alignments.  The
    arithmetic is that of [size_t]; [FLUPS_ALIGNMENT] comes from [flups.h],
    which is not part of the sources at hand. *)
Definition get_blockMemSize (FLUPS_ALIGNMENT : Z) (ib nf : Z)
  (blockSize : nat -> Z -> Z) : outcome Z :=
  let total :=
    to_size_t
      (to_size_t
         (to_size_t (to_size_t (blockSize 0%nat ib)
                     * to_size_t (blockSize 1%nat ib))
          * to_size_t (blockSize 2%nat ib))
       * to_size_t nf) in
  let misfit :=
    to_size_t (total * sizeof_double) mod to_size_t FLUPS_ALIGNMENT in
  let alignDelta :=
    if misfit =? 0 then 0
    else to_size_t (to_size_t FLUPS_ALIGNMENT - misfit) / sizeof_double in
  let total := to_size_t (total + alignDelta) in
  FLUPS_CHECK
    (to_size_t (total * sizeof_double) mod to_size_t FLUPS_ALIGNMENT =? 0)
    "The total size of one block HAS to match the alignement size"
    (Done total).

(** One iteration of the loops of [get_bufMemSize]; a failed check in
    [get_blockMemSize] ends the run. *)
Definition add_block (FLUPS_ALIGNMENT nf lda : Z) (blockSize : nat -> Z -> Z)
  (ib : Z) (total : outcome Z) : outcome Z :=
  match total with
  | Fatal msg => Fatal msg
  | Done total =>
      match get_blockMemSize FLUPS_ALIGNMENT ib nf blockSize with
      | Fatal msg => Fatal msg
      | Done size => Done (to_size_t (total + to_size_t (size * to_size_t lda)))
      end
  end.

(** [get_bufMemSize()]; [_inBlock] and [_onBlock] are the numbers of blocks,
    [lda] is [_topo_in->lda()]. *)
Definition get_bufMemSize (FLUPS_ALIGNMENT : Z) (nf_in nf_out lda : Z)
  (_inBlock _onBlock : Z) (_iBlockSize _oBlockSize : nat -> Z -> Z)
  : outcome Z :=
  let nf := Z.max nf_in nf_out in
  let total := Done 0 in
  let total :=
    for_range 0 _inBlock (add_block FLUPS_ALIGNMENT nf lda _iBlockSize) total in
  for_range 0 _onBlock (add_block FLUPS_ALIGNMENT nf lda _oBlockSize) total.

(** The sum of [f 0], ..., [f (n - 1)]. *)
Definition sum_below (n : Z) (f : Z -> Z) : Z :=
  fold_right Z.add 0 (List.map f (zrange 0 n)).

(** The scalars of a block. *)
Definition block_scalars (nf : Z) (blockSize : nat -> Z -> Z) (ib : Z) : Z :=
  blockSize 0%nat ib * blockSize 1%nat ib * blockSize 2%nat ib * nf.

(** The least multiple of [k] that is not below [x]. *)
Definition round_up (k x : Z) : Z := k * ((x + k - 1) / k).

End SwitchTopoMemory.

(** ** SwitchTopo_a2a.cpp: the addresses of the blocks *)

Module SwitchTopo_a2a_buffers.

(** The inner loop of [setup_buffers]: "we count the number of blocks on the
    ranks bellow me", in [size_t]. *)
Definition memblocks (count : list Z) (destrank : nat) : Z :=
  for_each (seq 0 destrank)
    (fun ir memblocks => to_size_t (memblocks + to_size_t (count !!! ir)))
    0.

(** [setup_buffers]: the offsets of [_sendBuf[ib]] in [sendData] and of
    [_recvBuf[ib]] in [recvData], block by block. *)
Definition setup_buffers (_i2o_destRank _o2i_destRank : list nat)
  (_i2o_count _o2i_count : list Z) : list Z * list Z :=
  (List.map (memblocks _i2o_count) _i2o_destRank,
   List.map (memblocks _o2i_count) _o2i_destRank).

(** The blocks bound for rank [r], and for a rank below [r]. *)
Definition blocks_for (destRank : list nat) (r : nat) : Z :=
  Z.of_nat (length (List.filter (fun d => Nat.eqb d r) destRank)).

Definition blocks_below (destRank : list nat) (r : nat) : Z :=
  Z.of_nat (length (List.filter (fun d => Nat.ltb d r) destRank)).

End SwitchTopo_a2a_buffers.

(** ** SwitchTopo_a2a.cpp: the colours of the sub-communicators *)

Module SwitchTopo_a2a_colors.

(** "do a first pass and give a color + who is in my group": one of the two
    loops over the blocks. *)
Definition first_pass (destRank : list nat) (st : nat * list bool)
  : nat * list bool :=
  for_each destRank
    (fun d st => (Nat.min (fst st) d, <[d := true]> (snd st)))
    st.

(** [mycolor] and [inMyGroup] of process [rank] before the loop. *)
Definition init_color (comm_size rank : nat)
  (_i2o_destRank _o2i_destRank : list nat)
  : nat * list bool :=
  first_pass _o2i_destRank
    (first_pass _i2o_destRank (rank, replicate comm_size false)).

(** "count how much is should be in my group" *)
Definition count_group (comm_size : nat) (inMyGroup : list bool) : Z :=
  for_each (seq 0 comm_size)
    (fun (ir : nat) (nleft : Z) =>
       if (inMyGroup !!! ir : bool) then nleft + 1 else nleft)
    0.

(** The body of "iterate on the proc"; the state is [mycolor] and
    [n_notInMyGroup]. *)
Definition round_step (inMyGroup : list bool) (colors : list nat) (ir : nat)
  (st : nat * Z) : nat * Z :=
  let mycolor := fst st in
  let n_notInMyGroup := snd st in
  if (inMyGroup !!! ir) && negb (Nat.eqb (colors !!! ir) mycolor) then
    let n_notInMyGroup := n_notInMyGroup + 1 in
    let n_notInMyGroup :=
      n_notInMyGroup - (if Nat.ltb (colors !!! ir) mycolor then 1 else 0) in
    (Nat.min mycolor (colors !!! ir), n_notInMyGroup)
  else (mycolor, n_notInMyGroup).

(** One turn of the [while] loop on one process, between [MPI_Allgather]
    and [MPI_Allreduce]. *)
Definition round (comm_size : nat) (inMyGroup : list bool) (colors : list nat)
  (mycolor : nat) : nat * Z :=
  for_each (seq 0 comm_size) (round_step inMyGroup colors) (mycolor, 0).

(** The [while] loop on all the processes at once.  [MPI_Allgather] hands
    every process the list of the colours, [MPI_Allreduce] the sum of the
    counters; [None] when the fuel runs out. *)
Fixpoint propagate (fuel comm_size : nat) (inMyGroup : nat -> list bool)
  (mycolor : list nat) : option (list nat) :=
  match fuel with
  | O => None
  | S fuel =>
      let colors := mycolor in
      let turn :=
        List.map (fun rank => round comm_size (inMyGroup rank) colors
                                (mycolor !!! rank))
          (seq 0 comm_size) in
      let nleft := fold_right Z.add 0 (List.map snd turn) in
      let mycolor := List.map fst turn in
      if nleft >? 0 then propagate fuel comm_size inMyGroup mycolor
      else Some mycolor
  end.

(** What becomes of the computation of the colours: the colours handed to
    [MPI_Comm_split]; processes that do not call the same collectives, some
    entering the loop and some not; or a loop that is still running when
    the fuel is spent. *)
Inductive coloring : Type :=
| Colors (mycolor : list nat)
| Mismatch
| Unfinished.

(** The constructor from "compute the color among the proc I send to and I
    recv from" to [MPI_Comm_split].  The first test of the loop is on the
    local count of the group. *)
Definition cmpt_colors (fuel comm_size : nat)
  (_i2o_destRank _o2i_destRank : nat -> list nat) : coloring :=
  let init := fun rank =>
    init_color comm_size rank (_i2o_destRank rank) (_o2i_destRank rank) in
  let nleft := fun rank => count_group comm_size (snd (init rank)) in
  let mycolor := List.map (fun rank => fst (init rank)) (seq 0 comm_size) in
  if forallb (fun rank => nleft rank >? 0) (seq 0 comm_size) then
    match propagate fuel comm_size (fun rank => snd (init rank)) mycolor with
    | Some mycolor => Colors mycolor
    | None => Unfinished
    end
  else if forallb (fun rank => negb (nleft rank >? 0)) (seq 0 comm_size) then
    Colors mycolor
  else Mismatch.

(** Process [r] sends a block to process [s] or receives one from it. *)
Definition talks_to (_i2o_destRank _o2i_destRank : nat -> list nat)
  (r s : nat) : Prop :=
  In s (_i2o_destRank r) \/ In s (_o2i_destRank r).

(** The colour and the counter of process [rank] after one turn. *)
Definition turn_color (comm_size : nat) (inMyGroup : nat -> list bool)
  (colors : list nat) (rank : nat) : nat :=
  fst (round comm_size (inMyGroup rank) colors (colors !!! rank)).

Definition turn_count (comm_size : nat) (inMyGroup : nat -> list bool)
  (colors : list nat) (rank : nat) : Z :=
  snd (round comm_size (inMyGroup rank) colors (colors !!! rank)).

(** What holds of the colours all along: the colour of a process is not
    above its rank and is the rank of a process it is linked to. *)
Definition colors_ok (comm_size : nat)
  (_i2o_destRank _o2i_destRank : nat -> list nat) (colors : list nat) : Prop :=
  length colors = comm_size
  /\ forall r, (r < comm_size)%nat ->
       (colors !!! r <= r)%nat
       /\ rtc (talks_to _i2o_destRank _o2i_destRank) r (colors !!! r).

End SwitchTopo_a2a_colors.

(** ** Solver.cpp: the copies between the user's arrays and the solver *)

Module SolverCopy.

Section DoCopy.
Context {D : Type}.
(** [collapsedIndex] and [FLUPS_ALIGNMENT] come from [defines.hpp] and
    [flups.h], [memdim] from [Topology.hpp]; none is part of the sources at
    hand. *)
Variable collapsedIndex : nat -> Z -> Z -> arr3 Z -> Z -> Z.
Variable FLUPS_ALIGNMENT : Z.

(** One of the four loops of [do_copy]: the rows of the local extent are
    copied from [src] to [dst], component by component. *)
Definition copy_rows (ax0 : nat) (nmem : arr3 Z) (memdim ondim onmax inmax : Z)
  (src dst : buffer D) : buffer D :=
  for_range 0 onmax
    (fun id dst =>
       let lia := id / ondim in
       let io := id mod ondim in
       let loc := lia * memdim + collapsedIndex ax0 0 io nmem 1 in
       for_range 0 inmax
         (fun ii dst => write dst (loc + ii) (src (loc + ii)))
         dst)
    dst.

(** [do_copy].  The state is the pair of the solver's own buffer [_data]
    and of the array of the caller; [data_is_null] and [data_aligned] say
    what [data != NULL] and [FLUPS_ISALIGNED(argdata)] evaluate to, [lda] is
    [topo->lda()].  The two branches of the alignment test run the same
    loops, with other hints for the compiler. *)
Definition do_copy (_lda : Z) (topo : Topology.Topology) (lda memdim : Z)
  (data_is_null data_aligned : bool) (sign : Solver.PlanSign)
  (bufs : buffer D * buffer D) : outcome (buffer D * buffer D) :=
  FLUPS_CHECK (negb data_is_null) "data is NULL"
    (FLUPS_CHECK (_lda =? lda) "the solver lda must match the topology one"
       (let owndata := fst bufs in
        let argdata := snd bufs in
        let ax0 := Topology._axis topo in
        let ax1 := ((ax0 + 1) mod 3)%nat in
        let ax2 := ((ax0 + 2) mod 3)%nat in
        let nmem := Topology._nmem topo in
        let ondim :=
          get3 (Topology._nloc topo) ax1 * get3 (Topology._nloc topo) ax2 in
        let onmax :=
          get3 (Topology._nloc topo) ax1 * get3 (Topology._nloc topo) ax2
          * _lda in
        let inmax := get3 (Topology._nloc topo) ax0 in
        if data_aligned
           && ((get3 nmem ax0 * Topology._nf topo * sizeof_double)
               mod FLUPS_ALIGNMENT =? 0)
        then
          match sign with
          | Solver.FLUPS_FORWARD =>
              Done (copy_rows ax0 nmem memdim ondim onmax inmax argdata owndata,
                    argdata)
          | Solver.FLUPS_BACKWARD =>
              Done (owndata,
                    copy_rows ax0 nmem memdim ondim onmax inmax owndata argdata)
          end
        else
          match sign with
          | Solver.FLUPS_FORWARD =>
              Done (copy_rows ax0 nmem memdim ondim onmax inmax argdata owndata,
                    argdata)
          | Solver.FLUPS_BACKWARD =>
              Done (owndata,
                    copy_rows ax0 nmem memdim ondim onmax inmax owndata argdata)
          end)).

(** The places that the loops of [do_copy] go through: for each component
    and each row of the local extent, the [nloc[ax0]] first scalars of the
    row, the row being found with one scalar for each point.  On a real
    topology ([nf = 1]) these are the scalars of the local extent; on a
    complex one they are half of each row. *)
Definition local_place (_lda : Z) (topo : Topology.Topology) (memdim : Z)
  (p : Z) : Prop :=
  let ax0 := Topology._axis topo in
  let ax1 := ((ax0 + 1) mod 3)%nat in
  let ax2 := ((ax0 + 2) mod 3)%nat in
  let ondim :=
    get3 (Topology._nloc topo) ax1 * get3 (Topology._nloc topo) ax2 in
  exists id ii,
    0 <= id < ondim * _lda
    /\ 0 <= ii < get3 (Topology._nloc topo) ax0
    /\ p = id / ondim * memdim
           + collapsedIndex ax0 0 (id mod ondim) (Topology._nmem topo) 1 + ii.
End DoCopy.

End SolverCopy.

(** ** dothemagic_std.ipp: the product with the Green's function *)

Module SolverMagic.

Section DoTheMagic.
(** A [double] with its product, sum and difference. *)
Context {D : Type}.
Variable dmul : D -> D -> D.
Variable dadd : D -> D -> D.
Variable dsub : D -> D -> D.
(** [collapsedIndex] and [FLUPS_ALIGNMENT] come from [defines.hpp] and
    [flups.h], [lda()] and [memdim()] from [Topology.hpp]; none is part of
    the sources at hand. *)
Variable collapsedIndex : nat -> Z -> Z -> arr3 Z -> Z -> Z.
Variable FLUPS_ALIGNMENT : Z.

(** The loop of the real kind ([KIND == 0]). *)
Definition magic_loop_real (ax0 : nat) (nf : Z) (nmem : arr3 Z)
  (memdim ondim onmax inmax : Z) (normfact : D) (mygreen : buffer D)
  (mydata : buffer D) : buffer D :=
  for_range 0 onmax
    (fun id data =>
       let lia := id / ondim in
       let io := id mod ondim in
       let greenloc := collapsedIndex ax0 0 io nmem nf in
       let dataloc := lia * memdim + collapsedIndex ax0 0 io nmem nf in
       for_range 0 inmax
         (fun ii data =>
            write data (dataloc + ii)
              (dmul (data (dataloc + ii))
                 (dmul normfact (mygreen (greenloc + ii)))))
         data)
    mydata.

(** The loop of the complex kind ([KIND == 1]). *)
Definition magic_loop_complex (ax0 : nat) (nf : Z) (nmem : arr3 Z)
  (memdim ondim onmax inmax : Z) (normfact : D) (mygreen : buffer D)
  (mydata : buffer D) : buffer D :=
  for_range 0 onmax
    (fun id data =>
       let lia := id / ondim in
       let io := id mod ondim in
       let greenloc := collapsedIndex ax0 0 io nmem nf in
       let dataloc := lia * memdim + collapsedIndex ax0 0 io nmem nf in
       for_range 0 inmax
         (fun ii data =>
            let a := data (dataloc + (ii * 2 + 0)) in
            let b := data (dataloc + (ii * 2 + 1)) in
            let c := mygreen (greenloc + (ii * 2 + 0)) in
            let d := mygreen (greenloc + (ii * 2 + 1)) in
            let data :=
              write data (dataloc + (ii * 2 + 0))
                (dmul normfact (dsub (dmul a c) (dmul b d))) in
            write data (dataloc + (ii * 2 + 1))
              (dmul normfact (dadd (dmul a d) (dmul b c))))
         data)
    mydata.

(** The two functions that the file gives, one for each [KIND].
    [green_aligned] and [data_aligned] say what [FLUPS_ISALIGNED] evaluates
    to on [_green] and on [data]. *)
Definition dothemagic_std (kind : Z) (_ndim : nat)
  (_topo_hat : arr3 Topology.Topology) (lda memdim : Z) (_normfact : D)
  (_green : buffer D) (green_aligned data_aligned : bool) (data : buffer D)
  : outcome (buffer D) :=
  let cdim := (_ndim - 1)%nat in
  let topo := get3 _topo_hat cdim in
  FLUPS_CHECK (Topology._nf topo =? (if kind =? 0 then 1 else 2))
    "The topo_hat[2] (field) has to be complex"
    (let nf := Topology._nf topo in
     let ax0 := Topology._axis topo in
     let ax1 := ((ax0 + 1) mod 3)%nat in
     let ax2 := ((ax0 + 2) mod 3)%nat in
     let normfact := _normfact in
     let onmax :=
       get3 (Topology._nloc topo) ax1 * get3 (Topology._nloc topo) ax2 * lda in
     let ondim :=
       get3 (Topology._nloc topo) ax1 * get3 (Topology._nloc topo) ax2 in
     let inmax := get3 (Topology._nloc topo) ax0 in
     let nmem := Topology._nmem topo in
     FLUPS_CHECK
       (green_aligned
        && ((get3 nmem ax0 * Topology._nf topo * sizeof_double)
            mod FLUPS_ALIGNMENT =? 0))
       "please use FLUPS_ALIGNMENT to align the memory"
       (FLUPS_CHECK
          (data_aligned
           && ((get3 nmem ax0 * Topology._nf topo * sizeof_double)
               mod FLUPS_ALIGNMENT =? 0))
          "please use FLUPS_ALIGNMENT to align the memory"
          (Done
             (if kind =? 0
              then magic_loop_real ax0 nf nmem memdim ondim onmax inmax
                     normfact _green data
              else magic_loop_complex ax0 nf nmem memdim ondim onmax inmax
                     normfact _green data)))).

Definition dothemagic_std_real := dothemagic_std 0.
Definition dothemagic_std_complex := dothemagic_std 1.
(** What the place [p] of a row of complex numbers that starts at [dl]
    holds once the row has been multiplied by the row of [green] that starts
    at [gl]: the real or the imaginary part of the product, times
    [normfact]. *)
Definition complex_value (dl gl : Z) (normfact : D)
  (green d : buffer D) (p : Z) : D :=
  let ii := (p - dl) / 2 in
  let a := d (dl + (ii * 2 + 0)) in
  let b := d (dl + (ii * 2 + 1)) in
  let c := green (gl + (ii * 2 + 0)) in
  let e := green (gl + (ii * 2 + 1)) in
  if (p - dl) mod 2 =? 0
  then dmul normfact (dsub (dmul a c) (dmul b e))
  else dmul normfact (dadd (dmul a e) (dmul b c)).
End DoTheMagic.

End SolverMagic.

(** ** SwitchTopo_a2a.cpp: the pack loop of [execute] *)

Module SwitchTopo_a2a_execute.

Section Pack.
Context {D : Type}.
(** [localIndex] and [localSplit] come from [defines.hpp], which is not part
    of the sources at hand. *)
Variable localIndex : nat -> Z -> Z -> Z -> nat -> arr3 Z -> Z -> Z.
Variable localSplit : Z -> arr3 Z -> nat -> Z -> arr3 Z.

(** "fill the buffers": the copy of block [bid] into [data], which starts at
    [off] in the send buffer.  [execute] declares [int inloc[3]] and never
    assigns it (the two assignments are commented out); the argument [inloc]
    stands for whatever the array holds when the loop reads it. *)
Definition fill_block (inloc : arr3 Z) (ax0 : nat) (nf : Z)
  (send_nBlock istart nByBlock : arr3 Z) (iBlockSize : nat -> Z -> Z)
  (v : buffer D) (bid off : Z) (data : buffer D) : buffer D :=
  let ax1 := ((ax0 + 1) mod 3)%nat in
  let ax2 := ((ax0 + 2) mod 3)%nat in
  let ib := localSplit bid send_nBlock 0 1 in
  let loci0 := get3 istart ax0 + get3 ib ax0 * get3 nByBlock ax0 in
  let loci1 := get3 istart ax1 + get3 ib ax1 * get3 nByBlock ax1 in
  let loci2 := get3 istart ax2 + get3 ib ax2 * get3 nByBlock ax2 in
  let my_v := localIndex ax0 loci0 loci1 loci2 ax0 inloc nf in
  let id_max := iBlockSize ax1 bid * iBlockSize ax2 bid in
  for_range 0 id_max
    (fun id data =>
       let i2 := Z.quot id (iBlockSize ax1 bid) in
       let i1 := Z.rem id (iBlockSize ax1 bid) in
       let buf_idx := id * iBlockSize ax0 bid * nf in
       let my_idx := localIndex ax0 0 i1 i2 ax0 inloc nf in
       let nmax := iBlockSize ax0 bid * nf in
       for_range 0 nmax
         (fun i0 data =>
            write data (off + (buf_idx + i0)) (v (my_v + (my_idx + i0))))
         data)
    data.
End Pack.

End SwitchTopo_a2a_execute.

Module MoreExamples.


(** A complex pencil along direction 0: two rows of two complex numbers. *)
Definition hat_topo : Topology.Topology :=
  {| Topology._axis := 0;
     Topology._nf := 2;
     Topology._alignment := 16;
     Topology._nloc := (2, 2, 1);
     Topology._nmem := (2, 2, 1) |}.

End MoreExamples.

(** ** Profiler.cpp: the timers that the solver starts and stops *)

Module Profiler.

(** A [TimerAgent].  The agents live in the [_timeMap] of the profiler, one
    for each name, and are never freed before the profiler is: a pointer to
    an agent is the key under which the map holds it.  [_children] maps the
    name of a child to such a pointer. *)
Record TimerAgent (D : Type) : Type := {
  _name : string;
  _count : Z;
  _t0 : D;
  _t1 : D;
  _timeAcc : D;
  _timeMax : D;
  _timeMin : D;
  _memsize : Z;
  _children : gmap string string;
  _daddy : option string;
  _isroot : bool
}.
Arguments _name {D} _.
Arguments _count {D} _.
Arguments _t0 {D} _.
Arguments _t1 {D} _.
Arguments _timeAcc {D} _.
Arguments _timeMax {D} _.
Arguments _timeMin {D} _.
Arguments _memsize {D} _.
Arguments _children {D} _.
Arguments _daddy {D} _.
Arguments _isroot {D} _.

Section Agents.
(** A [double] with its sum, its difference, its comparison [<] and the
    constant [0.0]. *)
Context {D : Type}.
Variable dadd : D -> D -> D.
Variable dsub : D -> D -> D.
Variable dlt : D -> D -> bool.
Variable dzero : D.
(** The initial values of the members that neither the constructor nor
    [reset] sets are given in [Profiler.hpp], which is not part of the
    sources at hand. *)
Variable count0 : Z.
Variable memsize0 : Z.
Variable daddy0 : option string.
Variable isroot0 : bool.

(** [std::max] and [std::min]. *)
Definition max (a b : D) : D := if dlt a b then b else a.
Definition min (a b : D) : D := if dlt b a then b else a.

Definition new_TimerAgent (name : string) : TimerAgent D :=
  {| _name := name; _count := count0; _t0 := dzero; _t1 := dzero;
     _timeAcc := dzero; _timeMax := dzero; _timeMin := dzero;
     _memsize := memsize0; _children := ∅; _daddy := daddy0;
     _isroot := isroot0 |}.

(** [TimerAgent::start]; [now] is what [MPI_Wtime()] returns. *)
Definition start (now : D) (a : TimerAgent D) : TimerAgent D :=
  {| _name := _name a; _count := to_int (_count a + 1); _t0 := now;
     _t1 := _t1 a; _timeAcc := _timeAcc a; _timeMax := _timeMax a;
     _timeMin := _timeMin a; _memsize := _memsize a;
     _children := _children a; _daddy := _daddy a; _isroot := _isroot a |}.

(** [TimerAgent::stop]. *)
Definition stop (now : D) (a : TimerAgent D) : TimerAgent D :=
  let t1 := now in
  let dt := dsub t1 (_t0 a) in
  let timeAcc := dadd (_timeAcc a) dt in
  let timeMax := max (_timeMax a) dt in
  let timeMin := min timeMax dt in
  {| _name := _name a; _count := _count a; _t0 := _t0 a;
     _t1 := t1; _timeAcc := timeAcc; _timeMax := timeMax;
     _timeMin := timeMin; _memsize := _memsize a;
     _children := _children a; _daddy := _daddy a; _isroot := _isroot a |}.

(** [TimerAgent::reset]. *)
Definition reset (a : TimerAgent D) : TimerAgent D :=
  {| _name := _name a; _count := _count a; _t0 := dzero;
     _t1 := dzero; _timeAcc := dzero; _timeMax := dzero;
     _timeMin := dzero; _memsize := _memsize a;
     _children := _children a; _daddy := _daddy a; _isroot := _isroot a |}.

(** [TimerAgent::addMem]. *)
Definition addMem (mem : Z) (a : TimerAgent D) : TimerAgent D :=
  {| _name := _name a; _count := _count a; _t0 := _t0 a;
     _t1 := _t1 a; _timeAcc := _timeAcc a; _timeMax := _timeMax a;
     _timeMin := _timeMin a; _memsize := to_size_t (_memsize a + mem);
     _children := _children a; _daddy := _daddy a; _isroot := _isroot a |}.

(** [TimerAgent::setDaddy]. *)
Definition setDaddy (daddy : string) (a : TimerAgent D) : TimerAgent D :=
  {| _name := _name a; _count := _count a; _t0 := _t0 a;
     _t1 := _t1 a; _timeAcc := _timeAcc a; _timeMax := _timeMax a;
     _timeMin := _timeMin a; _memsize := _memsize a;
     _children := _children a; _daddy := Some daddy; _isroot := false |}.

Definition set_children (children : gmap string string) (a : TimerAgent D)
  : TimerAgent D :=
  {| _name := _name a; _count := _count a; _t0 := _t0 a;
     _t1 := _t1 a; _timeAcc := _timeAcc a; _timeMax := _timeMax a;
     _timeMin := _timeMin a; _memsize := _memsize a;
     _children := children; _daddy := _daddy a; _isroot := _isroot a |}.

(** The [_timeMap] of a profiler is also the memory that holds the agents:
    [gmap string (TimerAgent D)]. *)

(** [this->addChild(child)] for the agents that [this] and [child] point
    to; the two may be the same agent.  [None] stands for the use of a
    pointer that the map does not hold. *)
Definition addChild (this child : string) (m : gmap string (TimerAgent D))
  : option (gmap string (TimerAgent D)) :=
  match m !! child with
  | None => None
  | Some c =>
      let childName := _name c in
      match m !! this with
      | None => None
      | Some t =>
          match _children t !! childName with
          | None =>
              let m := <[this := set_children
                                   (<[childName := child]> (_children t)) t]> m in
              match m !! child with
              | None => None
              | Some c => Some (<[child := setDaddy this c]> m)
              end
          | Some _ => Some m
          end
      end
  end.

(** [Profiler::_createSingle]. *)
Definition _createSingle (name : string) (m : gmap string (TimerAgent D))
  : gmap string (TimerAgent D) :=
  match m !! name with
  | Some a => <[name := reset a]> m
  | None => <[name := reset (new_TimerAgent name)]> m
  end.

(** [Profiler::create(child, daddy)]; [create(name)] is
    [create(name, "root")].  The function calls itself when the map does
    not hold [daddy]: [fuel] bounds the depth of the calls, and [None] is
    what a call gives that runs out of it. *)
Fixpoint create (fuel : nat) (child daddy : string) (m : gmap string (TimerAgent D))
  : option (gmap string (TimerAgent D)) :=
  match fuel with
  | O => None
  | S fuel =>
      let m := _createSingle child m in
      match (match m !! daddy with
             | None => create fuel daddy "root" m
             | Some _ => Some m
             end) with
      | None => None
      | Some m => addChild daddy child m
      end
  end.

(** [Profiler::Profiler]. *)
Definition Profiler_new : gmap string (TimerAgent D) := _createSingle "root" ∅.

(** [Profiler::start] and [Profiler::stop], as compiled without [NDEBUG]. *)
Definition Profiler_start (now : D) (name : string) (m : gmap string (TimerAgent D))
  : outcome (gmap string (TimerAgent D)) :=
  match m !! name with
  | Some a => Done (<[name := start now a]> m)
  | None => Fatal ("timer " ++ name ++ " not found")
  end.

Definition Profiler_stop (now : D) (name : string) (m : gmap string (TimerAgent D))
  : outcome (gmap string (TimerAgent D)) :=
  match m !! name with
  | Some a => Done (<[name := stop now a]> m)
  | None => Fatal ("timer " ++ name ++ " not found")
  end.

(** Every agent is held under its name. *)
Definition names_ok (m : gmap string (TimerAgent D)) : Prop :=
  forall k a, m !! k = Some a -> _name a = k.

(** The members of an agent other than its links. *)
Definition scalars (a : TimerAgent D) : string * Z * D * D * D * D * D * Z :=
  (_name a, _count a, _t0 a, _t1 a, _timeAcc a, _timeMax a, _timeMin a,
   _memsize a).

(** [b'] is [b] with possibly more children and another parent. *)
Definition same_but_links (b b' : TimerAgent D) : Prop :=
  scalars b' = scalars b /\ _children b ⊆ _children b'.

(** Every agent of [m] is in [m'], with possibly more children and another
    parent. *)
Definition keeps (m m' : gmap string (TimerAgent D)) : Prop :=
  forall k b, m !! k = Some b ->
    exists b', m' !! k = Some b' /\ same_but_links b b'.
End Agents.

End Profiler.

Module ProfilerExamples.
Import Profiler.

(** Timers over integer clock readings, with the usual initial values. *)
Definition create3 (child daddy : string) (m : gmap string (TimerAgent Z))
  : option (gmap string (TimerAgent Z)) :=
  Profiler.create 0 0 0 None true 3 child daddy m.

(** A profiler with the timers "copy", under "solve", and "setup". *)
Definition timers : gmap string (TimerAgent Z) :=
  match create3 "copy" "solve" (Profiler_new 0 0 0 None true) with
  | Some m => match create3 "setup" "root" m with Some m => m | None => ∅ end
  | None => ∅
  end.

End ProfilerExamples.

(** * Part II: statements and proofs *)

(** ** Loops *)

Lemma zrange_nil (lo hi : Z) : hi <= lo -> zrange lo hi = [].
Proof.
  intros H. unfold zrange.
  replace (Z.to_nat (hi - lo)) with 0%nat by lia. reflexivity.
Qed.

Lemma zrange_cons (lo hi : Z) :
  lo < hi -> zrange lo hi = lo :: zrange (lo + 1) hi.
Proof.
  intros H. unfold zrange.
  replace (Z.to_nat (hi - lo)) with (S (Z.to_nat (hi - (lo + 1)))) by lia.
  cbn [seq List.map]. f_equal; [lia|].
  rewrite <- seq_shift, List.map_map.
  apply List.map_ext. intros k. lia.
Qed.

Lemma in_zrange (i lo hi : Z) : In i (zrange lo hi) <-> lo <= i < hi.
Proof.
  unfold zrange. rewrite in_map_iff. split.
  - intros (k & <- & Hk). apply in_seq in Hk. lia.
  - intros H. exists (Z.to_nat (i - lo)). split; [lia|].
    apply in_seq. lia.
Qed.

Lemma for_each_nil {I S : Type} (body : I -> S -> S) (s : S) :
  for_each [] body s = s.
Proof. reflexivity. Qed.

Lemma for_each_cons {I S : Type} (i : I) (l : list I) (body : I -> S -> S)
  (s : S) :
  for_each (i :: l) body s = for_each l body (body i s).
Proof. reflexivity. Qed.

Lemma for_each_app {I S : Type} (l1 l2 : list I) (body : I -> S -> S) (s : S) :
  for_each (l1 ++ l2) body s = for_each l2 body (for_each l1 body s).
Proof. unfold for_each. apply fold_left_app. Qed.

Lemma for_each_ext {I S : Type} (l : list I) (body body' : I -> S -> S)
  (s : S) :
  (forall i s, body i s = body' i s) ->
  for_each l body s = for_each l body' s.
Proof.
  intros H. revert s. induction l as [|i l IH]; intros s; [reflexivity|].
  rewrite !for_each_cons, H. apply IH.
Qed.

(** An invariant of the state is kept by a loop when every iteration keeps
    it. *)
Lemma for_each_ind {I S : Type} (P : S -> Prop) (l : list I)
  (body : I -> S -> S) (s : S) :
  P s ->
  (forall i s, In i l -> P s -> P (body i s)) ->
  P (for_each l body s).
Proof.
  revert s. induction l as [|i l IH]; intros s Hs Hbody; [exact Hs|].
  rewrite for_each_cons. apply IH.
  - apply Hbody; [left; reflexivity | exact Hs].
  - intros j s' Hj. apply Hbody. right; exact Hj.
Qed.

(** The same with an invariant that follows the loop counter. *)
Lemma for_range_ind {S : Type} (P : Z -> S -> Prop) (lo hi : Z)
  (body : Z -> S -> S) (s : S) :
  lo <= hi ->
  P lo s ->
  (forall i s, lo <= i < hi -> P i s -> P (i + 1) (body i s)) ->
  P hi (for_range lo hi body s).
Proof.
  intros Hle. unfold for_range.
  remember (Z.to_nat (hi - lo)) as n eqn:Hn.
  revert lo s Hle Hn. induction n as [|n IH]; intros lo s Hle Hn Hs Hbody.
  - assert (hi = lo) as -> by lia.
    rewrite zrange_nil by lia. exact Hs.
  - rewrite zrange_cons by lia. rewrite for_each_cons.
    apply IH; [lia | lia | |].
    + apply Hbody; [lia | exact Hs].
    + intros i s' Hi. apply Hbody. lia.
Qed.

Lemma for_range_empty {S : Type} (lo hi : Z) (body : Z -> S -> S) (s : S) :
  hi <= lo -> for_range lo hi body s = s.
Proof. intros H. unfold for_range. rewrite zrange_nil by exact H. reflexivity. Qed.

Lemma write_eq {D : Type} (b : buffer D) (i : Z) (v : D) : write b i v i = v.
Proof. unfold write. rewrite Z.eqb_refl. reflexivity. Qed.

Lemma write_neq {D : Type} (b : buffer D) (i j : Z) (v : D) :
  j <> i -> write b i v j = b j.
Proof. unfold write. intros H. destruct (Z.eqb_spec j i); [lia | reflexivity]. Qed.

(** ** What loops write *)

Section WritesFacts.
Context {D : Type}.

Lemma writes_id (W : Z -> D -> Prop) :
  (forall p x, ~ W p x) -> writes (fun d : buffer D => d) W.
Proof. intros H d p. right. split; [apply H | reflexivity]. Qed.

Lemma writes_write (q : Z) (x : D) :
  writes (fun d => write d q x) (fun p y => p = q /\ y = x).
Proof.
  intros d p. destruct (Z.eq_dec p q) as [->|Hne].
  - left. exists x. rewrite write_eq. auto.
  - right. rewrite write_neq by exact Hne. split; [|reflexivity].
    intros y [Hp _]. contradiction.
Qed.

Lemma writes_weaken (T : buffer D -> buffer D) (W W' : Z -> D -> Prop) :
  (forall p x, W p x <-> W' p x) -> writes T W -> writes T W'.
Proof.
  intros Hiff HT d p. destruct (HT d p) as [(x & Hx & E)|[Hno E]].
  - left. exists x. split; [apply Hiff; exact Hx | exact E].
  - right. split; [|exact E]. intros x Hx. apply (Hno x), Hiff, Hx.
Qed.

Lemma writes_comp (T1 T2 : buffer D -> buffer D) (W1 W2 : Z -> D -> Prop) :
  writes T1 W1 -> writes T2 W2 ->
  writes (fun d => T2 (T1 d)) (fun p x => W1 p x \/ W2 p x).
Proof.
  intros H1 H2 d p. destruct (H2 (T1 d) p) as [(x & Hx & E)|[Hno2 E2]].
  - left. exists x. auto.
  - destruct (H1 d p) as [(x & Hx & E)|[Hno1 E1]].
    + left. exists x. split; [left; exact Hx | congruence].
    + right. split; [|congruence].
      intros x [Hx|Hx]; [apply (Hno1 x Hx) | apply (Hno2 x Hx)].
Qed.

Lemma writes_for_each {I : Type} (l : list I) (body : I -> buffer D -> buffer D)
  (W : I -> Z -> D -> Prop) :
  (forall i, In i l -> writes (body i) (W i)) ->
  writes (for_each l body) (fun p x => exists i, In i l /\ W i p x).
Proof.
  induction l as [|i l IH]; intros Hbody.
  - intros d p. right. split; [|reflexivity]. intros x (i & [] & _).
  - intros d p. rewrite for_each_cons.
    destruct (IH (fun j Hj => Hbody j (or_intror Hj)) (body i d) p)
      as [(x & (j & Hj & Hx) & E)|[Hno E]].
    + left. exists x. split; [|exact E]. exists j. split; [right; exact Hj | exact Hx].
    + destruct (Hbody i (or_introl eq_refl) d p) as [(x & Hx & E')|[Hno' E']].
      * left. exists x. split; [|congruence].
        exists i. split; [left; reflexivity | exact Hx].
      * right. split; [|congruence].
        intros x (j & [<-|Hj] & Hx); [apply (Hno' x Hx)|].
        apply (Hno x). exists j. auto.
Qed.

Lemma writes_for_range (lo hi : Z) (body : Z -> buffer D -> buffer D)
  (W : Z -> Z -> D -> Prop) :
  (forall i, lo <= i < hi -> writes (body i) (W i)) ->
  writes (for_range lo hi body) (fun p x => exists i, lo <= i < hi /\ W i p x).
Proof.
  intros Hbody. unfold for_range.
  apply (writes_weaken _ (fun p x => exists i, In i (zrange lo hi) /\ W i p x)).
  - intros p x. split; intros (i & Hi & Hx); exists i;
      (split; [apply in_zrange; exact Hi | exact Hx]).
  - apply writes_for_each. intros i Hi. apply Hbody, in_zrange, Hi.
Qed.

(** When what is written at a place is determined, the place holds it. *)
Lemma writes_hit (T : buffer D -> buffer D) (W : Z -> D -> Prop) (d : buffer D)
  (p : Z) (x : D) :
  writes T W -> W p x -> (forall y, W p y -> y = x) -> T d p = x.
Proof.
  intros HT Hx Hfun. destruct (HT d p) as [(y & Hy & E)|[Hno _]].
  - rewrite E. apply Hfun, Hy.
  - destruct (Hno x Hx).
Qed.

Lemma writes_miss (T : buffer D -> buffer D) (W : Z -> D -> Prop) (d : buffer D)
  (p : Z) :
  writes T W -> (forall x, ~ W p x) -> T d p = d p.
Proof.
  intros HT Hno. destruct (HT d p) as [(y & Hy & _)|[_ E]]; [|exact E].
  destruct (Hno y Hy).
Qed.

(** A copy of [n] consecutive scalars. *)
Lemma copy_range (n base sbase : Z) (src d : buffer D) (p : Z) :
  for_range 0 n (fun k d => write d (base + k) (src (sbase + k))) d p
  = if (base <=? p) && (p <? base + n) then src (sbase + (p - base)) else d p.
Proof.
  destruct (Z.le_gt_cases n 0) as [Hle|Hgt].
  - rewrite for_range_empty by exact Hle.
    destruct (Z.leb_spec base p); destruct (Z.ltb_spec p (base + n));
      cbn; first [reflexivity | lia].
  - revert p.
    apply (for_range_ind
             (fun i (s : buffer D) =>
                forall p, s p = if (base <=? p) && (p <? base + i)
                                then src (sbase + (p - base)) else d p)).
    + lia.
    + intros p.
      destruct (Z.leb_spec base p); destruct (Z.ltb_spec p (base + 0));
        cbn; first [reflexivity | lia].
    + intros i s Hi IH p. unfold write.
      destruct (Z.eqb_spec p (base + i)) as [->|Hne].
      * destruct (Z.leb_spec base (base + i));
          destruct (Z.ltb_spec (base + i) (base + (i + 1)));
          cbn; try lia. f_equal. lia.
      * rewrite IH.
        destruct (Z.leb_spec base p); destruct (Z.ltb_spec p (base + i));
          destruct (Z.ltb_spec p (base + (i + 1)));
          cbn; first [reflexivity | lia].
Qed.
End WritesFacts.

(** ** Mixed radix *)

Lemma radix_unique (n q a q' a' : Z) :
  0 <= a < n -> 0 <= a' < n -> q * n + a = q' * n + a' -> q = q' /\ a = a'.
Proof.
  intros Ha Ha' E.
  assert (q = q') by nia. subst q'. split; [reflexivity | lia].
Qed.

Lemma radix_bound (n m q a : Z) :
  0 <= a < n -> 0 <= q < m -> 0 <= q * n + a < m * n.
Proof. intros Ha Hq. nia. Qed.

Lemma quot_rem_digits (id n : Z) :
  0 <= id -> 0 < n ->
  id = Z.quot id n * n + Z.rem id n /\ 0 <= Z.rem id n < n /\ 0 <= Z.quot id n.
Proof.
  intros Hid Hn.
  rewrite Z.quot_div_nonneg, Z.rem_mod_nonneg by lia.
  pose proof (Z.div_mod id n ltac:(lia)).
  pose proof (Z.mod_pos_bound id n Hn).
  pose proof (Z.div_pos id n Hid Hn).
  repeat split; lia.
Qed.

(** ** Solver.cpp: the derivative boundary conditions *)

Module SolverFacts.
Import Solver.

Lemma diffbc_entry_cases (b : BoundaryType) :
  diffbc_entry b =
    match b with
    | EVEN => ODD
    | ODD => EVEN
    | PER => PER
    | UNB => UNB
    end.
Proof. destruct b; reflexivity. Qed.

Lemma diffbc_side_lookup (_lda lia : nat) (rhs : list BoundaryType)
  (b : BoundaryType) :
  (lia < _lda)%nat -> rhs !! lia = Some b ->
  diffbc_side _lda rhs !! lia = Some (diffbc_entry b).
Proof.
  intros Hlt Hb. unfold diffbc_side.
  change (List.map diffbc_entry (firstn _lda rhs))
    with (diffbc_entry <$> take _lda rhs).
  rewrite list_lookup_fmap, lookup_take_lt by exact Hlt.
  rewrite Hb. reflexivity.
Qed.

(** C8.  When the solver is built with a non-zero differentiation order, the
    boundary condition of the derivative, for every direction, side and
    component, is ODD where the one of the right-hand side is EVEN, EVEN where
    it is ODD, and the same where it is PER (periodic) or UNB (unbounded); and
    each backward-with-derivative plan is built with the derivative boundary
    conditions of the direction of the backward plan of the same rank. *)
Theorem diffbc_toggles_even_odd (_odiff : Z) (_lda : nat) (rhsbc : bc_array)
  (_plan_backward : arr3 FFTW_plan_dim) (id side lia : nat)
  (b : BoundaryType) :
  _odiff <> 0 ->
  (lia < _lda)%nat ->
  rhsbc id side !! lia = Some b ->
  exists diffbc plans,
    init_diffbc _odiff _lda rhsbc = Some diffbc
    /\ diffbc id side !! lia =
         Some match b with
              | EVEN => ODD
              | ODD => EVEN
              | PER => PER
              | UNB => UNB
              end
    /\ init_plan_backward_diff _odiff _lda rhsbc _plan_backward = Some plans
    /\ forall ip : nat,
         dimID (get3 plans ip) = dimID (get3 _plan_backward ip)
         /\ plan_bc (get3 plans ip) = diffbc (dimID (get3 _plan_backward ip))
         /\ plan_sign (get3 plans ip) = FLUPS_BACKWARD.
Proof.
  intros Hodiff Hlia Hb.
  unfold init_plan_backward_diff, init_diffbc.
  destruct (Z.eqb_spec _odiff 0) as [E|_]; [contradiction|].
  eexists _, _. split; [reflexivity|]. split; [|split; [reflexivity|]].
  - rewrite <- diffbc_entry_cases. apply diffbc_side_lookup; assumption.
  - intros ip. destruct _plan_backward as [[p0 p1] p2].
    destruct ip as [|[|ip]]; cbn; auto.
Qed.

Lemma diffbc_toggles_even_odd_witness :
  exists diffbc plans,
    init_diffbc 1 3 (fun _ _ => [EVEN; ODD; UNB]) = Some diffbc
    /\ diffbc 2%nat 1%nat !! 0%nat = Some ODD
    /\ init_plan_backward_diff 1 3 (fun _ _ => [EVEN; ODD; UNB])
         (new_FFTW_plan_dim 3 2 (fun _ => [EVEN; ODD; UNB]) FLUPS_BACKWARD false,
          new_FFTW_plan_dim 3 0 (fun _ => [EVEN; ODD; UNB]) FLUPS_BACKWARD false,
          new_FFTW_plan_dim 3 1 (fun _ => [EVEN; ODD; UNB]) FLUPS_BACKWARD false)
       = Some plans
    /\ forall ip : nat,
         dimID (get3 plans ip)
         = dimID (get3
             (new_FFTW_plan_dim 3 2 (fun _ => [EVEN; ODD; UNB]) FLUPS_BACKWARD false,
              new_FFTW_plan_dim 3 0 (fun _ => [EVEN; ODD; UNB]) FLUPS_BACKWARD false,
              new_FFTW_plan_dim 3 1 (fun _ => [EVEN; ODD; UNB]) FLUPS_BACKWARD false)
             ip)
         /\ plan_bc (get3 plans ip)
            = diffbc (dimID (get3
                (new_FFTW_plan_dim 3 2 (fun _ => [EVEN; ODD; UNB]) FLUPS_BACKWARD false,
                 new_FFTW_plan_dim 3 0 (fun _ => [EVEN; ODD; UNB]) FLUPS_BACKWARD false,
                 new_FFTW_plan_dim 3 1 (fun _ => [EVEN; ODD; UNB]) FLUPS_BACKWARD false)
                ip))
         /\ plan_sign (get3 plans ip) = FLUPS_BACKWARD.
Proof.
  apply (diffbc_toggles_even_odd 1 3 (fun _ _ => [EVEN; ODD; UNB]) _
           2%nat 1%nat 0%nat EVEN); [lia | lia | reflexivity].
Defined.

(** ** Solver.cpp: the order of the plans *)

Section SortPlansFacts.
Context {Plan : Type}.
Variable type : Plan -> Z.

(** The first loop finds the first position that holds the lowest
    priority. *)
Lemma scan_min_first (a b c : Z) :
  Z.min a (Z.min b c) < INT_MAX ->
  fst (scan_min (a, b, c)) =
    Some (if (a <=? b) && (a <=? c) then 0%nat
          else if b <=? c then 1%nat else 2%nat).
Proof.
  intros Hmin. unfold scan_min, for_each, scan_step, INT_MAX in *.
  cbn [fold_left get3 snd fst].
  repeat match goal with
         | |- context [?x <? ?y] =>
             lazymatch y with
             | context [if _ then _ else _] => fail
             | _ => destruct (Z.ltb_spec x y); cbn [snd fst]
             end
         end;
    destruct (Z.leb_spec a b); destruct (Z.leb_spec a c);
    destruct (Z.leb_spec b c); cbn [andb];
    first [reflexivity | lia].
Qed.

(** The reordering returns, and returns the plans in ascending order. *)
Lemma sort_plans_body_sorted (p0 p1 p2 : Plan) :
  Z.min (type p0) (Z.min (type p1) (type p2)) < INT_MAX ->
  exists q : arr3 Plan,
    sort_plans_body type (p0, p1, p2) = Some q
    /\ type (get3 q 0) <= type (get3 q 1) <= type (get3 q 2)
    /\ Permutation [p0; p1; p2] [get3 q 0; get3 q 1; get3 q 2]
    /\ (type p0 <= type p1 -> type p0 <= type p2 -> get3 q 0 = p0).
Proof.
  intros Hmin. unfold sort_plans_body.
  cbn [map3]. rewrite scan_min_first by exact Hmin.
  destruct (Z.leb_spec (type p0) (type p1)) as [H01|H01];
    destruct (Z.leb_spec (type p0) (type p2)) as [H02|H02];
    cbn [andb]; try destruct (Z.leb_spec (type p1) (type p2)) as [H12|H12];
    cbn; unfold order_12; cbn;
    repeat match goal with
           | |- context [?x >? ?y] =>
               rewrite (Z.gtb_ltb x y); destruct (Z.ltb_spec y x); cbn
           end;
    eexists; (split; [reflexivity|]); cbn;
    (split; [lia|]); (split; [|intros; first [reflexivity | lia]]).
  all: first
         [ reflexivity
         | apply perm_skip, perm_swap
         | apply perm_swap
         | etrans; [apply perm_swap|]; apply perm_skip, perm_swap
         | etrans; [apply perm_skip, perm_swap|]; apply perm_swap
         | etrans; [apply perm_skip, perm_swap|];
           etrans; [apply perm_swap|]; apply perm_skip, perm_swap ].
Qed.

(** C2.  Whatever the order of the three plans on entry, provided one of
    them has a priority below INT_MAX (they are values of an enumeration),
    [_sort_plans] returns, passes its final check, and leaves the same three
    plans with priorities in ascending order; a plan of direction 0 that
    already has the lowest priority, ties included, stays in position 0. *)
Theorem sort_plans_ascending (p0 p1 p2 : Plan) :
  Z.min (type p0) (Z.min (type p1) (type p2)) < INT_MAX ->
  exists q : arr3 Plan,
    _sort_plans type (p0, p1, p2) = Some (Done q)
    /\ type (get3 q 0) <= type (get3 q 1) <= type (get3 q 2)
    /\ Permutation [p0; p1; p2] [get3 q 0; get3 q 1; get3 q 2]
    /\ (type p0 <= type p1 -> type p0 <= type p2 -> get3 q 0 = p0).
Proof.
  intros Hmin.
  destruct (sort_plans_body_sorted p0 p1 p2 Hmin) as (q & Hq & Hs & Hp & H0).
  exists q. unfold _sort_plans. rewrite Hq.
  split; [|auto].
  unfold FLUPS_CHECK.
  destruct (Z.leb_spec (type (get3 q 0)) (type (get3 q 1))); [|lia].
  destruct (Z.leb_spec (type (get3 q 1)) (type (get3 q 2))); [|lia].
  reflexivity.
Qed.
End SortPlansFacts.

Lemma sort_plans_ascending_witness :
  exists q : arr3 (nat * Z),
    _sort_plans snd ((0%nat, 6), (1%nat, 2), (2%nat, 2)) = Some (Done q)
    /\ snd (get3 q 0) <= snd (get3 q 1) <= snd (get3 q 2)
    /\ Permutation [(0%nat, 6); (1%nat, 2); (2%nat, 2)]
         [get3 q 0; get3 q 1; get3 q 2]
    /\ (snd (0%nat, 6) <= snd (1%nat, 2) -> snd (0%nat, 6) <= snd (2%nat, 2) ->
        get3 q 0 = (0%nat, 6)).
Proof.
  apply (sort_plans_ascending snd (0%nat, 6) (1%nat, 2) (2%nat, 2)).
  vm_compute. reflexivity.
Defined.

(** ** Solver.cpp: the rotational mode without differentiation order *)

(** With [orderDiff = 0] the constructor and [setup] go through: the run that
    asks for the rotational mode aborts in [solve]. *)
Lemma rot_without_odiff_not_fatal_before_solve :
  abort_phase 1 0 false false false ROT <> Some AtConstruct
  /\ abort_phase 1 0 false false false ROT <> Some AtSetup
  /\ abort_phase 1 0 false false false ROT = Some AtSolve.
Proof. repeat split; discriminate. Qed.

(** C10, as the code has it.  The solve mode is an argument of [solve] only.
    Asking for the rotational mode from a solver built with [orderDiff = 0]
    aborts at the first check of [solve], whatever the other arguments;
    the standard mode, and the rotational mode with a non-zero order, pass
    that check. *)
Theorem rot_without_odiff_fatal_at_solve (topo_lda : nat)
  (changeTopoComm field_is_null rhs_is_null : bool) (orderDiff : Z) :
  abort_phase topo_lda 0 changeTopoComm field_is_null rhs_is_null ROT
  = Some AtSolve
  /\ solve (setup (Solver_new topo_lda 0) changeTopoComm)
       field_is_null rhs_is_null ROT
     = Fatal "If calling the ROT solver, you need to initialize it with orderDiff = 1 or orderDiff = 2"
  /\ solve (setup (Solver_new topo_lda orderDiff) changeTopoComm)
       false false STD = Done tt
  /\ solve (setup (Solver_new topo_lda (if orderDiff =? 0 then 1 else orderDiff))
              changeTopoComm) false false ROT = Done tt.
Proof.
  repeat split.
  unfold solve, setup, Solver_new, FLUPS_CHECK. cbn.
  destruct (Z.eqb_spec orderDiff 0) as [->|H]; [reflexivity|].
  destruct (Z.eqb_spec orderDiff 0); [contradiction | reflexivity].
Qed.

(** ** Solver.cpp: scaling the Green's function *)

Section ScaleGreenFacts.
Context {D : Type}.
Variable dmul : D -> D -> D.
Variable dzero : D.
Variable done : D.
Variable collapsedIndex : nat -> Z -> Z -> arr3 Z -> Z -> Z.
Variable FLUPS_ALIGNMENT : Z.

(** One row: the elements [base .. base + inmax - 1] are scaled once. *)
Lemma scale_row (base inmax : Z) (volfact : D) (d : buffer D) (p : Z) :
  for_range 0 inmax
    (fun ii data => write data (base + ii) (dmul (data (base + ii)) volfact))
    d p
  = if (base <=? p) && (p <? base + inmax) then dmul (d p) volfact else d p.
Proof.
  destruct (Z.le_gt_cases inmax 0) as [Hle|Hgt].
  - rewrite for_range_empty by exact Hle.
    destruct (Z.leb_spec base p); destruct (Z.ltb_spec p (base + inmax));
      cbn; first [reflexivity | lia].
  - revert p.
    apply (for_range_ind
             (fun i (s : buffer D) =>
                forall p, s p = if (base <=? p) && (p <? base + i)
                                then dmul (d p) volfact else d p)).
    + lia.
    + intros p.
      destruct (Z.leb_spec base p); destruct (Z.ltb_spec p (base + 0));
        cbn; first [reflexivity | lia].
    + intros i s Hi IH p. unfold write.
      destruct (Z.eqb_spec p (base + i)) as [->|Hne].
      * rewrite IH.
        destruct (Z.leb_spec base (base + i));
          destruct (Z.ltb_spec (base + i) (base + i));
          destruct (Z.ltb_spec (base + i) (base + (i + 1)));
          cbn; first [reflexivity | lia].
      * rewrite IH.
        destruct (Z.leb_spec base p); destruct (Z.ltb_spec p (base + i));
          destruct (Z.ltb_spec p (base + (i + 1)));
          cbn; first [reflexivity | lia].
Qed.

(** Zeroing mode zero: the [nf] first elements. *)
Lemma kill_mode_zero (nf : Z) (d : buffer D) (p : Z) :
  for_range 0 nf (fun i0 data => write data i0 dzero) d p
  = if (0 <=? p) && (p <? nf) then dzero else d p.
Proof.
  destruct (Z.le_gt_cases nf 0) as [Hle|Hgt].
  - rewrite for_range_empty by exact Hle.
    destruct (Z.leb_spec 0 p); destruct (Z.ltb_spec p nf);
      cbn; first [reflexivity | lia].
  - revert p.
    apply (for_range_ind
             (fun i (s : buffer D) =>
                forall p, s p = if (0 <=? p) && (p <? i) then dzero else d p)).
    + lia.
    + intros p.
      destruct (Z.leb_spec 0 p); destruct (Z.ltb_spec p 0);
        cbn; first [reflexivity | lia].
    + intros i s Hi IH p. unfold write.
      destruct (Z.eqb_spec p i) as [->|Hne].
      * destruct (Z.leb_spec 0 i); destruct (Z.ltb_spec i (i + 1));
          cbn; first [reflexivity | lia].
      * rewrite IH.
        destruct (Z.leb_spec 0 p); destruct (Z.ltb_spec p i);
          destruct (Z.ltb_spec p (i + 1)); cbn; first [reflexivity | lia].
Qed.

(** The whole loop, for rows that do not overlap. *)
Lemma scale_loop_spec (ax0 : nat) (nf : Z) (nmem : arr3 Z) (onmax inmax : Z)
  (volfact : D) (data : buffer D) :
  (forall io io' ii ii',
      0 <= io < onmax -> 0 <= io' < onmax ->
      0 <= ii < inmax -> 0 <= ii' < inmax ->
      collapsedIndex ax0 0 io nmem nf + ii
      = collapsedIndex ax0 0 io' nmem nf + ii' ->
      io = io') ->
  let data' := scale_loop dmul collapsedIndex ax0 nf nmem onmax inmax volfact
                 data in
  (forall io ii, 0 <= io < onmax -> 0 <= ii < inmax ->
     data' (collapsedIndex ax0 0 io nmem nf + ii)
     = dmul (data (collapsedIndex ax0 0 io nmem nf + ii)) volfact)
  /\ (forall p,
        (forall io ii, 0 <= io < onmax -> 0 <= ii < inmax ->
           p <> collapsedIndex ax0 0 io nmem nf + ii) ->
        data' p = data p).
Proof.
  intros Hrows. cbv zeta. unfold scale_loop.
  set (row := fun io => collapsedIndex ax0 0 io nmem nf) in *.
  destruct (Z.le_gt_cases onmax 0) as [Hle|Hgt].
  { rewrite for_range_empty by exact Hle. split; [intros; lia | reflexivity]. }
  pose (Inv := fun (n : Z) (s : buffer D) =>
    (forall io ii, 0 <= io < n -> 0 <= ii < inmax ->
       s (row io + ii) = dmul (data (row io + ii)) volfact)
    /\ (forall p,
          (forall io ii, 0 <= io < n -> 0 <= ii < inmax -> p <> row io + ii) ->
          s p = data p)).
  enough (Inv onmax
            (for_range 0 onmax
               (fun io data0 =>
                  for_range 0 inmax
                    (fun ii data1 =>
                       write data1 (row io + ii)
                         (dmul (data1 (row io + ii)) volfact))
                    data0)
               data)) as H by exact H.
  apply for_range_ind; [lia | split; [intros; lia | reflexivity] |].
  intros i s Hi [IHin IHout]. split.
  - intros io ii Hio Hii. rewrite scale_row.
    destruct (Z.eq_dec io i) as [->|Hne].
    + destruct (Z.leb_spec (row i) (row i + ii));
        destruct (Z.ltb_spec (row i + ii) (row i + inmax)); cbn; try lia.
      f_equal. apply IHout. intros io' ii' Hio' Hii' Heq.
      assert (i = io')
        by (apply (Hrows i io' ii ii'); unfold row in *; first [lia | exact Heq]).
      lia.
    + destruct (Z.leb_spec (row i) (row io + ii));
        destruct (Z.ltb_spec (row io + ii) (row i + inmax)); cbn;
        try (apply IHin; lia).
      exfalso. apply Hne.
      apply (Hrows io i ii (row io + ii - row i)); unfold row in *; lia.
  - intros p Hp. rewrite scale_row.
    destruct (Z.leb_spec (row i) p);
      destruct (Z.ltb_spec p (row i + inmax)); cbn;
      try (apply IHout; intros; apply Hp; lia).
    exfalso. apply (Hp i (p - row i)); lia.
Qed.

(** C7.  When the alignment check passes and the rows of the local pencil do
    not overlap, [_scaleGreenFunction] returns a buffer in which every
    element of the local extent is the former one times the volume factor,
    and everything else is left as it was; the only exception are the [nf]
    scalars of mode zero, which are set to zero when [killModeZero] is
    requested and the process starts at global index (0,0,0), and only
    then.  [_cmptGreenFunction] calls it with [killModeZero = false], and the
    volume factor is the product of the volume factors of the three forward
    plans. *)
Theorem scaleGreen_scales_and_keeps_mode_zero (volfact : D)
  (topo : Topology.Topology) (istart : arr3 Z) (data : buffer D)
  (killModeZero : bool) (plan_volfact : arr3 D) (_ndim : nat)
  (topos : arr3 Topology.Topology) (aligned : bool) :
  let ax0 := Topology._axis topo in
  let nf := Topology._nf topo in
  let nmem := Topology._nmem topo in
  let onmax := get3 (Topology._nloc topo) ((ax0 + 1) mod 3)%nat
               * get3 (Topology._nloc topo) ((ax0 + 2) mod 3)%nat in
  let inmax := get3 (Topology._nloc topo) ax0 * nf in
  let row := fun io => collapsedIndex ax0 0 io nmem nf in
  let zeroed := killModeZero && (get3 istart 0 =? 0) && (get3 istart 1 =? 0)
                && (get3 istart 2 =? 0) in
  (get3 nmem ax0 * nf * sizeof_double) mod FLUPS_ALIGNMENT = 0 ->
  (forall io io' ii ii',
      0 <= io < onmax -> 0 <= io' < onmax ->
      0 <= ii < inmax -> 0 <= ii' < inmax ->
      row io + ii = row io' + ii' -> io = io') ->
  exists data',
    _scaleGreenFunction dmul dzero collapsedIndex FLUPS_ALIGNMENT volfact topo
      istart true data killModeZero = Done data'
    /\ (forall io ii, 0 <= io < onmax -> 0 <= ii < inmax ->
          data' (row io + ii)
          = if zeroed && (0 <=? row io + ii) && (row io + ii <? nf)
            then dzero
            else dmul (data (row io + ii)) volfact)
    /\ (forall p,
          (forall io ii, 0 <= io < onmax -> 0 <= ii < inmax ->
             p <> row io + ii) ->
          data' p = if zeroed && (0 <=? p) && (p <? nf) then dzero else data p)
    /\ _cmptGreenFunction_scale dmul dzero collapsedIndex FLUPS_ALIGNMENT
         volfact _ndim topos istart aligned data
       = _scaleGreenFunction dmul dzero collapsedIndex FLUPS_ALIGNMENT volfact
           (get3 topos (_ndim - 1)) istart aligned data false
    /\ init_volfact dmul done plan_volfact
       = dmul (dmul (dmul done (get3 plan_volfact 0)) (get3 plan_volfact 1))
           (get3 plan_volfact 2).
Proof.
  intros ax0 nf nmem onmax inmax row zeroed Hal Hrows.
  destruct (scale_loop_spec ax0 nf nmem onmax inmax volfact data Hrows)
    as [Hin Hout].
  unfold _scaleGreenFunction, FLUPS_CHECK.
  fold ax0 nf nmem onmax inmax.
  destruct (Z.eqb_spec ((get3 nmem ax0 * nf * sizeof_double) mod FLUPS_ALIGNMENT) 0)
    as [_|Hne]; [|contradiction].
  cbn [andb].
  eexists. split; [reflexivity|].
  split; [|split; [|split; reflexivity]].
  - intros io ii Hio Hii. subst zeroed.
    destruct killModeZero; cbn [andb]; [|apply Hin; assumption].
    destruct ((get3 istart 0 =? 0) && (get3 istart 1 =? 0)
              && (get3 istart 2 =? 0)) eqn:E; cbn [andb].
    + rewrite kill_mode_zero.
      destruct ((0 <=? row io + ii) && (row io + ii <? nf));
        [reflexivity | apply Hin; assumption].
    + apply Hin; assumption.
  - intros p Hp. subst zeroed.
    destruct killModeZero; cbn [andb]; [|apply Hout; assumption].
    destruct ((get3 istart 0 =? 0) && (get3 istart 1 =? 0)
              && (get3 istart 2 =? 0)) eqn:E; cbn [andb].
    + rewrite kill_mode_zero.
      destruct ((0 <=? p) && (p <? nf)); [reflexivity | apply Hout; assumption].
    + apply Hout; assumption.
Qed.
End ScaleGreenFacts.

End SolverFacts.

Lemma scaleGreen_scales_and_keeps_mode_zero_witness :
  exists data',
    Solver._scaleGreenFunction Z.mul 0 Examples.collapsedIndex 16 30
      Examples.green_topo (0, 0, 0) true (fun p => p + 1) true = Done data'
    /\ data' 0 = 0 /\ data' 1 = 60 /\ data' 3 = 120 /\ data' 4 = 5.
Proof.
  destruct (SolverFacts.scaleGreen_scales_and_keeps_mode_zero
              Z.mul 0 1 Examples.collapsedIndex 16 30 Examples.green_topo
              (0, 0, 0) (fun p => p + 1) true (2, 3, 5) 3
              (Examples.green_topo, Examples.green_topo, Examples.green_topo)
              true)
    as (data' & Hrun & Hin & Hout & _).
  - reflexivity.
  - cbn. unfold Examples.collapsedIndex. cbn. intros. lia.
  - exists data'. split; [exact Hrun|].
    split; [exact (Hin 0 0 ltac:(cbn; lia) ltac:(cbn; lia))|].
    split; [exact (Hin 0 1 ltac:(cbn; lia) ltac:(cbn; lia))|].
    split; [exact (Hin 1 1 ltac:(cbn; lia) ltac:(cbn; lia))|].
    apply (Hout 4). cbn. unfold Examples.collapsedIndex. cbn. intros. lia.
Defined.

(** ** Topology.cpp: padding of the fast axis *)

Module TopologyFacts.
Import Topology.

Lemma to_int_small (x : Z) : - 2 ^ 31 <= x < 2 ^ 31 -> to_int x = x.
Proof.
  intros H. unfold to_int.
  rewrite Z.mod_small by lia. lia.
Qed.

Lemma to_size_t_small (x : Z) : 0 <= x < 2 ^ 64 -> to_size_t x = x.
Proof. intros H. unfold to_size_t. apply Z.mod_small. exact H. Qed.

(** The padded extent of the fast axis, without the conversions. *)
Lemma cmpt_sizes_dim_axis (t : Topology) (cmpt_nbyproc : nat -> Z) (m : Z) :
  let nloc := cmpt_nbyproc (_axis t) in
  0 < _nf t -> 0 < m ->
  _alignment t = _nf t * sizeof_double * m ->
  0 <= nloc ->
  nloc * _nf t + _alignment t <= INT_MAX ->
  cmpt_sizes_dim t cmpt_nbyproc (_axis t)
  = (nloc, if nloc mod m =? 0 then nloc else nloc + (m - nloc mod m)).
Proof.
  intros nloc Hnf Hm Hal Hnloc Hmax.
  unfold cmpt_sizes_dim. rewrite Nat.eqb_refl. fold nloc.
  unfold INT_MAX, sizeof_double in *.
  assert (Hnm : 0 <= nloc * _nf t) by nia.
  assert (Hr : 0 <= nloc mod m < m) by (apply Z.mod_pos_bound; lia).
  assert (Hmod : (nloc * _nf t * 8) mod _alignment t = _nf t * 8 * (nloc mod m)).
  { rewrite Hal.
    replace (nloc * _nf t * 8) with (_nf t * 8 * nloc) by lia.
    rewrite Z.mul_mod_distr_l by lia. reflexivity. }
  rewrite (to_int_small (nloc * _nf t)) by lia.
  rewrite (to_size_t_small (nloc * _nf t)) by lia.
  rewrite (to_size_t_small (nloc * _nf t * 8)) by lia.
  rewrite (to_size_t_small (_alignment t)) by nia.
  rewrite Hmod.
  assert (Hlt : _nf t * 8 * (nloc mod m) < _alignment t) by nia.
  rewrite (to_int_small (_nf t * 8 * (nloc mod m))) by nia.
  rewrite (to_int_small (_alignment t - _ )) by nia.
  rewrite (to_size_t_small (_alignment t - _)) by nia.
  assert (Hdelta : (_alignment t - _nf t * 8 * (nloc mod m)) / 8
                   = _nf t * (m - nloc mod m)).
  { rewrite Hal.
    replace (_nf t * 8 * m - _nf t * 8 * (nloc mod m))
      with (_nf t * (m - nloc mod m) * 8) by lia.
    apply Z.div_mul. lia. }
  rewrite Hdelta.
  rewrite (to_int_small (_nf t * (m - nloc mod m))) by nia.
  f_equal.
  destruct (Z.eqb_spec (nloc mod m) 0) as [E|E].
  - rewrite E, Z.mul_0_r. cbn. rewrite Z.add_0_r.
    apply to_int_small. lia.
  - destruct (Z.eqb_spec (_nf t * 8 * (nloc mod m)) 0) as [E'|_]; [nia|].
    rewrite Z.quot_div_nonneg by nia.
    replace (_nf t * (m - nloc mod m)) with ((m - nloc mod m) * _nf t) by lia.
    rewrite Z.div_mul by lia.
    apply to_int_small. nia.
Qed.

Lemma cmpt_sizes_fields (t : Topology) (cmpt_nbyproc : nat -> Z) :
  (_axis t < 3)%nat ->
  let t' := cmpt_sizes t cmpt_nbyproc in
  _axis t' = _axis t /\ _nf t' = _nf t /\ _alignment t' = _alignment t
  /\ get3 (_nmem t') (_axis t) = snd (cmpt_sizes_dim t cmpt_nbyproc (_axis t)).
Proof.
  intros Hax. destruct t as [ax nf al [[l0 l1] l2] [[m0 m1] m2]].
  cbn in Hax. cbn [_axis].
  unfold cmpt_sizes, for_each, cmpt_sizes_dim.
  destruct ax as [|[|[|ax]]]; [| | |lia]; cbn; repeat split.
Qed.

(** The fast axis of a topology that went through [cmpt_sizes] holds a
    whole number of alignments. *)
Lemma cmpt_sizes_aligned (t : Topology) (cmpt_nbyproc : nat -> Z) :
  (_axis t < 3)%nat ->
  0 < _nf t -> 0 < _alignment t ->
  (_nf t * sizeof_double | _alignment t) ->
  0 <= cmpt_nbyproc (_axis t) ->
  cmpt_nbyproc (_axis t) * _nf t + _alignment t <= INT_MAX ->
  pencil_bytes (cmpt_sizes t cmpt_nbyproc) mod _alignment t = 0.
Proof.
  intros Hax Hnf Hal [m Hm] Hnloc Hmax.
  assert (Hmpos : 0 < m) by (unfold sizeof_double in *; nia).
  destruct (cmpt_sizes_fields t cmpt_nbyproc Hax) as (Ea & En & _ & Em).
  unfold pencil_bytes. rewrite Ea, En, Em.
  rewrite (cmpt_sizes_dim_axis t cmpt_nbyproc m) by (first [assumption | lia]).
  cbn [snd].
  set (nloc := cmpt_nbyproc (_axis t)) in *.
  assert (Hr : 0 <= nloc mod m < m) by (apply Z.mod_pos_bound; lia).
  pose proof (Z.div_mod nloc m ltac:(lia)) as Hdm.
  rewrite Hm.
  destruct (Z.eqb_spec (nloc mod m) 0) as [E|E].
  - replace (nloc * _nf t * sizeof_double)
      with (nloc / m * (m * (_nf t * sizeof_double))) by nia.
    apply Z.mod_mul. unfold sizeof_double in *. nia.
  - replace ((nloc + (m - nloc mod m)) * _nf t * sizeof_double)
      with ((nloc / m + 1) * (m * (_nf t * sizeof_double))) by nia.
    apply Z.mod_mul. unfold sizeof_double in *. nia.
Qed.

(** Both sizes of the fast axis after [cmpt_sizes]. *)
Lemma cmpt_sizes_axis (t : Topology) (cmpt_nbyproc : nat -> Z) :
  (_axis t < 3)%nat ->
  let t' := cmpt_sizes t cmpt_nbyproc in
  get3 (_nloc t') (_axis t) = fst (cmpt_sizes_dim t cmpt_nbyproc (_axis t))
  /\ get3 (_nmem t') (_axis t) = snd (cmpt_sizes_dim t cmpt_nbyproc (_axis t)).
Proof.
  intros Hax. destruct t as [ax nf al [[l0 l1] l2] [[m0 m1] m2]].
  cbn in Hax. cbn [_axis].
  unfold cmpt_sizes, for_each, cmpt_sizes_dim.
  destruct ax as [|[|[|ax]]]; [| | |lia]; cbn; split; reflexivity.
Qed.

(** An alignment that divides the size of one point asks for no padding. *)
Lemma cmpt_sizes_dim_axis_divides (t : Topology) (cmpt_nbyproc : nat -> Z) :
  let nloc := cmpt_nbyproc (_axis t) in
  0 < _nf t -> 0 < _alignment t ->
  (_alignment t | _nf t * sizeof_double) ->
  0 <= nloc ->
  nloc * _nf t + _alignment t <= INT_MAX ->
  cmpt_sizes_dim t cmpt_nbyproc (_axis t) = (nloc, nloc).
Proof.
  intros nloc Hnf Hal [k Hk] Hnloc Hmax.
  unfold cmpt_sizes_dim. rewrite Nat.eqb_refl. fold nloc.
  unfold INT_MAX, sizeof_double in *.
  assert (Hnm : 0 <= nloc * _nf t) by nia.
  rewrite (to_int_small (nloc * _nf t)) by lia.
  rewrite (to_size_t_small (nloc * _nf t)) by lia.
  rewrite (to_size_t_small (nloc * _nf t * 8)) by lia.
  rewrite (to_size_t_small (_alignment t)) by lia.
  replace (nloc * _nf t * 8) with (nloc * k * _alignment t) by nia.
  rewrite Z.mod_mul by lia.
  change (to_int 0) with 0. cbn [Z.eqb].
  rewrite Z.add_0_r. rewrite to_int_small by lia. reflexivity.
Qed.

(** The fast axis after [cmpt_sizes], for an alignment that divides the
    size of one point or is a multiple of it: the local size is the share
    of the process, the memory size is not below it, the padding is less
    than one alignment, and the pencil holds a whole number of
    alignments. *)
Lemma cmpt_sizes_padded (t : Topology) (cmpt_nbyproc : nat -> Z) :
  let nloc := cmpt_nbyproc (_axis t) in
  let t' := cmpt_sizes t cmpt_nbyproc in
  (_axis t < 3)%nat ->
  0 < _nf t -> 0 < _alignment t ->
  (_alignment t | _nf t * sizeof_double)
  \/ (_nf t * sizeof_double | _alignment t) ->
  0 <= nloc ->
  nloc * _nf t + _alignment t <= INT_MAX ->
  get3 (_nloc t') (_axis t) = nloc
  /\ nloc <= get3 (_nmem t') (_axis t)
  /\ (get3 (_nmem t') (_axis t) - nloc) * _nf t * sizeof_double
     < _alignment t
  /\ pencil_bytes t' mod _alignment t = 0.
Proof.
  intros nloc t' Hax Hnf Hal Hdiv Hnloc Hmax.
  destruct (cmpt_sizes_fields t cmpt_nbyproc Hax) as (Ea & En & _ & _).
  destruct (cmpt_sizes_axis t cmpt_nbyproc Hax) as [El Em].
  fold t' in Ea, En, El, Em.
  unfold pencil_bytes. rewrite Ea, En, El, Em.
  destruct Hdiv as [Hdiv|[m Hm]].
  - rewrite cmpt_sizes_dim_axis_divides by assumption. cbn [fst snd].
    fold nloc. split; [reflexivity|]. split; [lia|]. split; [lia|].
    destruct Hdiv as [k Hk].
    replace (nloc * _nf t * sizeof_double) with (nloc * k * _alignment t)
      by nia.
    apply Z.mod_mul. lia.
  - assert (Hmpos : 0 < m) by (unfold sizeof_double in *; nia).
    rewrite (cmpt_sizes_dim_axis t cmpt_nbyproc m)
      by (first [assumption | lia]).
    cbn [fst snd]. fold nloc.
    assert (Hr : 0 <= nloc mod m < m) by (apply Z.mod_pos_bound; lia).
    pose proof (Z.div_mod nloc m ltac:(lia)) as Hdm.
    split; [reflexivity|].
    destruct (Z.eqb_spec (nloc mod m) 0) as [E|E].
    + split; [lia|]. split; [lia|]. rewrite Hm.
      replace (nloc * _nf t * sizeof_double)
        with (nloc / m * (m * (_nf t * sizeof_double))) by nia.
      apply Z.mod_mul. unfold sizeof_double in *. nia.
    + split; [lia|]. split; [unfold sizeof_double in *; nia|]. rewrite Hm.
      replace ((nloc + (m - nloc mod m)) * _nf t * sizeof_double)
        with ((nloc / m + 1) * (m * (_nf t * sizeof_double))) by nia.
      apply Z.mod_mul. unfold sizeof_double in *. nia.
Qed.

Lemma get3_set3 {A : Type} (a : arr3 A) (i : nat) (v : A) :
  get3 (set3 a i v) i = v.
Proof. destruct a as [[x0 x1] x2]. destruct i as [|[|i]]; reflexivity. Qed.

(** Reading as complex numbers a real pencil that holds a whole number of
    alignments. *)
Lemma switch2complex_aligned (t : Topology) (A : Z) :
  0 < A ->
  (A | sizeof_double) \/ (2 * sizeof_double | A) ->
  0 <= get3 (_nmem t) (_axis t) ->
  pencil_bytes t mod A = 0 ->
  pencil_bytes (switch2complex t) mod A = 0.
Proof.
  intros HA Hdiv Hpos Hal. unfold switch2complex.
  destruct (Z.eqb_spec (_nf t) 1) as [Enf|_]; [|exact Hal].
  unfold pencil_bytes in *. cbn [_nmem _axis _nf]. rewrite get3_set3.
  rewrite Enf in Hal. unfold sizeof_double in *.
  set (n := get3 (_nmem t) (_axis t)) in *.
  rewrite Z.quot_div_nonneg by lia.
  destruct Hdiv as [[k Hk]|[k Hk]].
  - replace (n / 2 * 2 * 8) with (n / 2 * 2 * k * A)
      by (rewrite Hk at 1; ring).
    apply Z.mod_mul. lia.
  - apply Z.mod_divide in Hal; [|lia]. destruct Hal as [j Hj].
    assert (Hn : n = 2 * (j * k)) by lia.
    rewrite Hn. rewrite (Z.mul_comm 2 (j * k)), Z.div_mul by lia.
    replace (j * k * 2 * 8) with (j * A) by lia.
    apply Z.mod_mul. lia.
Qed.

(** Reading a complex pencil as single scalars changes nothing of its
    bytes. *)
Lemma switch2real_bytes (t : Topology) :
  0 <= get3 (_nmem t) (_axis t) ->
  (_nf t = 2 -> get3 (_nmem t) (_axis t) * 2 <= INT_MAX) ->
  pencil_bytes (switch2real t) = pencil_bytes t.
Proof.
  intros Hpos Hmax. unfold switch2real.
  destruct (Z.eqb_spec (_nf t) 2) as [Enf|_]; [|reflexivity].
  specialize (Hmax Enf).
  unfold pencil_bytes. cbn [_nmem _axis _nf]. rewrite get3_set3.
  rewrite Enf. unfold INT_MAX in Hmax. rewrite to_int_small by lia. lia.
Qed.

Lemma switch2complex_nmem (t : Topology) :
  0 <= get3 (_nmem t) (_axis t) ->
  _axis (switch2complex t) = _axis t
  /\ 0 <= get3 (_nmem (switch2complex t)) (_axis t)
  /\ (_nf t = 2 -> switch2complex t = t)
  /\ (_nf t = 1 ->
      get3 (_nmem (switch2complex t)) (_axis t) * 2
      <= get3 (_nmem t) (_axis t)).
Proof.
  intros Hpos. unfold switch2complex.
  destruct (Z.eqb_spec (_nf t) 1) as [Enf|Enf];
    [|split; [reflexivity|]; split; [lia|]; split; [reflexivity | lia]].
  cbn [_axis _nmem]. rewrite get3_set3. split; [reflexivity|].
  rewrite Z.quot_div_nonneg by lia.
  pose proof (Z.div_mod (get3 (_nmem t) (_axis t)) 2 ltac:(lia)).
  pose proof (Z.mod_pos_bound (get3 (_nmem t) (_axis t)) 2 ltac:(lia)).
  split; [lia|]. split; [lia | intros _; lia].
Qed.

Lemma switch2real_nmem (t : Topology) :
  0 <= get3 (_nmem t) (_axis t) ->
  (_nf t = 2 -> get3 (_nmem t) (_axis t) * 2 <= INT_MAX) ->
  _axis (switch2real t) = _axis t
  /\ 0 <= get3 (_nmem (switch2real t)) (_axis t).
Proof.
  intros Hpos Hmax. unfold switch2real.
  destruct (Z.eqb_spec (_nf t) 2) as [Enf|_]; [|split; [reflexivity | lia]].
  specialize (Hmax Enf).
  cbn [_axis _nmem]. rewrite get3_set3. split; [reflexivity|].
  unfold INT_MAX in Hmax. rewrite to_int_small by lia. lia.
Qed.

(** With an alignment of 24 bytes, a complex pencil of one point is not
    padded: it takes 16 bytes.  A real pencil of three points takes 24
    bytes, and 16 once it is read as complex numbers. *)
Lemma padded_pencil_misaligned_for_24 :
  (exists t,
     Topology_new 0 (1, 1, 1) true 24 1 (fun _ => 1) = Done t
     /\ _alignment t = 24
     /\ pencil_bytes t = 16
     /\ pencil_bytes t mod _alignment t <> 0)
  /\ (exists r,
        Topology_new 0 (1, 1, 1) false 24 1 (fun _ => 3) = Done r
        /\ pencil_bytes r mod 24 = 0
        /\ pencil_bytes (switch2complex r) = 16
        /\ pencil_bytes (switch2complex r) mod 24 <> 0).
Proof.
  split; eexists; (split; [reflexivity|]); vm_compute; repeat split;
    discriminate.
Qed.

(** An alignment that neither divides the size of one point nor is a
    multiple of it leaves a pencil of one point misaligned. *)
Lemma padded_pencil_misaligned_otherwise (axis : nat) (isComplex : bool)
  (alignment : Z) :
  let nf := if isComplex then 2 else 1 in
  (axis < 3)%nat ->
  0 < alignment ->
  alignment + nf <= INT_MAX ->
  ~ (alignment | nf * sizeof_double) ->
  ~ (nf * sizeof_double | alignment) ->
  exists t,
    Topology_new axis (1, 1, 1) isComplex alignment 1 (fun _ => 1) = Done t
    /\ pencil_bytes t mod alignment <> 0.
Proof.
  intros nf Hax HA Hmax Hnd Hnm.
  unfold Topology_new, FLUPS_CHECK. cbn [get3 Z.mul Z.eqb Pos.mul Pos.eqb].
  eexists. split; [reflexivity|].
  set (t0 := {| _axis := axis; _nf := if isComplex then 2 else 1;
                _alignment := alignment; _nloc := (0, 0, 0);
                _nmem := (0, 0, 0) |}).
  destruct (cmpt_sizes_fields t0 (fun _ => 1) Hax) as (Ea & En & _ & Em).
  unfold pencil_bytes. rewrite Ea, En, Em. cbn [_axis _nf t0]. fold nf.
  unfold cmpt_sizes_dim. cbn [_axis _nf _alignment t0].
  rewrite Nat.eqb_refl. fold nf. cbn [snd].
  unfold INT_MAX, sizeof_double in *.
  assert (Hnf : nf = 1 \/ nf = 2) by (subst nf; destruct isComplex; lia).
  set (c := nf * 8) in *.
  assert (Hc : 0 < c <= 16) by (subst c; lia).
  replace (1 * nf) with nf by lia.
  rewrite (to_int_small nf) by lia.
  rewrite (to_size_t_small nf) by lia.
  fold c.
  rewrite (to_size_t_small c) by lia.
  rewrite (to_size_t_small alignment) by lia.
  pose proof (Z.mod_pos_bound c alignment HA) as Hr.
  assert (Hr0 : c mod alignment <> 0).
  { intros E. apply Hnd. apply Z.mod_divide; [lia | exact E]. }
  set (r := c mod alignment) in *.
  rewrite (to_int_small r) by lia.
  rewrite (to_int_small (alignment - r)) by lia.
  rewrite (to_size_t_small (alignment - r)) by lia.
  assert (Hd : 0 <= (alignment - r) / 8 <= alignment).
  { split; [apply Z.div_pos; lia|].
    apply Z.div_le_upper_bound; lia. }
  rewrite (to_int_small ((alignment - r) / 8)) by lia.
  destruct (Z.eqb_spec r 0) as [E|_]; [contradiction|].
  rewrite Z.quot_div_nonneg by lia.
  rewrite Z.div_div by lia.
  replace (8 * nf) with c by (subst c; lia).
  assert (Hq : 0 <= (alignment - r) / c <= alignment).
  { split; [apply Z.div_pos; lia|].
    apply Z.div_le_upper_bound; nia. }
  rewrite to_int_small by lia.
  replace ((1 + (alignment - r) / c) * nf * 8)
    with ((1 + (alignment - r) / c) * c) by (subst c; lia).
  destruct (Z.lt_ge_cases alignment c) as [Hlt|Hge].
  - rewrite (Z.div_small (alignment - r) c) by lia.
    replace ((1 + 0) * c) with c by lia. fold r. exact Hr0.
  - assert (Erc : r = c) by (subst r; apply Z.mod_small; split; [lia|];
      destruct (Z.eq_dec alignment c) as [E|E]; [|lia];
      exfalso; apply Hnm; exists 1; lia).
    rewrite Erc.
    pose proof (Z.div_mod alignment c ltac:(lia)) as Hdm.
    pose proof (Z.mod_pos_bound alignment c ltac:(lia)) as Hm.
    assert (Hm0 : alignment mod c <> 0).
    { intros E. apply Hnm. apply Z.mod_divide; [lia | exact E]. }
    replace (alignment - c) with (alignment + (-1) * c) by lia.
    rewrite Z.div_add by lia.
    replace ((1 + (alignment / c + -1)) * c) with (alignment - alignment mod c)
      by lia.
    rewrite Z.mod_small by lia. lia.
Qed.

(** C6, as the code has it.  For an alignment that divides the size of one
    point ([nf] scalars of 8 bytes) or is a positive multiple of it, the
    fast axis of a topology holds the share of the process, padded by less
    than one alignment, and the bytes of a pencil along the fast axis,
    padding included, are a multiple of the alignment, at construction and
    after a change of communicator; so is any multiple of them, such as the
    size of the whole local buffer.  They still are after the real/complex
    toggle, one way or back, when the alignment divides 8 bytes or is a
    multiple of 16 bytes. *)
Theorem padded_pencil_is_aligned (axis : nat) (nproc : arr3 Z)
  (isComplex : bool) (alignment comm_size : Z)
  (cmpt_nbyproc cmpt_nbyproc' : nat -> Z) :
  let nf := if isComplex then 2 else 1 in
  (axis < 3)%nat ->
  get3 nproc 0 * get3 nproc 1 * get3 nproc 2 = comm_size ->
  0 < alignment ->
  (alignment | nf * sizeof_double) \/ (nf * sizeof_double | alignment) ->
  0 <= cmpt_nbyproc axis ->
  cmpt_nbyproc axis * nf + alignment <= INT_MAX ->
  0 <= cmpt_nbyproc' axis ->
  cmpt_nbyproc' axis * nf + alignment <= INT_MAX ->
  exists t,
    Topology_new axis nproc isComplex alignment comm_size cmpt_nbyproc = Done t
    /\ _alignment t = alignment
    /\ _nf t = nf
    /\ get3 (_nloc t) axis = cmpt_nbyproc axis
    /\ cmpt_nbyproc axis <= get3 (_nmem t) axis
    /\ (get3 (_nmem t) axis - cmpt_nbyproc axis) * nf * sizeof_double
       < alignment
    /\ pencil_bytes t mod alignment = 0
    /\ (let t' := change_comm t cmpt_nbyproc' in
        get3 (_nloc t') axis = cmpt_nbyproc' axis
        /\ cmpt_nbyproc' axis <= get3 (_nmem t') axis
        /\ pencil_bytes t' mod alignment = 0)
    /\ ((alignment | sizeof_double) \/ (2 * sizeof_double | alignment) ->
        pencil_bytes (switch2complex t) mod alignment = 0
        /\ pencil_bytes (switch2real t) mod alignment = 0
        /\ pencil_bytes (switch2real (switch2complex t)) mod alignment = 0
        /\ pencil_bytes (switch2complex (switch2real t)) mod alignment = 0)
    /\ forall k, (pencil_bytes t * k) mod alignment = 0.
Proof.
  intros nf Hax Hnproc Hal Hdiv Hn Hmax Hn' Hmax'.
  unfold Topology_new, FLUPS_CHECK.
  destruct (Z.eqb_spec (get3 nproc 0 * get3 nproc 1 * get3 nproc 2) comm_size)
    as [_|Hne]; [|contradiction].
  set (t0 := {| _axis := axis; _nf := if isComplex then 2 else 1;
                _alignment := alignment; _nloc := (0, 0, 0);
                _nmem := (0, 0, 0) |}).
  assert (Hnf : 0 < nf) by (subst nf; destruct isComplex; lia).
  assert (Hnf2 : nf = 1 \/ nf = 2) by (subst nf; destruct isComplex; lia).
  destruct (cmpt_sizes_fields t0 cmpt_nbyproc Hax) as (Ea & En & El & _).
  cbn [_axis _nf _alignment t0] in Ea, En, El. fold nf in En.
  destruct (cmpt_sizes_padded t0 cmpt_nbyproc Hax Hnf Hal Hdiv Hn Hmax)
    as (H1 & H2 & H3 & H4).
  cbn [_axis _nf _alignment t0] in H1, H2, H3, H4. fold nf in H3.
  set (t := cmpt_sizes t0 cmpt_nbyproc) in *.
  exists t.
  split; [reflexivity|]. split; [exact El|]. split; [exact En|].
  split; [exact H1|]. split; [exact H2|]. split; [exact H3|].
  split; [exact H4|]. split; [|split].
  - unfold change_comm. cbv zeta.
    pose proof (cmpt_sizes_padded t cmpt_nbyproc') as H.
    cbv zeta in H. rewrite Ea, En, El in H.
    destruct (H Hax Hnf Hal Hdiv Hn' Hmax') as (G1 & G2 & _ & G4).
    auto.
  - intros Htog.
    assert (Hpos : 0 <= get3 (_nmem t) (_axis t)) by (rewrite Ea; lia).
    assert (Hdbl : _nf t = 2 -> get3 (_nmem t) (_axis t) * 2 <= INT_MAX).
    { intros E2. rewrite Ea. rewrite En in E2.
      unfold INT_MAX, sizeof_double in *. nia. }
    destruct (switch2complex_nmem t Hpos) as (Eac & Hc1 & Hc2 & Hc3).
    destruct (switch2real_nmem t Hpos Hdbl) as (Ear & Hr1).
    assert (C : pencil_bytes (switch2complex t) mod alignment = 0)
      by (apply switch2complex_aligned; assumption).
    assert (R : pencil_bytes (switch2real t) mod alignment = 0)
      by (rewrite switch2real_bytes; assumption).
    split; [exact C|]. split; [exact R|]. split.
    + rewrite switch2real_bytes; [exact C | rewrite Eac; exact Hc1 |].
      rewrite Eac. intros _.
      destruct Hnf2 as [E1|E2].
      * rewrite <- En in E1. specialize (Hc3 E1).
        rewrite Ea in Hc3 |- *.
        unfold INT_MAX, sizeof_double in *. nia.
      * rewrite <- En in E2. rewrite (Hc2 E2). apply Hdbl. exact E2.
    + apply switch2complex_aligned; [assumption | assumption
                                    | rewrite Ear; exact Hr1 | exact R].
  - intros k. rewrite Z.mul_mod by lia. rewrite H4. cbn.
    apply Z.mod_0_l. lia.
Qed.

Lemma padded_pencil_is_aligned_witness :
  exists t,
    Topology_new 0 (2, 1, 1) false 32 2 (fun _ => 5) = Done t
    /\ get3 (_nloc t) 0 = 5
    /\ 5 <= get3 (_nmem t) 0
    /\ pencil_bytes t mod 32 = 0
    /\ pencil_bytes (change_comm t (fun _ => 7)) mod 32 = 0
    /\ pencil_bytes (switch2complex t) mod 32 = 0.
Proof.
  destruct (padded_pencil_is_aligned 0 (2, 1, 1) false 32 2
              (fun _ => 5) (fun _ => 7))
    as (t & Ht & _ & _ & Hl & Hm & _ & Hb & (_ & _ & Hc) & Htog & _).
  - lia.
  - reflexivity.
  - lia.
  - right. exists 4. reflexivity.
  - lia.
  - vm_compute. discriminate.
  - lia.
  - vm_compute. discriminate.
  - exists t. split; [exact Ht|]. split; [exact Hl|]. split; [exact Hm|].
    split; [exact Hb|]. split; [exact Hc|].
    apply Htog. right. exists 2. reflexivity.
Defined.

End TopologyFacts.

(** ** SwitchTopo.hpp: the greatest common divisor *)

Module SwitchTopoFacts.
Import SwitchTopo.

(** More fuel than [|a|] changes nothing. *)
Lemma gcd_fuel_enough (n m : nat) (a b : Z) :
  (Z.to_nat (Z.abs a) < n)%nat -> (Z.to_nat (Z.abs a) < m)%nat ->
  gcd_fuel n a b = gcd_fuel m a b.
Proof.
  revert m a b. induction n as [|n IH]; intros m a b Hn Hm; [lia|].
  destruct m as [|m]; [lia|]. cbn [gcd_fuel].
  destruct (Z.eqb_spec a 0) as [_|Ha]; [reflexivity|].
  pose proof (Z.rem_bound_abs b a Ha) as Hrem.
  apply IH; lia.
Qed.

(** The recursive equation of the source. *)
Lemma gcd_unfold (a b : Z) :
  gcd a b = if a =? 0 then b else gcd (Z.rem b a) a.
Proof.
  unfold gcd at 1. cbn [gcd_fuel].
  destruct (Z.eqb_spec a 0) as [_|Ha]; [reflexivity|].
  pose proof (Z.rem_bound_abs b a Ha) as Hrem.
  unfold gcd. apply gcd_fuel_enough; lia.
Qed.

Lemma gcd_fuel_is_Zgcd (n : nat) (a b : Z) :
  0 <= a -> 0 <= b -> (Z.to_nat (Z.abs a) < n)%nat -> gcd_fuel n a b = Z.gcd a b.
Proof.
  revert a b. induction n as [|n IH]; intros a b Ha Hb Hn; [lia|].
  cbn [gcd_fuel]. destruct (Z.eqb_spec a 0) as [->|Hne].
  - rewrite Z.gcd_0_l. lia.
  - rewrite Z.rem_mod_nonneg by lia.
    pose proof (Z.mod_pos_bound b a ltac:(lia)) as Hm.
    rewrite IH by lia.
    apply Z.gcd_mod. exact Hne.
Qed.

(** On extents that are not negative it is the greatest common divisor. *)
Lemma gcd_is_Zgcd (a b : Z) : 0 <= a -> 0 <= b -> gcd a b = Z.gcd a b.
Proof. intros Ha Hb. unfold gcd. apply gcd_fuel_is_Zgcd; lia. Qed.

(** ** SwitchTopo.cpp: start offsets of the reference transpose *)

Lemma cmpt_start_loop (n : list Z) (comm_size k : nat) :
  (k < comm_size)%nat ->
  let s := for_each (seq 1 k)
             (fun i s =>
                <[i := to_int (s !!! (i - 1)%nat + n !!! (i - 1)%nat)]> s)
             (replicate comm_size 0) in
  length s = comm_size
  /\ s !!! 0%nat = 0
  /\ forall i, (1 <= i <= k)%nat ->
       s !!! i = to_int (s !!! (i - 1)%nat + n !!! (i - 1)%nat).
Proof.
  induction k as [|k IH]; intros Hk; cbv zeta.
  - cbn. rewrite length_replicate. split; [reflexivity|].
    split; [|intros; lia].
    destruct comm_size; [lia | reflexivity].
  - rewrite seq_S, for_each_app. cbn [for_each fold_left].
    destruct (IH ltac:(lia)) as (Hlen & H0 & Hi). cbv zeta in Hlen, H0, Hi.
    set (s := for_each (seq 1 k) _ _) in *.
    replace (1 + k)%nat with (S k) by lia.
    split; [rewrite length_insert; exact Hlen|].
    split; [rewrite list_lookup_total_insert_ne by lia; exact H0|].
    intros i Hrange. destruct (Nat.eq_dec i (S k)) as [->|Hne].
    + rewrite list_lookup_total_insert_eq by lia.
      rewrite list_lookup_total_insert_ne by lia. reflexivity.
    + rewrite !list_lookup_total_insert_ne by lia. apply Hi. lia.
Qed.

(** In the reference transpose each start offset adds the count of the
    rank before to the offset of the rank before. *)
Lemma cmpt_start_exclusive (comm_size : nat) (n : list Z) :
  (0 < comm_size)%nat ->
  cmpt_start comm_size n !!! 0%nat = 0
  /\ forall i, (1 <= i < comm_size)%nat ->
       cmpt_start comm_size n !!! i
       = to_int (cmpt_start comm_size n !!! (i - 1)%nat + n !!! (i - 1)%nat).
Proof.
  intros Hpos. unfold cmpt_start.
  destruct (cmpt_start_loop n comm_size (comm_size - 1) ltac:(lia))
    as (_ & H0 & Hi).
  split; [exact H0|]. intros i Hrange. apply Hi. lia.
Qed.

End SwitchTopoFacts.

(** ** SwitchTopo_a2a.cpp *)

Module SwitchTopo_a2aFacts.
Import SwitchTopo_a2a.

(** *** The block extent *)

Lemma gcd_list_nonneg (l : list Z) : 0 <= gcd_list l.
Proof. destruct l; cbn; [lia | apply Z.gcd_nonneg]. Qed.

Lemma for_each_gcd (l : list Z) (g0 : Z) :
  0 <= g0 -> (forall x, In x l -> 0 <= x) ->
  for_each l (fun n my_gcd => SwitchTopo.gcd my_gcd n) g0
  = Z.gcd g0 (gcd_list l).
Proof.
  revert g0. induction l as [|x l IH]; intros g0 Hg Hl.
  - cbn. rewrite Z.gcd_0_r. lia.
  - rewrite for_each_cons.
    rewrite SwitchTopoFacts.gcd_is_Zgcd
      by first [exact Hg | apply Hl; left; reflexivity].
    rewrite IH.
    + cbn [gcd_list fold_right]. symmetry. apply Z.gcd_assoc.
    + apply Z.gcd_nonneg.
    + intros y Hy. apply Hl. right. exact Hy.
Qed.

Lemma gcd_list_pairs {A : Type} (f g : A -> Z) (l : list A) :
  gcd_list (List.map (fun p => Z.gcd (f p) (g p)) l)
  = gcd_list (flat_map (fun p => [f p; g p]) l).
Proof.
  unfold gcd_list. induction l as [|p l IH]; [reflexivity|].
  cbn [List.map flat_map app fold_right].
  rewrite IH. symmetry. apply Z.gcd_assoc.
Qed.

(** One process whose shared zone is 17 points wide on both sides, and which
    is the last one of both topologies: the block extent is 16, the greatest
    common divisor of its send and receive extents is 17. *)
Lemma block_extent_of_odd_exchange :
  cmpt_nByBlock
    [{| isend := 17; osend := 17; in_is_last := true; out_is_last := true |}]
  = Some 16
  /\ spec_block_extent
       [{| isend := 17; osend := 17; in_is_last := true; out_is_last := true |}]
     = 17.
Proof. split; reflexivity. Qed.

(** The recursion of [gcd] on any two integers: the greatest common
    divisor, up to its sign. *)
Lemma gcd_fuel_abs (n : nat) (a b : Z) :
  (Z.to_nat (Z.abs a) < n)%nat ->
  Z.abs (SwitchTopo.gcd_fuel n a b) = Z.gcd a b.
Proof.
  revert a b. induction n as [|n IH]; intros a b Hn; [lia|].
  cbn [SwitchTopo.gcd_fuel]. destruct (Z.eqb_spec a 0) as [->|Hne].
  - symmetry. apply Z.gcd_0_l.
  - pose proof (Z.rem_bound_abs b a Hne) as Hrem.
    rewrite IH by lia. apply Z.gcd_rem. exact Hne.
Qed.

Lemma gcd_abs (a b : Z) : Z.abs (SwitchTopo.gcd a b) = Z.gcd a b.
Proof. unfold SwitchTopo.gcd. apply gcd_fuel_abs. lia. Qed.

Lemma for_each_gcd_abs (l : list Z) (g0 : Z) :
  Z.abs (for_each l (fun n my_gcd => SwitchTopo.gcd my_gcd n) g0)
  = Z.gcd g0 (gcd_list l).
Proof.
  revert g0. induction l as [|x l IH]; intros g0.
  - cbn. rewrite Z.gcd_0_r. reflexivity.
  - rewrite for_each_cons, IH.
    rewrite <- (Z.gcd_abs_l (SwitchTopo.gcd g0 x)), gcd_abs.
    cbn [gcd_list fold_right]. symmetry. apply Z.gcd_assoc.
Qed.

Lemma gcd_list_npoints (ex : Z) (procs : list proc_extent) :
  gcd_list (List.map (npoints ex) procs)
  = gcd_list (List.map (fun p => Z.gcd (isend_adj ex p) (osend_adj ex p))
                procs).
Proof.
  unfold gcd_list. induction procs as [|p l IH]; [reflexivity|].
  cbn [List.map fold_right]. rewrite IH.
  rewrite <- (Z.gcd_abs_l (npoints ex p)). unfold npoints.
  rewrite gcd_abs. reflexivity.
Qed.

(** When no adjusted extent is negative, no sign is lost. *)
Lemma block_extent_of_nonneg_extents (procs : list proc_extent) :
  procs <> [] ->
  (forall p, In p procs ->
     0 <= isend_adj (exSize procs) p /\ 0 <= osend_adj (exSize procs) p) ->
  cmpt_nByBlock procs
  = Some (gcd_list
            (flat_map
               (fun p => [isend_adj (exSize procs) p;
                          osend_adj (exSize procs) p])
               procs))
  /\ (Z.rem (exSize procs) 2 = 0 ->
      cmpt_nByBlock procs = Some (spec_block_extent procs)).
Proof.
  intros Hne Hpos.
  assert (Hmain :
    cmpt_nByBlock procs
    = Some (gcd_list
              (flat_map
                 (fun p => [isend_adj (exSize procs) p;
                            osend_adj (exSize procs) p])
                 procs))).
  { unfold cmpt_nByBlock.
    rewrite <- gcd_list_pairs.
    assert (Hmap :
      List.map (npoints (exSize procs)) procs
      = List.map (fun p => Z.gcd (isend_adj (exSize procs) p)
                             (osend_adj (exSize procs) p)) procs).
    { apply map_ext_in. intros p Hp. unfold npoints.
      apply SwitchTopoFacts.gcd_is_Zgcd; apply (Hpos p Hp). }
    rewrite Hmap. clear Hmap.
    assert (Hnn : forall x,
               In x (List.map
                       (fun p => Z.gcd (isend_adj (exSize procs) p)
                                   (osend_adj (exSize procs) p)) procs) ->
               0 <= x).
    { intros x Hx. apply in_map_iff in Hx.
      destruct Hx as (p & <- & _). apply Z.gcd_nonneg. }
    assert (Hnil :
      List.map (fun p => Z.gcd (isend_adj (exSize procs) p)
                           (osend_adj (exSize procs) p)) procs <> []).
    { destruct procs; [contradiction | discriminate]. }
    generalize dependent
      (List.map (fun p => Z.gcd (isend_adj (exSize procs) p)
                            (osend_adj (exSize procs) p)) procs).
    intros [|n0 rest] Hnn Hnil; [contradiction|].
    f_equal. apply for_each_gcd.
    - apply Hnn. left. reflexivity.
    - intros x Hx. apply Hnn. right. exact Hx. }
  split; [exact Hmain|].
  intros Heven. rewrite Hmain. f_equal. unfold spec_block_extent. f_equal.
  apply flat_map_ext. intros p.
  unfold isend_adj, osend_adj. rewrite Heven.
  destruct (in_is_last p), (out_is_last p); f_equal; try lia; f_equal; lia.
Qed.


(** Three processes that share 27 points; the last process of the output
    topology holds none of them and takes the parity off all the same: its
    extent becomes -1, and so does the block extent. *)
Lemma block_extent_of_empty_last_process :
  cmpt_nByBlock
    [{| isend := 9; osend := 18; in_is_last := false; out_is_last := false |};
     {| isend := 9; osend := 9; in_is_last := false; out_is_last := false |};
     {| isend := 9; osend := 0; in_is_last := true; out_is_last := true |}]
  = Some (-1).
Proof. reflexivity. Qed.

(** C3, as the code has it.  The block extent is, up to its sign, the
    greatest common divisor, over all processes, of the send and receive
    extents after the last process of each topology has taken off the parity
    of the exchanged size; it is that greatest common divisor itself when no
    extent is negative after that; and when the exchanged size is even, the
    extents are the send and receive extents themselves. *)
Theorem block_extent_is_gcd_of_adjusted_extents (procs : list proc_extent) :
  procs <> [] ->
  let adjusted :=
    flat_map
      (fun p => [isend_adj (exSize procs) p; osend_adj (exSize procs) p])
      procs in
  exists n,
    cmpt_nByBlock procs = Some n
    /\ Z.abs n = gcd_list adjusted
    /\ ((forall p, In p procs ->
           0 <= isend_adj (exSize procs) p /\ 0 <= osend_adj (exSize procs) p) ->
        n = gcd_list adjusted)
    /\ (Z.rem (exSize procs) 2 = 0 ->
        gcd_list adjusted = spec_block_extent procs).
Proof.
  intros Hne adjusted.
  assert (Hrun : exists n,
            cmpt_nByBlock procs = Some n /\ Z.abs n = gcd_list adjusted).
  { unfold cmpt_nByBlock.
    pose proof (gcd_list_npoints (exSize procs) procs) as Hg.
    rewrite gcd_list_pairs in Hg. fold adjusted in Hg.
    destruct (List.map (npoints (exSize procs)) procs) as [|n0 rest] eqn:E.
    - destruct procs; [contradiction | discriminate].
    - eexists. split; [reflexivity|].
      rewrite for_each_gcd_abs. exact Hg. }
  destruct Hrun as (n & Hn & Habs).
  exists n. split; [exact Hn|]. split; [exact Habs|]. split.
  - intros Hpos.
    destruct (block_extent_of_nonneg_extents procs Hne Hpos) as [E _].
    fold adjusted in E. congruence.
  - intros Heven. unfold adjusted, spec_block_extent. f_equal.
    apply flat_map_ext. intros p.
    unfold isend_adj, osend_adj. rewrite Heven.
    destruct (in_is_last p), (out_is_last p); f_equal; try lia; f_equal; lia.
Qed.

Lemma block_extent_is_gcd_of_adjusted_extents_witness :
  cmpt_nByBlock
    [{| isend := 8; osend := 4; in_is_last := false; out_is_last := false |};
     {| isend := 9; osend := 13; in_is_last := true; out_is_last := true |}]
  = Some 4.
Proof.
  destruct (block_extent_is_gcd_of_adjusted_extents
              [{| isend := 8; osend := 4;
                  in_is_last := false; out_is_last := false |};
               {| isend := 9; osend := 13;
                  in_is_last := true; out_is_last := true |}])
    as (n & Hn & _ & Hpos & _).
  - discriminate.
  - rewrite Hn. f_equal. rewrite Hpos; [reflexivity|].
    intros p [<-|[<-|[]]]; vm_compute; split; discriminate.
Defined.

(** *** The choice of the collective *)

Lemma for_each_andb {I : Type} (f : I -> bool) (l : list I) (b0 : bool) :
  for_each l (fun i b => b && f i) b0 = b0 && forallb f l.
Proof.
  revert b0. induction l as [|i l IH]; intros b0.
  - cbn. rewrite andb_true_r. reflexivity.
  - rewrite for_each_cons, IH. cbn [forallb]. apply eq_sym, andb_assoc.
Qed.

(** The flag, in closed form: the first count sent is not zero, and down
    from rank 1 every count sent and every count received equals it. *)
Lemma cmpt_is_all2all_closed (subsize : nat) (i2o o2i : list Z) :
  cmpt_is_all2all subsize i2o o2i
  = negb (i2o !!! 0%nat =? 0)
    && forallb
         (fun ir => (i2o !!! 0%nat =? i2o !!! ir)
                    && (i2o !!! 0%nat =? o2i !!! ir))
         (seq 1 (subsize - 1)).
Proof.
  unfold cmpt_is_all2all. cbv zeta.
  rewrite <- for_each_andb.
  apply for_each_ext. intros ir b. apply eq_sym, andb_assoc.
Qed.

(** A sub-communicator of one rank that exchanges nothing: all counts are
    equal, and the exchange goes through [MPI_Alltoallv]. *)
Lemma equal_zero_counts_use_alltoallv :
  spec_uniform 1 [0] [0] = true
  /\ execute_collective (init_counts 1 8 [0%nat] [] []) Solver.FLUPS_FORWARD
     = MPI_Alltoallv [0] [0] [0] [0].
Proof. split; reflexivity. Qed.

(** C4, as the code has it.  The flag computed by the constructor is set
    when all counts, sent and received, are equal and not zero; when it is
    set, the first count sent is not zero and equals every count sent and
    every count received from a rank other than the first.  [execute] calls
    [MPI_Alltoall] when the flag is set and [MPI_Alltoallv] otherwise, in
    both directions. *)
Theorem all2all_iff_flag_and_flag_of_equal_counts (subsize : nat)
  (i2o_count o2i_count i2o_start o2i_start : list Z) (sign : Solver.PlanSign) :
  let flag := cmpt_is_all2all subsize i2o_count o2i_count in
  let d := {| _i2o_count := i2o_count; _o2i_count := o2i_count;
              _i2o_start := i2o_start; _o2i_start := o2i_start;
              _is_all2all := flag |} in
  (spec_uniform subsize i2o_count o2i_count = true
   /\ i2o_count !!! 0%nat <> 0 -> flag = true)
  /\ (flag = true ->
      i2o_count !!! 0%nat <> 0
      /\ forall ir, (ir < subsize)%nat ->
           i2o_count !!! ir = i2o_count !!! 0%nat
           /\ ((1 <= ir)%nat -> o2i_count !!! ir = i2o_count !!! 0%nat))
  /\ ((exists s r, execute_collective d sign = MPI_Alltoall s r)
      <-> flag = true)
  /\ ((exists sc ss rc rs, execute_collective d sign = MPI_Alltoallv sc ss rc rs)
      <-> flag = false).
Proof.
  cbv zeta. rewrite cmpt_is_all2all_closed.
  split; [|split; [|split]].
  - intros [Huni Hnz]. apply andb_true_intro. split.
    + destruct (Z.eqb_spec (i2o_count !!! 0%nat) 0); [contradiction | reflexivity].
    + apply forallb_forall. intros ir Hir. apply in_seq in Hir.
      unfold spec_uniform in Huni.
      pose proof (proj1 (forallb_forall _ _) Huni ir) as H.
      rewrite in_seq in H. specialize (H ltac:(lia)).
      apply andb_prop in H. destruct H as [H1 H2].
      apply Z.eqb_eq in H1, H2. rewrite H1, H2, Z.eqb_refl. reflexivity.
  - intros Hflag. apply andb_prop in Hflag. destruct Hflag as [Hnz Hall].
    split.
    + destruct (Z.eqb_spec (i2o_count !!! 0%nat) 0); [discriminate | assumption].
    + intros ir Hir. destruct ir as [|ir]; [split; [reflexivity | lia]|].
      pose proof (proj1 (forallb_forall _ _) Hall (S ir)) as H.
      rewrite in_seq in H. specialize (H ltac:(lia)).
      apply andb_prop in H. destruct H as [H1 H2].
      apply Z.eqb_eq in H1, H2. split; [lia | intros _; lia].
  - unfold execute_collective. cbn [_is_all2all].
    destruct sign; cbn;
      destruct (negb _ && forallb _ _); split;
      first [ reflexivity | discriminate
            | intros (? & ? & ?); discriminate
            | intros _; eexists _, _; reflexivity ].
  - unfold execute_collective. cbn [_is_all2all].
    destruct sign; cbn;
      destruct (negb _ && forallb _ _); split;
      first [ reflexivity | discriminate
            | intros (? & ? & ? & ? & ?); discriminate
            | intros _; eexists _, _, _, _; reflexivity ].
Qed.

(** *** [_setup_subComm] *)

(** C5.  Two ranks and three blocks, the first for rank 0 and the other two
    for rank 1, one scalar per block: the counts are 1 and 2, the start
    offsets handed to [MPI_Alltoallv] are 0 and 2, whereas the data of rank 1
    begins where the data of rank 0 ends, at offset 1. *)
Theorem a2a_start_skips_first_count :
  let '(destRank, count, start) :=
    _setup_subComm 2 1 [0%nat; 1%nat] [0%nat; 1%nat; 1%nat] in
  destRank = [0%nat; 1%nat; 1%nat]
  /\ count = [1; 2]
  /\ start = [0; 2]
  /\ exclusive_prefix_sum 0 count = [0; 1]
  /\ start !!! 1%nat <> start !!! 0%nat + count !!! 0%nat
  /\ execute_collective
       (init_counts 2 1 [0%nat; 1%nat] [0%nat; 1%nat; 1%nat]
          [0%nat; 1%nat; 1%nat]) Solver.FLUPS_FORWARD
     = MPI_Alltoallv [1; 2] [0; 2] [1; 2] [0; 2].
Proof. vm_compute. repeat split. discriminate. Qed.

(** What the loop of [_setup_subComm] computes in general: each start offset
    adds the count of its own rank to the previous offset. *)
Lemma a2a_cmpt_start_loop (count : list Z) (subsize k : nat) :
  (k < subsize)%nat ->
  let s := for_each (seq 1 k)
             (fun ir start =>
                <[ir := to_int (start !!! (ir - 1)%nat + count !!! ir)]> start)
             (<[0%nat := 0]> (replicate subsize 0)) in
  length s = subsize
  /\ s !!! 0%nat = 0
  /\ forall ir, (1 <= ir <= k)%nat ->
       s !!! ir = to_int (s !!! (ir - 1)%nat + count !!! ir).
Proof.
  induction k as [|k IH]; intros Hk; cbv zeta.
  - cbn [seq for_each fold_left].
    rewrite length_insert, length_replicate. split; [reflexivity|].
    split; [|intros; lia].
    apply list_lookup_total_insert_eq. rewrite length_replicate. lia.
  - rewrite seq_S, for_each_app. cbn [for_each fold_left].
    destruct (IH ltac:(lia)) as (Hlen & H0 & Hi). cbv zeta in Hlen, H0, Hi.
    set (s := for_each (seq 1 k) _ _) in *.
    replace (1 + k)%nat with (S k) by lia.
    split; [rewrite length_insert; exact Hlen|].
    split; [rewrite list_lookup_total_insert_ne by lia; exact H0|].
    intros ir Hrange. destruct (Nat.eq_dec ir (S k)) as [->|Hne].
    + rewrite list_lookup_total_insert_eq by lia.
      rewrite list_lookup_total_insert_ne by lia. reflexivity.
    + rewrite !list_lookup_total_insert_ne by lia. apply Hi. lia.
Qed.

Lemma a2a_cmpt_start_inclusive (subsize : nat) (count : list Z) :
  (0 < subsize)%nat ->
  cmpt_start subsize count !!! 0%nat = 0
  /\ forall ir, (1 <= ir < subsize)%nat ->
       cmpt_start subsize count !!! ir
       = to_int (cmpt_start subsize count !!! (ir - 1)%nat + count !!! ir).
Proof.
  intros Hpos. unfold cmpt_start.
  destruct (a2a_cmpt_start_loop count subsize (subsize - 1) ltac:(lia))
    as (_ & H0 & Hi).
  split; [exact H0|]. intros ir Hrange. apply Hi. lia.
Qed.

End SwitchTopo_a2aFacts.

(** ** SwitchTopo_nb.cpp: the non-blocking transpose *)

Module SwitchTopo_nbFacts.
Import SwitchTopo_nb.

(** *** Indices

    The loops split a counter [id] with [/] and [%], and name points by
    indices counted from the fast direction of the input topology. *)

Lemma digits_quot_rem (n q a : Z) :
  0 <= a < n -> 0 <= q ->
  Z.quot (q * n + a) n = q /\ Z.rem (q * n + a) n = a.
Proof.
  intros Ha Hq.
  rewrite Z.quot_div_nonneg, Z.rem_mod_nonneg by nia.
  split.
  - rewrite Z.add_comm, Z.div_add by lia. rewrite Z.div_small by lia. lia.
  - rewrite Z.add_comm, Z.mod_add by lia. apply Z.mod_small. lia.
Qed.

Lemma unrot_get (a : nat) (X : arr3 Z) :
  (a < 3)%nat ->
  unrot a (get3 X a) (get3 X ((a + 1) mod 3)%nat) (get3 X ((a + 2) mod 3)%nat)
  = X.
Proof.
  intros Ha. destruct X as [[x0 x1] x2].
  destruct a as [|[|[|a]]]; [reflexivity | reflexivity | reflexivity | lia].
Qed.

Lemma get_unrot (a : nat) (i0 i1 i2 : Z) :
  (a < 3)%nat ->
  get3 (unrot a i0 i1 i2) a = i0
  /\ get3 (unrot a i0 i1 i2) ((a + 1) mod 3)%nat = i1
  /\ get3 (unrot a i0 i1 i2) ((a + 2) mod 3)%nat = i2.
Proof.
  intros Ha.
  destruct a as [|[|[|a]]]; [repeat split | repeat split | repeat split | lia].
Qed.

(** *** Places in a memory *)

Section Layout.
Variable localIndex : nat -> Z -> Z -> Z -> nat -> arr3 Z -> Z -> Z.
Variable localSplit : Z -> arr3 Z -> nat -> Z -> arr3 Z.

(** The address computed by the copy loops is the place of the point. *)
Lemma position_of_loop_index (t : nat) (n : arr3 Z) (nf : Z) (a : nat)
  (loc : arr3 Z) (i0 i1 i2 c : Z) :
  layout_law localIndex t n nf -> (a < 3)%nat ->
  localIndex a (get3 loc a) (get3 loc ((a + 1) mod 3)%nat)
    (get3 loc ((a + 2) mod 3)%nat) t n nf
  + (localIndex a 0 i1 i2 t n nf + i0 * localIndex a 1 0 0 t n nf + c)
  = position localIndex t n nf (add3 loc (unrot a i0 i1 i2)) c.
Proof.
  intros (Hrot & (k0 & k1 & k2 & Hlin) & _ & _) Ha.
  unfold position. rewrite !(Hrot a) by exact Ha. rewrite !Hlin.
  destruct loc as [[l0 l1] l2].
  destruct a as [|[|[|a]]]; [| | |lia]; cbn; ring.
Qed.

Lemma origin_components (start nBlock nByBlock : arr3 Z) (bid : Z) (d : nat) :
  (d < 3)%nat ->
  get3 (origin localSplit start nBlock nByBlock bid) d
  = get3 start d
    + get3 (localSplit bid nBlock 0%nat 1) d * get3 nByBlock d.
Proof.
  intros Hd. unfold origin.
  destruct d as [|[|[|d]]]; [reflexivity | reflexivity | reflexivity | lia].
Qed.
End Layout.

(** *** The two copy loops, one block at a time *)

Section CopyLoops.
Context {D : Type}.
Variable localIndex : nat -> Z -> Z -> Z -> nat -> arr3 Z -> Z -> Z.
Variable localSplit : Z -> arr3 Z -> nat -> Z -> arr3 Z.
Variable blockMemSize : Z.

Local Abbreviation fill_block := (fill_block localIndex localSplit).
Local Abbreviation fill_stores := (fill_stores localIndex localSplit).
Local Abbreviation unpack_block := (unpack_block localIndex localSplit blockMemSize).
Local Abbreviation unpack_stores :=
  (unpack_stores localIndex localSplit blockMemSize).
Local Abbreviation position := (position localIndex).
Local Abbreviation layout_law := (layout_law localIndex).
Local Abbreviation send_origin := (send_origin localSplit).
Local Abbreviation recv_origin := (recv_origin localSplit).

(** *** Packing one block *)

Lemma fill_block_writes (w : View) (v : buffer D) (bid off : Z) :
  writes (fill_block w v bid off) (fill_stores w v bid off).
Proof.
  unfold fill_block, fill_stores. cbv zeta.
  apply writes_for_range. intros id Hid.
  apply writes_for_range. intros i0 Hi0.
  apply writes_write.
Qed.

(** Two iterations never store to the same place of the slot. *)
Lemma fill_stores_functional (w : View) (v : buffer D) (bid off p : Z)
  (x y : D) :
  fill_stores w v bid off p x -> fill_stores w v bid off p y -> x = y.
Proof.
  unfold fill_stores. cbv zeta.
  intros (id & Hid & i0 & Hi0 & Hp & ->) (id' & Hid' & i0' & Hi0' & Hp' & ->).
  destruct (radix_unique
              (iBlockSize w (Topology._axis (topo_in w)) bid
               * Topology._nf (topo_in w)) id i0 id' i0') as [<- <-];
    [lia | lia | lia | reflexivity].
Qed.

(** The stores stay inside the slot of the block. *)
Lemma fill_stores_in_slot (w : View) (v : buffer D) (bid off p : Z) (x : D) :
  fill_stores w v bid off p x ->
  let ax0 := Topology._axis (topo_in w) in
  off <= p
  < off + iBlockSize w ax0 bid * iBlockSize w ((ax0 + 1) mod 3)%nat bid
          * iBlockSize w ((ax0 + 2) mod 3)%nat bid * Topology._nf (topo_in w).
Proof.
  unfold fill_stores. cbv zeta.
  intros (id & Hid & i0 & Hi0 & -> & _). nia.
Qed.

(** Scalar [c] of point [X] of the block goes to its place in the slot. *)
Lemma fill_stores_point (w : View) (v : buffer D) (bid off : Z) (X : arr3 Z)
  (c : Z) :
  let ax0 := Topology._axis (topo_in w) in
  let nf := Topology._nf (topo_in w) in
  (ax0 < 3)%nat -> 0 < nf ->
  layout_law ax0 (inmem w) nf ->
  in_box (fun d => iBlockSize w d bid) X -> 0 <= c < nf ->
  fill_stores w v bid off
    (off + bufpos ax0 (fun d => iBlockSize w d bid) nf X c)
    (v (position ax0 (inmem w) nf (add3 (send_origin w bid) X) c)).
Proof.
  intros ax0 nf Hax Hnf Hlaw Hbox Hc.
  assert (Hb : 0 <= get3 X ax0 < iBlockSize w ax0 bid
               /\ 0 <= get3 X ((ax0 + 1) mod 3)%nat
                  < iBlockSize w ((ax0 + 1) mod 3)%nat bid
               /\ 0 <= get3 X ((ax0 + 2) mod 3)%nat
                  < iBlockSize w ((ax0 + 2) mod 3)%nat bid).
  { destruct Hbox as (H0 & H1 & H2).
    destruct ax0 as [|[|[|a]]]; [| | |lia]; cbn; auto. }
  destruct Hb as (H0 & H1 & H2).
  unfold fill_stores. cbv zeta. fold ax0 nf.
  set (bs0 := iBlockSize w ax0 bid) in *.
  set (bs1 := iBlockSize w ((ax0 + 1) mod 3)%nat bid) in *.
  set (bs2 := iBlockSize w ((ax0 + 2) mod 3)%nat bid) in *.
  set (x0 := get3 X ax0) in *.
  set (x1 := get3 X ((ax0 + 1) mod 3)%nat) in *.
  set (x2 := get3 X ((ax0 + 2) mod 3)%nat) in *.
  exists (x2 * bs1 + x1). split; [nia|].
  exists (x0 * nf + c). split; [nia|].
  split; [unfold bufpos; cbv zeta; fold x0 x1 x2 bs0 bs1 bs2; ring|].
  destruct (digits_quot_rem bs1 x2 x1 H1 ltac:(lia)) as [-> ->].
  f_equal.
  pose proof (position_of_loop_index localIndex ax0 (inmem w) nf ax0
                (send_origin w bid) x0 x1 x2 c Hlaw Hax) as Hpos.
  destruct Hlaw as (_ & _ & Hstride & _). rewrite Hstride in Hpos.
  subst x0 x1 x2. rewrite (unrot_get ax0 X Hax) in Hpos.
  rewrite <- Hpos.
  unfold SwitchTopo_nb.send_origin.
  rewrite !origin_components
    by (destruct ax0 as [|[|[|a]]]; cbn; lia).
  ring.
Qed.

(** *** Unpacking one block *)

Lemma unpack_block_writes (w : View) (recvBuf : buffer D) (bid : Z) :
  Topology._nf (topo_in w) = 1 \/ Topology._nf (topo_in w) = 2 ->
  writes (unpack_block w recvBuf bid) (unpack_stores w recvBuf bid).
Proof.
  intros Hnf. unfold unpack_block, unpack_stores. cbv zeta.
  destruct Hnf as [Hnf|Hnf]; rewrite Hnf; cbn [Z.eqb Pos.eqb].
  - apply writes_for_range. intros id Hid.
    eapply writes_weaken; [|apply writes_for_range; intros i0 Hi0; apply writes_write].
    intros p x. cbv beta. split.
    + intros (i0 & Hi0 & -> & ->). exists i0. split; [exact Hi0|].
      exists 0. split; [lia|]. split; f_equal; lia.
    + intros (i0 & Hi0 & c & Hc & -> & ->).
      assert (c = 0) as -> by lia.
      exists i0. split; [exact Hi0|]. split; f_equal; lia.
  - apply writes_for_range. intros id Hid.
    eapply writes_weaken;
      [|apply writes_for_range; intros i0 Hi0;
        apply (writes_comp
                 (fun v => write v _ _) (fun v => write v _ _));
        apply writes_write].
    intros p x. cbv beta. split.
    + intros (i0 & Hi0 & [[-> ->]|[-> ->]]); exists i0; (split; [exact Hi0|]);
        [exists 0 | exists 1]; (split; [lia|]); split; f_equal; lia.
    + intros (i0 & Hi0 & c & Hc & -> & ->).
      exists i0. split; [exact Hi0|].
      assert (c = 0 \/ c = 1) as [-> | ->] by lia; [left | right];
        split; f_equal; lia.
Qed.

(** Every store of the loop puts one scalar of one point of the block at
    its place in the output memory. *)
Lemma unpack_stores_decode (w : View) (recvBuf : buffer D) (bid p : Z) (x : D) :
  let ax0 := Topology._axis (topo_in w) in
  let nf := Topology._nf (topo_in w) in
  (ax0 < 3)%nat ->
  layout_law (Topology._axis (topo_out w)) (onmem w) nf ->
  (forall d : nat, 0 <= oBlockSize w d bid) ->
  unpack_stores w recvBuf bid p x ->
  exists X c,
    in_box (fun d => oBlockSize w d bid) X /\ 0 <= c < nf
    /\ p = position (Topology._axis (topo_out w)) (onmem w) nf
             (add3 (recv_origin w bid) X) c
    /\ x = recvBuf (bid * blockMemSize
                    + bufpos ax0 (fun d => oBlockSize w d bid) nf X c).
Proof.
  intros ax0 nf Hax Hlaw Hsize. unfold unpack_stores. cbv zeta. fold ax0 nf.
  pose proof (Hsize ((ax0 + 1) mod 3)%nat) as Hs1.
  pose proof (Hsize ((ax0 + 2) mod 3)%nat) as Hs2.
  set (bs0 := oBlockSize w ax0 bid) in *.
  set (bs1 := oBlockSize w ((ax0 + 1) mod 3)%nat bid) in *.
  set (bs2 := oBlockSize w ((ax0 + 2) mod 3)%nat bid) in *.
  intros (id & Hid & i0 & Hi0 & c & Hc & -> & ->).
  assert (Hbs1 : 0 < bs1) by nia.
  destruct (quot_rem_digits id bs1 ltac:(lia) Hbs1) as (Eid & Hrem & Hquot).
  set (i1 := Z.rem id bs1) in *. set (i2 := Z.quot id bs1) in *.
  assert (Hi2 : i2 < bs2) by nia.
  destruct (get_unrot ax0 i0 i1 i2 Hax) as (G0 & G1 & G2).
  exists (unrot ax0 i0 i1 i2), c.
  split; [|split; [exact Hc|split]].
  - unfold in_box.
    destruct ax0 as [|[|[|a]]]; [| | |lia]; cbn in *;
      subst bs0 bs1 bs2; cbn in *; lia.
  - pose proof (position_of_loop_index localIndex
                  (Topology._axis (topo_out w)) (onmem w) nf ax0
                  (recv_origin w bid) i0 i1 i2 c Hlaw Hax) as Hpos.
    rewrite <- Hpos.
    unfold SwitchTopo_nb.recv_origin.
    rewrite !origin_components
      by (destruct ax0 as [|[|[|a]]]; cbn; lia).
    ring.
  - f_equal. unfold bufpos. cbv zeta. rewrite G0, G1, G2.
    fold bs0 bs1. rewrite Eid at 1. ring.
Qed.

(** Conversely every scalar of every point of the block is stored. *)
Lemma unpack_stores_point (w : View) (recvBuf : buffer D) (bid : Z)
  (X : arr3 Z) (c : Z) :
  let ax0 := Topology._axis (topo_in w) in
  let nf := Topology._nf (topo_in w) in
  (ax0 < 3)%nat ->
  layout_law (Topology._axis (topo_out w)) (onmem w) nf ->
  in_box (fun d => oBlockSize w d bid) X -> 0 <= c < nf ->
  unpack_stores w recvBuf bid
    (position (Topology._axis (topo_out w)) (onmem w) nf
       (add3 (recv_origin w bid) X) c)
    (recvBuf (bid * blockMemSize
              + bufpos ax0 (fun d => oBlockSize w d bid) nf X c)).
Proof.
  intros ax0 nf Hax Hlaw Hbox Hc.
  assert (Hb : 0 <= get3 X ax0 < oBlockSize w ax0 bid
               /\ 0 <= get3 X ((ax0 + 1) mod 3)%nat
                  < oBlockSize w ((ax0 + 1) mod 3)%nat bid
               /\ 0 <= get3 X ((ax0 + 2) mod 3)%nat
                  < oBlockSize w ((ax0 + 2) mod 3)%nat bid).
  { destruct Hbox as (H0 & H1 & H2).
    destruct ax0 as [|[|[|a]]]; [| | |lia]; cbn; auto. }
  destruct Hb as (H0 & H1 & H2).
  unfold unpack_stores. cbv zeta. fold ax0 nf.
  set (bs0 := oBlockSize w ax0 bid) in *.
  set (bs1 := oBlockSize w ((ax0 + 1) mod 3)%nat bid) in *.
  set (bs2 := oBlockSize w ((ax0 + 2) mod 3)%nat bid) in *.
  set (x0 := get3 X ax0) in *.
  set (x1 := get3 X ((ax0 + 1) mod 3)%nat) in *.
  set (x2 := get3 X ((ax0 + 2) mod 3)%nat) in *.
  exists (x2 * bs1 + x1). split; [nia|].
  exists x0. split; [lia|]. exists c. split; [exact Hc|].
  destruct (digits_quot_rem bs1 x2 x1 H1 ltac:(lia)) as [-> ->].
  split.
  - pose proof (position_of_loop_index localIndex
                  (Topology._axis (topo_out w)) (onmem w) nf ax0
                  (recv_origin w bid) x0 x1 x2 c Hlaw Hax) as Hpos.
    subst x0 x1 x2. rewrite (unrot_get ax0 X Hax) in Hpos.
    rewrite <- Hpos.
    unfold SwitchTopo_nb.recv_origin.
    rewrite !origin_components
      by (destruct ax0 as [|[|[|a]]]; cbn; lia).
    ring.
  - f_equal. unfold bufpos. cbv zeta. fold x0 x1 x2 bs0 bs1. ring.
Qed.

(** The place of a scalar in the slot: inside the slot, and one place per
    scalar. *)
Lemma bufpos_bound (ax0 : nat) (size : nat -> Z) (nf : Z) (X : arr3 Z) (c : Z) :
  (ax0 < 3)%nat -> in_box size X -> 0 <= c < nf ->
  0 <= bufpos ax0 size nf X c < size 0%nat * size 1%nat * size 2%nat * nf.
Proof.
  intros Hax (H0 & H1 & H2) Hc. unfold bufpos.
  destruct ax0 as [|[|[|a]]]; [| | |lia]; cbn;
    match goal with
    | |- 0 <= ((?x2 * ?s1 + ?x1) * ?s0 + ?x0) * nf + c < _ =>
        assert (A : 0 <= x2 * s1 + x1 < (x2 + 1) * s1) by nia;
        assert (B : 0 <= (x2 * s1 + x1) * s0 + x0 < (x2 + 1) * s1 * s0) by nia;
        assert (C : 0 <= ((x2 * s1 + x1) * s0 + x0) * nf + c
                    < (x2 + 1) * s1 * s0 * nf) by nia;
        assert (E : (x2 + 1) * s1 * s0 * nf
                    <= size 0%nat * size 1%nat * size 2%nat * nf) by nia;
        lia
    end.
Qed.

Lemma bufpos_injective (ax0 : nat) (size : nat -> Z) (nf : Z) (X Y : arr3 Z)
  (c c' : Z) :
  (ax0 < 3)%nat -> in_box size X -> in_box size Y ->
  0 <= c < nf -> 0 <= c' < nf ->
  bufpos ax0 size nf X c = bufpos ax0 size nf Y c' -> X = Y /\ c = c'.
Proof.
  intros Hax (H0 & H1 & H2) (K0 & K1 & K2) Hc Hc'. unfold bufpos.
  destruct X as [[x0 x1] x2], Y as [[y0 y1] y2].
  destruct ax0 as [|[|[|a]]]; [| | |lia]; cbn in *; intros E;
    apply radix_unique in E; try lia; destruct E as [E ->];
    apply radix_unique in E; try lia; destruct E as [E ->];
    apply radix_unique in E; try lia; destruct E as [-> ->];
    auto.
Qed.
End CopyLoops.

(** *** The requests made by [setup_buffers] *)

Lemma recvRequest_view (d : SwitchTopo_nb) (s : Z) (sign : Solver.PlanSign)
  (t : Z) (rq : Request) :
  recvRequest (view d s sign) t = Some rq ->
  req_tag rq = t /\ req_peer rq <> s.
Proof.
  destruct sign; cbn; unfold _i2o_recvRequest, _o2i_recvRequest;
    match goal with |- context [?a =? ?b] => destruct (Z.eqb_spec a b) end;
    intros [= <-]; cbn; auto.
Qed.

Lemma sendRequest_view (d : SwitchTopo_nb) (r : Z) (sign : Solver.PlanSign)
  (b : Z) (rq : Request) :
  sendRequest (view d r sign) b = Some rq ->
  req_tag rq = destTag (view d r sign) b /\ req_peer rq <> r.
Proof.
  destruct sign; cbn; unfold _i2o_sendRequest, _o2i_sendRequest;
    match goal with |- context [?a =? ?b] => destruct (Z.eqb_spec a b) end;
    intros [= <-]; cbn; auto.
Qed.

Lemma oselfBlockID_view (d : SwitchTopo_nb) (s : Z) (sign : Solver.PlanSign)
  (t : Z) :
  In t (oselfBlockID (view d s sign)) <->
  0 <= t < nblocks (recv_nBlock (view d s sign))
  /\ recvRequest (view d s sign) t = None.
Proof.
  destruct sign; cbn; unfold _oselfBlockID, _iselfBlockID,
    _i2o_recvRequest, _o2i_recvRequest;
    rewrite filter_In, in_zrange;
    match goal with |- context [?a =? ?b] => destruct (Z.eqb_spec a b) end;
    intuition congruence.
Qed.

(** A send whose destination is another process has a request. *)
Lemma send_dest_other (w : View) (r b s t : Z) :
  send_dest w r b = (s, t) -> s <> r ->
  exists rq, sendRequest w b = Some rq /\ req_peer rq = s /\ req_tag rq = t.
Proof.
  unfold send_dest. destruct (sendRequest w b) as [rq|]; intros [= <- <-] Hne.
  - exists rq. auto.
  - contradiction.
Qed.

(** *** The order in which the blocks are unpacked *)

Lemma received_bid_valid (d : SwitchTopo_nb) (s : Z) (sign : Solver.PlanSign)
  (arrival : list Z) (count : Z) :
  let w := view d s sign in
  selfBlockN w = Z.of_nat (length (oselfBlockID w)) ->
  arrival_ok w arrival ->
  0 <= count < nblocks (recv_nBlock w) ->
  0 <= received_bid w arrival count < nblocks (recv_nBlock w).
Proof.
  intros w HN [Hlen Harr] Hcount. unfold received_bid.
  destruct (Z.ltb_spec count (selfBlockN w)) as [Hlt|Hge].
  - apply (oselfBlockID_view d s sign).
    apply list_elem_of_In, list_elem_of_lookup_total_2. fold w. lia.
  - apply Harr.
    apply list_elem_of_In, list_elem_of_lookup_total_2. lia.
Qed.

Lemma received_bid_all (d : SwitchTopo_nb) (s : Z) (sign : Solver.PlanSign)
  (arrival : list Z) (t : Z) :
  let w := view d s sign in
  selfBlockN w = Z.of_nat (length (oselfBlockID w)) ->
  arrival_ok w arrival ->
  0 <= t < nblocks (recv_nBlock w) ->
  exists count,
    0 <= count < nblocks (recv_nBlock w) /\ received_bid w arrival count = t.
Proof.
  intros w HN [Hlen Harr] Ht. unfold received_bid.
  destruct (recvRequest w t) as [rq|] eqn:Hrq.
  - assert (Hin : In t arrival) by (apply Harr; split; [exact Ht | congruence]).
    apply list_elem_of_In, list_elem_of_lookup_total_1 in Hin.
    destruct Hin as (i & Hi & E).
    exists (selfBlockN w + Z.of_nat i). split; [lia|].
    destruct (Z.ltb_spec (selfBlockN w + Z.of_nat i) (selfBlockN w)); [lia|].
    replace (Z.to_nat (selfBlockN w + Z.of_nat i - selfBlockN w)) with i by lia.
    exact E.
  - assert (Hin : In t (oselfBlockID w))
      by (apply (oselfBlockID_view d s sign); auto).
    apply list_elem_of_In, list_elem_of_lookup_total_1 in Hin.
    destruct Hin as (i & Hi & E).
    exists (Z.of_nat i). split; [lia|].
    destruct (Z.ltb_spec (Z.of_nat i) (selfBlockN w)); [|lia].
    rewrite Nat2Z.id. exact E.
Qed.

(** *** Searching a list *)

Lemma find_unique {A : Type} (f : A -> bool) (l : list A) (x : A) :
  In x l -> f x = true -> (forall y, In y l -> f y = true -> y = x) ->
  List.find f l = Some x.
Proof.
  intros Hin Hfx Huniq.
  destruct (List.find f l) as [y|] eqn:E.
  - apply find_some in E. destruct E as [Hy Hfy].
    f_equal. apply Huniq; assumption.
  - apply (find_none f l E) in Hin. congruence.
Qed.

(** *** A loop over a pair of buffers *)

Lemma for_each_pair {I A B : Type} (l : list I) (f : I -> A -> A)
  (g : I -> B -> B) (a : A) (b : B) :
  for_each l (fun i ab => (f i (fst ab), g i (snd ab))) (a, b)
  = (for_each l f a, for_each l g b).
Proof.
  revert a b. induction l as [|i l IH]; intros a b; [reflexivity|].
  rewrite !for_each_cons. cbn [fst snd]. apply IH.
Qed.

(** *** Slots of the staging buffers *)

Lemma slot_unique (B b b' p : Z) :
  b * B <= p < b * B + B -> b' * B <= p < b' * B + B -> b = b'.
Proof. intros H H'. nia. Qed.

Lemma rotated_product (size : nat -> Z) (a : nat) :
  (a < 3)%nat ->
  size a * size ((a + 1) mod 3)%nat * size ((a + 2) mod 3)%nat
  = size 0%nat * size 1%nat * size 2%nat.
Proof. intros Ha. destruct a as [|[|[|a]]]; [| | |lia]; cbn; ring. Qed.

Lemma bufpos_ext (ax0 : nat) (size size' : nat -> Z) (nf : Z) (X : arr3 Z)
  (c : Z) :
  (forall d, size d = size' d) ->
  bufpos ax0 size nf X c = bufpos ax0 size' nf X c.
Proof. intros H. unfold bufpos. rewrite !H. reflexivity. Qed.

(** *** The three steps of [execute], under the invariant of the exchange *)

Section Phases.
Context {D : Type}.
Variable dzero : D.
Variable localIndex : nat -> Z -> Z -> Z -> nat -> arr3 Z -> Z -> Z.
Variable localSplit : Z -> arr3 Z -> nat -> Z -> arr3 Z.
Variable memsize : Topology.Topology -> Z.
Variable blockMemSize : Z.
Variable nranks : Z.
Variable descr : Z -> SwitchTopo_nb.
Variable sign : Solver.PlanSign.
Variable nf : Z.
Variable ax0 : nat.
Hypothesis Hinv :
  exchange_invariant localIndex localSplit blockMemSize nranks descr sign nf ax0.

Local Abbreviation W r := (view (descr r) r sign).
Local Abbreviation fill_block := (fill_block localIndex localSplit).
Local Abbreviation fill_stores := (fill_stores localIndex localSplit).
Local Abbreviation pack := (pack localIndex localSplit blockMemSize).
Local Abbreviation unpack_block :=
  (unpack_block localIndex localSplit blockMemSize).
Local Abbreviation unpack_stores :=
  (unpack_stores localIndex localSplit blockMemSize).
Local Abbreviation unpack :=
  (unpack dzero localIndex localSplit memsize blockMemSize).
Local Abbreviation position := (position localIndex).
Local Abbreviation send_origin := (send_origin localSplit).
Local Abbreviation recv_origin := (recv_origin localSplit).

Lemma inv_nf : 0 < nf.
Proof using Hinv. destruct Hinv as ([->| ->] & _); lia. Qed.

(** *** Packing *)

(** The packing loop works on the two staging buffers independently. *)
Lemma pack_fst_snd (w : View) (v S R : buffer D) :
  pack w v (S, R)
  = (for_range 0 (nblocks (send_nBlock w))
       (fun b S => match sendRequest w b with
                   | None => S
                   | Some _ => fill_block w v b (b * blockMemSize) S
                   end) S,
     for_range 0 (nblocks (send_nBlock w))
       (fun b R => match sendRequest w b with
                   | None => fill_block w v b (destTag w b * blockMemSize) R
                   | Some _ => R
                   end) R).
Proof.
  unfold SwitchTopo_nb.pack, for_range. rewrite <- for_each_pair.
  apply for_each_ext. intros b [S' R']. unfold pack_block. cbn [fst snd].
  destruct (sendRequest w b); reflexivity.
Qed.

(** The stores of one block stay in a slot of [blockMemSize] scalars. *)
Lemma fill_stores_slot (r b off p : Z) (v : buffer D) (x : D) :
  0 <= r < nranks -> 0 <= b < nblocks (send_nBlock (W r)) ->
  fill_stores (W r) v b off p x -> off <= p < off + blockMemSize.
Proof using Hinv.
  intros Hr Hb Hst.
  destruct Hinv as (_ & Hax0 & Hall).
  destruct (Hall r Hr) as (Hnf & _ & Hax & _ & _ & _ & _ & Hsend & _).
  destruct (Hsend b Hb) as (_ & _ & _ & _ & _ & _ & Hfit).
  apply fill_stores_in_slot in Hst. cbv zeta in Hst.
  rewrite Hax, Hnf in Hst.
  rewrite (rotated_product (fun d => iBlockSize (W r) d b) ax0 Hax0) in Hst.
  lia.
Qed.

(** After packing, the slot of a block that goes to another process holds
    the scalars of the block. *)
Lemma packed_send (r b : Z) (v : buffer D) (bufs : buffer D * buffer D)
  (X : arr3 Z) (c : Z) :
  0 <= r < nranks -> 0 <= b < nblocks (send_nBlock (W r)) ->
  sendRequest (W r) b <> None ->
  in_box (fun d => iBlockSize (W r) d b) X -> 0 <= c < nf ->
  fst (pack (W r) v bufs)
    (b * blockMemSize + bufpos ax0 (fun d => iBlockSize (W r) d b) nf X c)
  = v (position ax0 (inmem (W r)) nf (add3 (send_origin (W r) b) X) c).
Proof using Hinv.
  intros Hr Hb Hrq Hbox Hc. destruct bufs as [S R].
  rewrite pack_fst_snd. cbn [fst].
  pose proof inv_nf as Hnfpos.
  destruct Hinv as (_ & Hax0 & Hall).
  destruct (Hall r Hr) as (Hnf & _ & Hax & _ & Hlaw & _).
  apply (writes_hit _
           (fun p x => exists b', 0 <= b' < nblocks (send_nBlock (W r))
                       /\ sendRequest (W r) b' <> None
                       /\ fill_stores (W r) v b' (b' * blockMemSize) p x)).
  - apply writes_for_range. intros b' Hb'.
    destruct (sendRequest (W r) b') as [rq|] eqn:E.
    + eapply writes_weaken; [|apply fill_block_writes].
      intros p x. split; [intros H; split; [congruence | exact H] | tauto].
    + apply writes_id. intros p x [H _]. congruence.
  - exists b. split; [exact Hb|]. split; [exact Hrq|].
    pose proof (fill_stores_point localIndex localSplit (W r) v b
                  (b * blockMemSize) X c) as Hpt.
    cbv zeta in Hpt. rewrite Hax, Hnf in Hpt.
    apply Hpt; assumption.
  - intros y (b' & Hb' & Hrq' & Hy).
    pose proof (fill_stores_point localIndex localSplit (W r) v b
                  (b * blockMemSize) X c) as Hpt.
    cbv zeta in Hpt. rewrite Hax, Hnf in Hpt.
    specialize (Hpt Hax0 Hnfpos Hlaw Hbox Hc).
    assert (b' = b) as ->.
    { apply (slot_unique blockMemSize b' b
               (b * blockMemSize
                + bufpos ax0 (fun d => iBlockSize (W r) d b) nf X c)).
      - apply (fill_stores_slot r b' _ _ v y Hr Hb' Hy).
      - apply (fill_stores_slot r b _ _ v _ Hr Hb Hpt). }
    apply (fill_stores_functional localIndex localSplit (W r) v b _ _ _ _ Hy Hpt).
Qed.

(** A self block is packed straight into the slot of the receive buffer that
    its tag names. *)
Lemma packed_self (r b : Z) (v : buffer D) (bufs : buffer D * buffer D)
  (X : arr3 Z) (c : Z) :
  0 <= r < nranks -> 0 <= b < nblocks (send_nBlock (W r)) ->
  sendRequest (W r) b = None ->
  in_box (fun d => iBlockSize (W r) d b) X -> 0 <= c < nf ->
  snd (pack (W r) v bufs)
    (destTag (W r) b * blockMemSize
     + bufpos ax0 (fun d => iBlockSize (W r) d b) nf X c)
  = v (position ax0 (inmem (W r)) nf (add3 (send_origin (W r) b) X) c).
Proof using Hinv.
  intros Hr Hb Hrq Hbox Hc. destruct bufs as [S R].
  rewrite pack_fst_snd. cbn [snd].
  pose proof inv_nf as Hnfpos.
  destruct Hinv as (_ & Hax0 & Hall).
  destruct (Hall r Hr) as (Hnf & _ & Hax & _ & Hlaw & _ & _ & Hsend & _).
  apply (writes_hit _
           (fun p x => exists b', 0 <= b' < nblocks (send_nBlock (W r))
                       /\ sendRequest (W r) b' = None
                       /\ fill_stores (W r) v b'
                            (destTag (W r) b' * blockMemSize) p x)).
  - apply writes_for_range. intros b' Hb'.
    destruct (sendRequest (W r) b') as [rq|] eqn:E.
    + apply writes_id. intros p x [H _]. congruence.
    + eapply writes_weaken; [|apply fill_block_writes].
      intros p x. split; [intros H; split; [reflexivity | exact H] | tauto].
  - exists b. split; [exact Hb|]. split; [exact Hrq|].
    pose proof (fill_stores_point localIndex localSplit (W r) v b
                  (destTag (W r) b * blockMemSize) X c) as Hpt.
    cbv zeta in Hpt. rewrite Hax, Hnf in Hpt.
    apply Hpt; assumption.
  - intros y (b' & Hb' & Hrq' & Hy).
    pose proof (fill_stores_point localIndex localSplit (W r) v b
                  (destTag (W r) b * blockMemSize) X c) as Hpt.
    cbv zeta in Hpt. rewrite Hax, Hnf in Hpt.
    specialize (Hpt Hax0 Hnfpos Hlaw Hbox Hc).
    assert (Htag : destTag (W r) b' = destTag (W r) b).
    { apply (slot_unique blockMemSize _ _
               (destTag (W r) b * blockMemSize
                + bufpos ax0 (fun d => iBlockSize (W r) d b) nf X c)).
      - apply (fill_stores_slot r b' _ _ v y Hr Hb' Hy).
      - apply (fill_stores_slot r b _ _ v _ Hr Hb Hpt). }
    assert (b' = b) as ->.
    { destruct (Hsend b Hb) as (_ & _ & _ & Hsrc & _).
      destruct (Hsend b' Hb') as (_ & _ & _ & Hsrc' & _).
      cbv zeta in Hsrc, Hsrc'. unfold send_dest in Hsrc, Hsrc'.
      rewrite Hrq in Hsrc. rewrite Hrq' in Hsrc'. cbn [fst snd] in Hsrc, Hsrc'.
      rewrite <- Hsrc, <- Hsrc', Htag. reflexivity. }
    apply (fill_stores_functional localIndex localSplit (W r) v b _ _ _ _ Hy Hpt).
Qed.

(** *** Transport *)

(** The receive that [setup_buffers] posts for a block finds the send of the
    reciprocal block, and no other. *)
Lemma find_send_spec (s t : Z) (rq : Request) :
  0 <= s < nranks -> 0 <= t < nblocks (recv_nBlock (W s)) ->
  recvRequest (W s) t = Some rq ->
  find_send (W (req_peer rq)) s (req_tag rq) = Some (srcTag (descr s) sign t).
Proof using Hinv.
  intros Hs Ht Hrq.
  destruct (recvRequest_view _ _ _ _ _ Hrq) as [Htag Hpeer].
  destruct Hinv as (_ & _ & Hall).
  destruct (Hall s Hs) as (_ & _ & _ & _ & _ & _ & _ & _ & Hrecv & _).
  destruct (Hrecv t Ht) as (Hs0 & Hb & Hdest & _). cbv zeta in Hs0, Hb, Hdest.
  unfold recv_src in Hs0, Hb, Hdest. rewrite Hrq in Hs0, Hb, Hdest.
  destruct (send_dest_other _ _ _ _ _ Hdest) as (rq' & Hrq' & Hp' & Ht');
    [congruence|].
  unfold find_send. apply find_unique.
  - apply in_zrange. exact Hb.
  - rewrite Hrq', Hp', Ht', Htag, !Z.eqb_refl. reflexivity.
  - intros y Hy Hf. apply in_zrange in Hy.
    destruct (sendRequest (W (req_peer rq)) y) as [rq''|] eqn:E; [|discriminate].
    apply andb_true_iff in Hf. destruct Hf as [Hf1 Hf2].
    apply Z.eqb_eq in Hf1, Hf2.
    destruct (Hall (req_peer rq) Hs0)
      as (_ & _ & _ & _ & _ & _ & _ & Hsend & _).
    destruct (Hsend y Hy) as (_ & _ & _ & Hsrc & _). cbv zeta in Hsrc.
    unfold send_dest in Hsrc. rewrite E in Hsrc. cbn [fst snd] in Hsrc.
    rewrite Hf1, Hf2, Htag in Hsrc. symmetry. exact Hsrc.
Qed.

(** Every send is taken by a receive. *)
Lemma send_completes_spec (r b : Z) :
  0 <= r < nranks -> 0 <= b < nblocks (send_nBlock (W r)) ->
  send_completes nranks (fun r => W r) r b = true.
Proof using Hinv.
  intros Hr Hb. unfold send_completes.
  destruct (sendRequest (W r) b) as [rq|] eqn:Hrq; [|reflexivity].
  destruct (sendRequest_view _ _ _ _ _ Hrq) as [_ Hpeer].
  pose proof Hinv as (_ & _ & Hall).
  destruct (Hall r Hr) as (_ & _ & _ & _ & _ & _ & _ & Hsend & _).
  destruct (Hsend b Hb) as (Hs & Ht & Hsrc & Htag & _).
  cbv zeta in Hs, Ht, Hsrc, Htag.
  unfold send_dest in Hs, Ht, Hsrc, Htag. rewrite Hrq in Hs, Ht, Hsrc, Htag.
  cbn [fst snd] in Hs, Ht, Hsrc, Htag. cbv zeta.
  destruct (Z.leb_spec 0 (req_peer rq)); [|lia].
  destruct (Z.ltb_spec (req_peer rq) nranks); [|lia].
  destruct (Z.leb_spec 0 (req_tag rq)); [|lia].
  destruct (Z.ltb_spec (req_tag rq)
              (nblocks (recv_nBlock (W (req_peer rq))))); [|lia].
  cbn [andb].
  unfold recv_src in Hsrc.
  destruct (recvRequest (W (req_peer rq)) (req_tag rq)) as [rq'|] eqn:Hrq';
    [|congruence].
  destruct (recvRequest_view _ _ _ _ _ Hrq') as [Htag' _].
  pose proof (find_send_spec (req_peer rq) (req_tag rq) rq' Hs Ht Hrq') as Hf.
  rewrite Hsrc, Htag', Htag in Hf.
  rewrite Hsrc, Hf, !Z.eqb_refl. reflexivity.
Qed.

(** Every receive completes; the slot of a block that comes from another
    process then holds the slot that this process packed, the other slots
    are as they were. *)
Lemma receive_spec (sent : Z -> buffer D) (s : Z) (R : buffer D) :
  0 <= s < nranks ->
  exists R',
    receive blockMemSize (fun r => W r) sent s R = Some R'
    /\ forall t k, 0 <= t < nblocks (recv_nBlock (W s)) ->
         0 <= k < blockMemSize ->
         R' (t * blockMemSize + k)
         = match recvRequest (W s) t with
           | Some rq =>
               sent (req_peer rq)
                 (srcTag (descr s) sign t * blockMemSize + k)
           | None => R (t * blockMemSize + k)
           end.
Proof using Hinv.
  intros Hs. unfold receive.
  set (n := nblocks (recv_nBlock (W s))).
  destruct (Z.le_gt_cases 0 n) as [Hn|Hn].
  2:{ rewrite for_range_empty by lia. exists R. split; [reflexivity|]. lia. }
  assert (H : exists R',
             for_range 0 n (receive_block blockMemSize (fun r => W r) sent s)
               (Some R) = Some R'
             /\ (forall t k, 0 <= t < n -> 0 <= k < blockMemSize ->
                   R' (t * blockMemSize + k)
                   = match recvRequest (W s) t with
                     | Some rq =>
                         sent (req_peer rq)
                           (srcTag (descr s) sign t * blockMemSize + k)
                     | None => R (t * blockMemSize + k)
                     end)
             /\ (forall p, (forall t, 0 <= t < n ->
                              ~ t * blockMemSize <= p < t * blockMemSize + blockMemSize) ->
                   R' p = R p)).
  { apply (for_range_ind
             (fun i st => exists R',
                st = Some R'
                /\ (forall t k, 0 <= t < i -> 0 <= k < blockMemSize ->
                      R' (t * blockMemSize + k)
                      = match recvRequest (W s) t with
                        | Some rq =>
                            sent (req_peer rq)
                              (srcTag (descr s) sign t * blockMemSize + k)
                        | None => R (t * blockMemSize + k)
                        end)
                /\ (forall p, (forall t, 0 <= t < i ->
                                 ~ t * blockMemSize <= p
                                   < t * blockMemSize + blockMemSize) ->
                      R' p = R p))).
    - exact Hn.
    - exists R. split; [reflexivity|]. split; [intros; lia | reflexivity].
    - intros i st Hi (R' & -> & Hslots & Hrest).
      unfold receive_block.
      destruct (recvRequest (W s) i) as [rq|] eqn:Hrq.
      + rewrite (find_send_spec s i rq Hs Hi Hrq).
        eexists. split; [reflexivity|]. split.
        * intros t k Ht Hk. rewrite copy_range.
          destruct (Z.eq_dec t i) as [->|Hne].
          -- rewrite Hrq.
             destruct (Z.leb_spec (i * blockMemSize) (i * blockMemSize + k));
               [|lia].
             destruct (Z.ltb_spec (i * blockMemSize + k)
                         (i * blockMemSize + blockMemSize)); [|lia].
             cbn. f_equal. lia.
          -- destruct (Z.leb_spec (i * blockMemSize) (t * blockMemSize + k));
               destruct (Z.ltb_spec (t * blockMemSize + k)
                           (i * blockMemSize + blockMemSize));
               cbn; try (apply Hslots; lia).
             exfalso. apply Hne.
             apply (slot_unique blockMemSize t i (t * blockMemSize + k)); lia.
        * intros p Hp. rewrite copy_range.
          destruct (Z.leb_spec (i * blockMemSize) p);
            destruct (Z.ltb_spec p (i * blockMemSize + blockMemSize));
            cbn; try (apply Hrest; intros t Ht; apply Hp; lia).
          exfalso. apply (Hp i); lia.
      + exists R'. split; [reflexivity|]. split.
        * intros t k Ht Hk.
          destruct (Z.eq_dec t i) as [->|Hne]; [|apply Hslots; lia].
          rewrite Hrq. apply Hrest. intros t Ht' Hin.
          assert (t = i) by
            (apply (slot_unique blockMemSize t i (i * blockMemSize + k)); lia).
          lia.
        * intros p Hp. apply Hrest. intros t Ht. apply Hp. lia. }
  destruct H as (R' & E & Hslots & _). exists R'. split; [exact E|].
  intros t k Ht Hk. apply Hslots; assumption.
Qed.

(** *** Unpacking *)

(** The extents of a block to receive are those of the block sent. *)
Lemma recv_block_size (r t : Z) :
  0 <= r < nranks -> 0 <= t < nblocks (recv_nBlock (W r)) ->
  (forall d : nat,
     oBlockSize (W r) d t
     = iBlockSize (W (recv_src (W r) r t)) d (srcTag (descr r) sign t))
  /\ (forall d : nat, 0 <= oBlockSize (W r) d t)
  /\ oBlockSize (W r) 0%nat t * oBlockSize (W r) 1%nat t
     * oBlockSize (W r) 2%nat t * nf <= blockMemSize.
Proof using Hinv.
  intros Hr Ht.
  destruct Hinv as (_ & _ & Hall).
  destruct (Hall r Hr) as (_ & _ & _ & _ & _ & _ & _ & _ & Hrecv & _).
  destruct (Hrecv t Ht) as (Hs & Hb & Hdest & _). cbv zeta in Hs, Hb, Hdest.
  destruct (Hall _ Hs) as (_ & _ & _ & _ & _ & _ & _ & Hsend & _).
  destruct (Hsend _ Hb) as (_ & _ & _ & _ & Hsize & Hpos & Hfit).
  cbv zeta in Hsize. rewrite Hdest in Hsize. cbn [fst snd] in Hsize.
  split; [exact Hsize|]. split.
  - intros d. rewrite Hsize. apply Hpos.
  - rewrite !Hsize. exact Hfit.
Qed.

(** A point of a block to receive is a point of the local memory. *)
Lemma recv_point_in_memory (r t : Z) (X : arr3 Z) :
  0 <= r < nranks -> 0 <= t < nblocks (recv_nBlock (W r)) ->
  in_box (fun d => oBlockSize (W r) d t) X ->
  in_box (get3 (onmem (W r))) (add3 (recv_origin (W r) t) X).
Proof using Hinv.
  intros Hr Ht (H0 & H1 & H2).
  destruct Hinv as (_ & _ & Hall).
  destruct (Hall r Hr) as (_ & _ & _ & _ & _ & _ & _ & _ & Hrecv & _).
  destruct (Hrecv t Ht) as (_ & _ & _ & Hin).
  pose proof (Hin 0%nat ltac:(lia)) as I0.
  pose proof (Hin 1%nat ltac:(lia)) as I1.
  pose proof (Hin 2%nat ltac:(lia)) as I2.
  unfold in_box, add3. cbn [get3]. lia.
Qed.

(** Two scalars of blocks to receive that go to the same place are the same
    scalar of the same block. *)
Lemma recv_place_unique (r t t' : Z) (X X' : arr3 Z) (c c' : Z) :
  0 <= r < nranks ->
  0 <= t < nblocks (recv_nBlock (W r)) ->
  0 <= t' < nblocks (recv_nBlock (W r)) ->
  in_box (fun d => oBlockSize (W r) d t) X ->
  in_box (fun d => oBlockSize (W r) d t') X' ->
  0 <= c < nf -> 0 <= c' < nf ->
  position (Topology._axis (topo_out (W r))) (onmem (W r)) nf
    (add3 (recv_origin (W r) t) X) c
  = position (Topology._axis (topo_out (W r))) (onmem (W r)) nf
      (add3 (recv_origin (W r) t') X') c' ->
  t = t' /\ X = X' /\ c = c'.
Proof using Hinv.
  intros Hr Ht Ht' HX HX' Hc Hc' E.
  pose proof (recv_point_in_memory r t X Hr Ht HX) as HM.
  pose proof (recv_point_in_memory r t' X' Hr Ht' HX') as HM'.
  destruct Hinv as (_ & _ & Hall).
  destruct (Hall r Hr)
    as (_ & _ & _ & _ & _ & (_ & _ & _ & Hinj) & _ & _ & _ & Hdisj).
  destruct (Hinj _ _ _ _ HM HM' Hc Hc' E) as [EX Ec].
  assert (t = t') as <-.
  { destruct (Z.eq_dec t t') as [e|Hne]; [exact e|]. exfalso.
    destruct (Hdisj t t' Ht Ht' Hne) as (d & Hd & Hsep).
    destruct HX as (A0 & A1 & A2). destruct HX' as (B0 & B1 & B2).
    assert (Ed : get3 (add3 (recv_origin (W r) t) X) d
                 = get3 (add3 (recv_origin (W r) t') X') d) by congruence.
    unfold add3 in Ed.
    destruct d as [|[|[|d]]]; [| | |lia]; cbn [get3] in Ed, Hsep; lia. }
  split; [reflexivity|]. split; [|exact Ec].
  destruct X as [[x0 x1] x2]. destruct X' as [[y0 y1] y2].
  unfold add3 in EX. cbn [get3] in EX.
  injection EX as E0 E1 E2. f_equal; [f_equal|]; lia.
Qed.

(** After unpacking, the place of every scalar of every block received holds
    the scalar found in the slot of the block. *)
Lemma unpack_hit (r t : Z) (arrival : list Z) (recvBuf v : buffer D)
  (X : arr3 Z) (c : Z) :
  0 <= r < nranks -> arrival_ok (W r) arrival ->
  0 <= t < nblocks (recv_nBlock (W r)) ->
  in_box (fun d => oBlockSize (W r) d t) X -> 0 <= c < nf ->
  unpack (W r) arrival recvBuf v
    (position (Topology._axis (topo_out (W r))) (onmem (W r)) nf
       (add3 (recv_origin (W r) t) X) c)
  = recvBuf (t * blockMemSize
             + bufpos ax0 (fun d => oBlockSize (W r) d t) nf X c).
Proof using Hinv.
  intros Hr Harr Ht HX Hc. unfold SwitchTopo_nb.unpack.
  pose proof Hinv as (Hnf12 & Hax0 & Hall).
  destruct (Hall r Hr) as (Hnf & _ & Hax & _ & _ & Hlaw & HN & _).
  apply (writes_hit _
           (fun p x => exists count,
              0 <= count < nblocks (recv_nBlock (W r))
              /\ unpack_stores (W r) recvBuf
                   (received_bid (W r) arrival count) p x)).
  - apply writes_for_range. intros count Hcount.
    apply unpack_block_writes. rewrite Hnf. exact Hnf12.
  - destruct (received_bid_all (descr r) r sign arrival t HN Harr Ht)
      as (count & Hcount & E).
    exists count. split; [exact Hcount|]. rewrite E.
    pose proof (unpack_stores_point localIndex localSplit blockMemSize
                  (W r) recvBuf t X c) as Hpt.
    cbv zeta in Hpt. rewrite Hax, Hnf in Hpt.
    apply Hpt; assumption.
  - intros y (count & Hcount & Hy).
    pose proof (received_bid_valid (descr r) r sign arrival count HN Harr
                  Hcount) as Ht'.
    cbv zeta in Ht'.
    set (t' := received_bid (W r) arrival count) in *.
    destruct (recv_block_size r t' Hr Ht') as (_ & Hpos & _).
    pose proof (unpack_stores_decode localIndex localSplit blockMemSize
                  (W r) recvBuf t'
                  (position (Topology._axis (topo_out (W r))) (onmem (W r)) nf
                     (add3 (recv_origin (W r) t) X) c) y) as Hdec.
    cbv zeta in Hdec. rewrite Hax, Hnf in Hdec.
    destruct (Hdec Hax0 Hlaw Hpos Hy) as (X' & c' & HX' & Hc' & Ep & ->).
    destruct (recv_place_unique r t t' X X' c c' Hr Ht Ht' HX HX' Hc Hc' Ep)
      as (<- & <- & <-).
    reflexivity.
Qed.

(** The places of the output memory that belong to no block hold zero. *)
Lemma unpack_miss (r : Z) (arrival : list Z) (recvBuf v : buffer D) (p : Z) :
  0 <= r < nranks -> arrival_ok (W r) arrival ->
  0 <= p < memsize (topo_out (W r)) ->
  (forall t X c,
     0 <= t < nblocks (recv_nBlock (W r)) ->
     in_box (fun d => oBlockSize (W r) d t) X -> 0 <= c < nf ->
     p <> position (Topology._axis (topo_out (W r))) (onmem (W r)) nf
            (add3 (recv_origin (W r) t) X) c) ->
  unpack (W r) arrival recvBuf v p = dzero.
Proof using Hinv.
  intros Hr Harr Hp Hout. unfold SwitchTopo_nb.unpack.
  pose proof Hinv as (Hnf12 & Hax0 & Hall).
  destruct (Hall r Hr) as (Hnf & _ & Hax & _ & _ & Hlaw & HN & _).
  rewrite (writes_miss _
             (fun p x => exists count,
                0 <= count < nblocks (recv_nBlock (W r))
                /\ unpack_stores (W r) recvBuf
                     (received_bid (W r) arrival count) p x)).
  - unfold memset_zero.
    destruct (Z.leb_spec 0 p); [|lia].
    destruct (Z.ltb_spec p (memsize (topo_out (W r)))); [|lia].
    reflexivity.
  - apply writes_for_range. intros count Hcount.
    apply unpack_block_writes. rewrite Hnf. exact Hnf12.
  - intros y (count & Hcount & Hy).
    pose proof (received_bid_valid (descr r) r sign arrival count HN Harr
                  Hcount) as Ht'.
    cbv zeta in Ht'.
    set (t' := received_bid (W r) arrival count) in *.
    destruct (recv_block_size r t' Hr Ht') as (_ & Hpos & _).
    pose proof (unpack_stores_decode localIndex localSplit blockMemSize
                  (W r) recvBuf t' p y) as Hdec.
    cbv zeta in Hdec. rewrite Hax, Hnf in Hdec.
    destruct (Hdec Hax0 Hlaw Hpos Hy) as (X' & c' & HX' & Hc' & Ep & _).
    apply (Hout t' X' c' Ht' HX' Hc'). exact Ep.
Qed.

(** *** The whole call *)

Lemma store_v (w : View) (f : buffer D) (bufs : buffer D * buffer D) :
  v (store w f bufs) = f.
Proof. unfold store. destruct (send_is_sendData w); reflexivity. Qed.

(** A block that a process keeps for itself has no request on the sending
    side either, and its tag is the block it becomes. *)
Lemma self_block_send (r t : Z) :
  0 <= r < nranks -> 0 <= t < nblocks (recv_nBlock (W r)) ->
  recvRequest (W r) t = None ->
  sendRequest (W r) (srcTag (descr r) sign t) = None
  /\ destTag (W r) (srcTag (descr r) sign t) = t.
Proof using Hinv.
  intros Hr Ht Hrq.
  destruct Hinv as (_ & _ & Hall).
  destruct (Hall r Hr) as (_ & _ & _ & _ & _ & _ & _ & _ & Hrecv & _).
  destruct (Hrecv t Ht) as (_ & _ & Hdest & _). cbv zeta in Hdest.
  unfold recv_src in Hdest. rewrite Hrq in Hdest.
  unfold send_dest in Hdest.
  destruct (sendRequest (W r) (srcTag (descr r) sign t)) as [rq'|] eqn:E.
  - destruct (sendRequest_view _ _ _ _ _ E) as [_ Hne].
    injection Hdest as Hp _. contradiction.
  - injection Hdest as Htag. split; [reflexivity | exact Htag].
Qed.

(** One call of [execute] returns on every process, and afterwards the
    field of each process holds, at the place of every scalar of every block
    it receives, the scalar that the source of the block held; the rest of
    the output memory holds zero. *)
Lemma execute_spec (arrival : Z -> list Z) (world : Z -> @Memory D) :
  (forall r, 0 <= r < nranks -> arrival_ok (W r) (arrival r)) ->
  exists world',
    execute dzero localIndex localSplit memsize blockMemSize nranks descr sign
      arrival world = Returns world'
    /\ forall r, 0 <= r < nranks ->
         (forall t X c,
            0 <= t < nblocks (recv_nBlock (W r)) ->
            in_box (fun d => oBlockSize (W r) d t) X -> 0 <= c < nf ->
            v (world' r)
              (position (Topology._axis (topo_out (W r))) (onmem (W r)) nf
                 (add3 (recv_origin (W r) t) X) c)
            = v (world (recv_src (W r) r t))
                (position ax0 (inmem (W (recv_src (W r) r t))) nf
                   (add3 (send_origin (W (recv_src (W r) r t))
                            (srcTag (descr r) sign t)) X) c))
         /\ (forall p,
               0 <= p < memsize (topo_out (W r)) ->
               (forall t X c,
                  0 <= t < nblocks (recv_nBlock (W r)) ->
                  in_box (fun d => oBlockSize (W r) d t) X -> 0 <= c < nf ->
                  p <> position (Topology._axis (topo_out (W r)))
                         (onmem (W r)) nf (add3 (recv_origin (W r) t) X) c) ->
               v (world' r) p = dzero).
Proof using Hinv.
  intros Harr.
  pose proof Hinv as (Hnf12 & Hax0 & Hall).
  unfold execute. cbv beta zeta.
  match goal with
  | |- context [negb (forallb ?f ?l)] => assert (E1 : forallb f l = true)
  end.
  { apply forallb_forall. intros r Hr. apply in_zrange in Hr.
    destruct (Hall r Hr) as (Hnf & Hnfo & _).
    unfold execute_checks, FLUPS_CHECK. rewrite Hnf, Hnfo.
    destruct Hnf12 as [-> | ->]; reflexivity. }
  rewrite E1. cbn [negb].
  match goal with
  | |- context [if forallb ?f ?l then _ else _] =>
      assert (E2 : forallb f l = true)
  end.
  { apply forallb_forall. intros r Hr. apply in_zrange in Hr.
    match goal with
    | |- context [receive ?B ?V ?S ?s ?R] =>
        destruct (receive_spec S s R Hr) as (R' & ER & _)
    end.
    rewrite ER. cbn [andb].
    apply forallb_forall. intros b Hb. apply in_zrange in Hb.
    apply (send_completes_spec r b Hr Hb). }
  rewrite E2.
  eexists. split; [reflexivity|].
  intros r Hr. cbv beta.
  match goal with
  | |- context [receive ?B ?V ?S ?s ?R] =>
      destruct (receive_spec S s R Hr) as (R' & ER & Hslots)
  end.
  rewrite ER. rewrite store_v. split.
  - intros t X c Ht HX Hc.
    rewrite (unpack_hit r t (arrival r) R' _ X c Hr (Harr r Hr) Ht HX Hc).
    destruct (recv_block_size r t Hr Ht) as (Hsize & Hpos & Hfit).
    pose proof (bufpos_bound ax0 (fun d => oBlockSize (W r) d t) nf X c
                  Hax0 HX Hc) as Hk. cbv beta in Hk.
    rewrite (Hslots t (bufpos ax0 (fun d => oBlockSize (W r) d t) nf X c) Ht)
      by lia.
    rewrite (bufpos_ext ax0 _ _ nf X c Hsize).
    assert (HX' : in_box
                    (fun d => iBlockSize (W (recv_src (W r) r t)) d
                                (srcTag (descr r) sign t)) X).
    { destruct HX as (A0 & A1 & A2). unfold in_box.
      rewrite <- !Hsize. auto. }
    destruct (Hall r Hr) as (_ & _ & _ & _ & _ & _ & _ & _ & Hrecv & _).
    destruct (Hrecv t Ht) as (Hs & Hb & Hdest & _). cbv zeta in Hs, Hb, Hdest.
    revert Hs Hb Hdest HX'. unfold recv_src.
    destruct (recvRequest (W r) t) as [rq|] eqn:Hrq; intros Hs Hb Hdest HX'.
    + destruct (recvRequest_view _ _ _ _ _ Hrq) as [_ Hpeer].
      destruct (send_dest_other _ _ _ _ _ Hdest ltac:(congruence))
        as (rq' & Hrq' & _).
      apply (packed_send (req_peer rq) _ _ _ X c Hs Hb); [congruence | | ];
        assumption.
    + destruct (self_block_send r t Hr Ht Hrq) as [Hnone Htag].
      rewrite <- Htag at 1.
      apply (packed_self r _ _ _ X c Hr Hb Hnone); assumption.
  - intros p Hp Hout.
    apply (unpack_miss r (arrival r) R' _ p Hr (Harr r Hr) Hp Hout).
Qed.
End Phases.

(** The block that comes back to a process in the backward direction comes
    from where the forward direction sent it. *)
Lemma backward_source (d : SwitchTopo_nb) (r b : Z) :
  recv_src (view d r Solver.FLUPS_BACKWARD) r b
  = fst (send_dest (view d r Solver.FLUPS_FORWARD) r b)
  /\ srcTag d Solver.FLUPS_BACKWARD b
     = snd (send_dest (view d r Solver.FLUPS_FORWARD) r b).
Proof.
  unfold recv_src, send_dest, srcTag. cbn.
  unfold _o2i_recvRequest, _i2o_sendRequest.
  destruct (_i2o_destRank d b =? r); split; reflexivity.
Qed.

(** X21.  When the blocks of the descriptors pair up in both directions
    ([exchange_invariant]), [execute] forward and then [execute] backward of
    the non-blocking transpose return on every process, in whatever order
    the messages arrive; afterwards every scalar of the shared zone of the
    input topology holds the value it had, and every other place of the
    local memory holds zero. *)
Theorem nb_forward_backward_restores_shared_zone {D : Type} (dzero : D)
  (localIndex : nat -> Z -> Z -> Z -> nat -> arr3 Z -> Z -> Z)
  (localSplit : Z -> arr3 Z -> nat -> Z -> arr3 Z)
  (memsize : Topology.Topology -> Z) (blockMemSize nranks : Z)
  (descr : Z -> SwitchTopo_nb) (nf : Z) (axin axout : nat)
  (arrival_fwd arrival_bwd : Z -> list Z) (world : Z -> @Memory D) :
  exchange_invariant localIndex localSplit blockMemSize nranks descr
    Solver.FLUPS_FORWARD nf axin ->
  exchange_invariant localIndex localSplit blockMemSize nranks descr
    Solver.FLUPS_BACKWARD nf axout ->
  (forall r, 0 <= r < nranks ->
     arrival_ok (view (descr r) r Solver.FLUPS_FORWARD) (arrival_fwd r)) ->
  (forall r, 0 <= r < nranks ->
     arrival_ok (view (descr r) r Solver.FLUPS_BACKWARD) (arrival_bwd r)) ->
  exists back,
    forward_backward dzero localIndex localSplit memsize blockMemSize nranks
      descr arrival_fwd arrival_bwd world = Returns back
    /\ forall r p, 0 <= r < nranks ->
         (shared_zone localIndex localSplit (descr r) p ->
          v (back r) p = v (world r) p)
         /\ (0 <= p < memsize (_topo_in (descr r)) ->
             ~ shared_zone localIndex localSplit (descr r) p ->
             v (back r) p = dzero).
Proof.
  intros HF HB HarrF HarrB.
  destruct (execute_spec dzero localIndex localSplit memsize blockMemSize
              nranks descr Solver.FLUPS_FORWARD nf axin HF arrival_fwd world
              HarrF) as (there & E1 & S1).
  destruct (execute_spec dzero localIndex localSplit memsize blockMemSize
              nranks descr Solver.FLUPS_BACKWARD nf axout HB arrival_bwd there
              HarrB) as (back & E2 & S2).
  exists back. split; [unfold forward_backward; rewrite E1; exact E2|].
  intros r p Hr.
  destruct (S2 r Hr) as [Hhit Hmiss].
  destruct HF as (_ & _ & HallF). destruct HB as (_ & _ & HallB).
  destruct (HallF r Hr) as (Hnf & _ & Hax & _ & _ & _ & _ & Hsend & _).
  cbn in Hnf, Hax.
  split.
  - intros (b & X & c & Hb & HX & Hc & ->).
    rewrite Hnf in Hc |- *.
    refine (eq_trans (Hhit b X c Hb HX Hc) _).
    destruct (backward_source (descr r) r b) as [-> ->].
    destruct (Hsend b Hb) as (Hs & Ht & Hsrc & Htag & Hsize & _).
    cbv zeta in Hs, Ht, Hsrc, Htag, Hsize.
    set (s := fst (send_dest (view (descr r) r Solver.FLUPS_FORWARD) r b)) in *.
    set (t := snd (send_dest (view (descr r) r Solver.FLUPS_FORWARD) r b)) in *.
    destruct (S1 s Hs) as [Hfwd _].
    assert (HX' : in_box
                    (fun d => oBlockSize (view (descr s) s Solver.FLUPS_FORWARD)
                                d t) X).
    { destruct HX as (A0 & A1 & A2). unfold in_box. rewrite !Hsize. auto. }
    specialize (Hfwd t X c Ht HX' Hc).
    rewrite Hsrc, Htag in Hfwd.
    destruct (HallB s Hs) as (_ & _ & HaxB & _).
    cbn in HaxB. rewrite <- HaxB. rewrite <- Hax in Hfwd. exact Hfwd.
  - intros Hp Hout. apply Hmiss; [exact Hp|].
    intros t X c Ht HX Hc E. apply Hout.
    exists t, X, c. rewrite Hnf.
    split; [exact Ht|]. split; [exact HX|]. split; [exact Hc|]. exact E.
Qed.

(** *** The pencil layout *)

(** The layout of [Examples.localIndex] orders the scalars of a memory as
    the copy loops order the scalars of a slot. *)
Lemma position_pencil (axis : nat) (nmem : arr3 Z) (nf : Z) (X : arr3 Z)
  (c : Z) :
  (axis < 3)%nat ->
  position Examples.localIndex axis nmem nf X c
  = bufpos axis (get3 nmem) nf X c.
Proof.
  intros Ha. unfold position, bufpos, Examples.localIndex.
  destruct X as [[x0 x1] x2].
  destruct axis as [|[|[|a]]]; [| | |lia]; cbn; ring.
Qed.

Lemma layout_law_pencil (axis : nat) (nmem : arr3 Z) (nf : Z) :
  (axis < 3)%nat -> layout_law Examples.localIndex axis nmem nf.
Proof.
  intros Ha. unfold layout_law. split; [|split; [|split]].
  - intros a i0 i1 i2 Hlt. unfold Examples.localIndex.
    destruct (unrot a i0 i1 i2) as [[x0 x1] x2]. reflexivity.
  - unfold Examples.localIndex.
    destruct axis as [|[|[|a]]]; [| | |lia].
    + exists nf, (get3 nmem 0 * nf), (get3 nmem 0 * nf * get3 nmem 1).
      intros. cbn. ring.
    + exists (get3 nmem 1 * nf * get3 nmem 2), nf, (get3 nmem 1 * nf).
      intros. cbn. ring.
    + exists (get3 nmem 2 * nf), (get3 nmem 2 * nf * get3 nmem 0), nf.
      intros. cbn. ring.
  - unfold Examples.localIndex.
    destruct axis as [|[|[|a]]]; [| | |lia]; cbn; ring.
  - intros X Y c c' HX HY Hc Hc' E.
    rewrite !position_pencil in E by exact Ha.
    apply (bufpos_injective axis (get3 nmem) nf X Y c c'); assumption.
Qed.

(** *** Two processes that exchange the halves of a 2 x 2 grid *)

Ltac boxes_apart :=
  first [ left; apply Z.leb_le; reflexivity
        | right; apply Z.leb_le; reflexivity ].

(** The descriptors of the two processes pair up in both directions. *)
Lemma transpose_xy_invariant (sign : Solver.PlanSign) :
  exchange_invariant Examples.localIndex Examples.localSplit 2 2
    Examples.transpose_xy sign 1
    (match sign with Solver.FLUPS_FORWARD => 0 | _ => 1 end)%nat.
Proof.
  unfold exchange_invariant. cbv zeta.
  split; [left; reflexivity|]. split; [destruct sign; lia|].
  intros r Hr. assert (Er : r = 0 \/ r = 1) by lia.
  split; [destruct sign; reflexivity|].
  split; [destruct sign; reflexivity|].
  split; [destruct sign; reflexivity|].
  split; [destruct sign; cbn; lia|].
  split; [apply layout_law_pencil; destruct sign; lia|].
  split; [apply layout_law_pencil; destruct sign; cbn; lia|].
  split; [destruct sign; destruct Er as [-> | ->]; reflexivity|].
  split; [|split].
  - intros b Hb.
    assert (Eb : b = 0 \/ b = 1)
      by (destruct sign; unfold nblocks in Hb; cbn in Hb; lia).
    destruct sign; destruct Er as [-> | ->]; destruct Eb as [-> | ->];
      cbn; repeat split; try reflexivity; try lia.
  - intros t Ht.
    assert (Et : t = 0 \/ t = 1)
      by (destruct sign; unfold nblocks in Ht; cbn in Ht; lia).
    destruct sign; destruct Er as [-> | ->]; destruct Et as [-> | ->];
      cbn; repeat split; try reflexivity; try lia;
      match goal with
      | H : (?d < 3)%nat |- _ =>
          destruct d as [|[|[|d]]]; [| | |lia]; apply Z.leb_le; reflexivity
      end.
  - intros t t' Ht Ht' Hne.
    assert (Et : t = 0 \/ t = 1)
      by (destruct sign; unfold nblocks in Ht; cbn in Ht; lia).
    assert (Et' : t' = 0 \/ t' = 1)
      by (destruct sign; unfold nblocks in Ht'; cbn in Ht'; lia).
    unfold disjoint_boxes.
    destruct sign; destruct Et as [-> | ->]; destruct Et' as [-> | ->];
      try lia;
      first [ exists 0%nat; split; [lia|]; boxes_apart
            | exists 1%nat; split; [lia|]; boxes_apart ].
Qed.

(** Each process waits for one message, the block of the other process. *)
Lemma transpose_xy_arrival (sign : Solver.PlanSign) (r : Z) :
  0 <= r < 2 ->
  arrival_ok (view (Examples.transpose_xy r) r sign) (Examples.arrival_xy r).
Proof.
  intros Hr. assert (Er : r = 0 \/ r = 1) by lia.
  unfold arrival_ok. split.
  - destruct sign; reflexivity.
  - intros t. split.
    + intros [<- | []].
      destruct sign; destruct Er as [-> | ->]; cbn;
        (split; [unfold nblocks; cbn; lia | discriminate]).
    + intros [Ht Hrq].
      assert (Et : t = 0 \/ t = 1)
        by (destruct sign; unfold nblocks in Ht; cbn in Ht; lia).
      destruct sign; destruct Er as [-> | ->]; destruct Et as [-> | ->];
        first [ left; reflexivity | exfalso; apply Hrq; reflexivity ].
Qed.

(** The four scalars of the grid are back in place. *)
Lemma nb_forward_backward_restores_shared_zone_witness :
  exists back,
    forward_backward 0 Examples.localIndex Examples.localSplit
      Examples.memsize 2 2 Examples.transpose_xy Examples.arrival_xy
      Examples.arrival_xy Examples.numbered_field = Returns back
    /\ v (back 0) 0 = 11 /\ v (back 0) 1 = 12
    /\ v (back 1) 0 = 21 /\ v (back 1) 1 = 22.
Proof.
  destruct (nb_forward_backward_restores_shared_zone 0 Examples.localIndex
              Examples.localSplit Examples.memsize 2 2 Examples.transpose_xy
              1 0%nat 1%nat Examples.arrival_xy Examples.arrival_xy
              Examples.numbered_field)
    as (back & Eback & Hback).
  - exact (transpose_xy_invariant Solver.FLUPS_FORWARD).
  - exact (transpose_xy_invariant Solver.FLUPS_BACKWARD).
  - exact (transpose_xy_arrival Solver.FLUPS_FORWARD).
  - exact (transpose_xy_arrival Solver.FLUPS_BACKWARD).
  - exists back. split; [exact Eback|].
    assert (Hzone : forall r b, 0 <= r < 2 -> b = 0 \/ b = 1 ->
              shared_zone Examples.localIndex Examples.localSplit
                (Examples.transpose_xy r) b).
    { intros r b Hr Hb. exists b, (0, 0, 0), 0.
      split; [unfold nblocks; cbn; lia|].
      split; [unfold in_box; cbn; lia|].
      split; [cbn; lia|].
      destruct Hb as [-> | ->]; reflexivity. }
    split; [exact (proj1 (Hback 0 0 ltac:(lia)) (Hzone 0 0 ltac:(lia) ltac:(lia)))|].
    split; [exact (proj1 (Hback 0 1 ltac:(lia)) (Hzone 0 1 ltac:(lia) ltac:(lia)))|].
    split; [exact (proj1 (Hback 1 0 ltac:(lia)) (Hzone 1 0 ltac:(lia) ltac:(lia)))|].
    exact (proj1 (Hback 1 1 ltac:(lia)) (Hzone 1 1 ltac:(lia) ltac:(lia))).
Defined.

(** *** One process and a padded pencil *)

Lemma transpose_point_invariant (sign : Solver.PlanSign) :
  exchange_invariant Examples.localIndex Examples.localSplit 2 1
    Examples.transpose_point sign 1 0%nat.
Proof.
  unfold exchange_invariant. cbv zeta.
  split; [left; reflexivity|]. split; [lia|].
  intros r Hr. assert (r = 0) as -> by lia.
  split; [destruct sign; reflexivity|].
  split; [destruct sign; reflexivity|].
  split; [destruct sign; reflexivity|].
  split; [destruct sign; cbn; lia|].
  split; [apply layout_law_pencil; lia|].
  split; [apply layout_law_pencil; destruct sign; cbn; lia|].
  split; [destruct sign; reflexivity|].
  split; [|split].
  - intros b Hb.
    assert (b = 0) as -> by (destruct sign; unfold nblocks in Hb; cbn in Hb; lia).
    destruct sign; cbn; repeat split; try reflexivity; try lia.
  - intros t Ht.
    assert (t = 0) as -> by (destruct sign; unfold nblocks in Ht; cbn in Ht; lia).
    destruct sign; cbn; repeat split; try reflexivity; try lia;
      match goal with
      | H : (?d < 3)%nat |- _ =>
          destruct d as [|[|[|d]]]; [| | |lia]; apply Z.leb_le; reflexivity
      end.
  - intros t t' Ht Ht' Hne. exfalso.
    destruct sign; unfold nblocks in Ht, Ht'; cbn in Ht, Ht'; lia.
Qed.

(** On a pencil of one point padded to two scalars the exchange keeps its
    invariant in both directions, and forward then backward turns the second
    scalar of the buffer, 12, into 0. *)
Lemma nb_forward_backward_zeroes_padding :
  exchange_invariant Examples.localIndex Examples.localSplit 2 1
    Examples.transpose_point Solver.FLUPS_FORWARD 1 0%nat
  /\ exchange_invariant Examples.localIndex Examples.localSplit 2 1
       Examples.transpose_point Solver.FLUPS_BACKWARD 1 0%nat
  /\ 0 <= 1 < Examples.memsize (_topo_in (Examples.transpose_point 0))
  /\ v (Examples.numbered_field 0) 1 = 12
  /\ field_after
       (forward_backward 0 Examples.localIndex Examples.localSplit
          Examples.memsize 2 1 Examples.transpose_point (fun _ => [])
          (fun _ => []) Examples.numbered_field) 0 1
     = Some 0.
Proof.
  split; [apply transpose_point_invariant|].
  split; [apply transpose_point_invariant|].
  split; [split; [apply Z.leb_le | apply Z.ltb_lt]; reflexivity|].
  split; vm_compute; reflexivity.
Qed.

End SwitchTopo_nbFacts.

(** ** SwitchTopo_a2a.cpp: the pack loop of [execute] *)

Module SwitchTopo_a2a_executeFacts.
Import SwitchTopo_a2a_execute.

(** C1.  The pack loop of the blocking transpose finds the rows of a block
    with the sizes it reads from [inloc], an array that [execute] never
    assigns.  For one block of two rows of two real points in a pencil along
    direction 0: the first row is packed from the places 0 and 1, the second
    row from the places [inloc[0]] and [inloc[0] + 1]; when the array holds
    the local sizes these are the places 2 and 3 of the second row, when it
    holds zeros the first row is packed twice and the second row is never
    sent. *)
Theorem a2a_pack_reads_unassigned_sizes {D : Type} (inloc : arr3 Z)
  (v data : buffer D) :
  let packed :=
    fill_block Examples.localIndex Examples.localSplit inloc 0 1
      (1, 1, 1) (0, 0, 0) (2, 2, 1) (fun d _ => get3 (2, 2, 1) d) v 0 0
      data in
  packed 0 = v 0 /\ packed 1 = v 1
  /\ packed 2 = v (get3 inloc 0) /\ packed 3 = v (get3 inloc 0 + 1)
  /\ (inloc = (2, 2, 1) -> packed 2 = v 2 /\ packed 3 = v 3)
  /\ (inloc = (0, 0, 0) -> packed 2 = v 0 /\ packed 3 = v 1).
Proof.
  cbv zeta. destruct inloc as [[n0 n1] n2].
  assert (E : forall body (s : buffer D),
            for_range 0 2 body s = body 1 (body 0 s)) by reflexivity.
  assert (H : forall p i,
            (p = 0 /\ i = 0) \/ (p = 1 /\ i = 1)
            \/ (p = 2 /\ i = n0) \/ (p = 3 /\ i = n0 + 1) ->
            fill_block Examples.localIndex Examples.localSplit (n0, n1, n2)
              0 1 (1, 1, 1) (0, 0, 0) (2, 2, 1)
              (fun d _ => get3 (2, 2, 1) d) v 0 0 data p = v i).
  { intros p i Hp. unfold fill_block. cbv zeta.
    change (Examples.localSplit 0 (1, 1, 1) 0 1) with ((0, 0, 0) : arr3 Z).
    change ((0 + 1) mod 3)%nat with 1%nat.
    change ((0 + 2) mod 3)%nat with 2%nat.
    cbn [get3].
    change (2 * 1) with 2. rewrite E. cbv beta. rewrite !E. cbv beta.
    unfold write, Examples.localIndex. cbv zeta.
    change ((0 + 1) mod 3)%nat with 1%nat.
    change ((0 + 2) mod 3)%nat with 2%nat.
    cbn [unrot get3].
    destruct Hp as [[-> ->]|[[-> ->]|[[-> ->]|[-> ->]]]];
      repeat match goal with
             | |- context [?a =? ?b] =>
                 let t := eval vm_compute in (a =? b) in
                 change (a =? b) with t; cbv iota
             end;
      f_equal;
      change (Z.rem 0 2) with 0; change (Z.quot 0 2) with 0;
      change (Z.rem 1 2) with 1; change (Z.quot 1 2) with 0; lia. }
  split; [apply H; auto|]. split; [apply H; auto|].
  cbn [get3].
  split; [apply H; auto|]. split; [apply H; auto 6|]. split.
  - intros [= -> _ _]. split; apply H; auto 6.
  - intros [= -> _ _]. split; apply H; auto 6.
Qed.

End SwitchTopo_a2a_executeFacts.

(** ** green_functions.hpp: the lattice Green's function file *)

Module green_functionsFacts.
Import green_functions.

(** A file that holds more than the kernel, 2000 samples, for the
    two-dimensional kernel: the reader asks for 32768 samples and gets the
    2000 of the file. *)
Lemma lgf_2d_does_not_read_N_squared :
  exists r,
    _lgf_readfile "kernel" Examples.lgf_fs 2 = Done r
    /\ lgf_N r = 32
    /\ lgf_size r = 32768
    /\ Z.of_nat (length (lgf_data r)) = 2000
    /\ lgf_size r <> lgf_N r * lgf_N r
    /\ Z.of_nat (length (lgf_data r)) <> lgf_N r * lgf_N r.
Proof.
  eexists. split; [vm_compute; reflexivity|].
  vm_compute. repeat split; discriminate.
Qed.






End green_functionsFacts.

(** ** Further properties of the code modelled above *)

Module SwitchTopoMore.
Import SwitchTopo SwitchTopoFacts.

(** X1.  On non-negative arguments the recursion of [gcd] stops before its
    fuel runs out and returns the greatest common divisor. *)
Theorem gcd_is_greatest_common_divisor (a b : Z) :
  0 <= a -> 0 <= b ->
  gcd a b = Z.gcd a b
  /\ forall fuel, (Z.to_nat a < fuel)%nat -> gcd_fuel fuel a b = gcd a b.
Proof.
  intros Ha Hb. split; [apply gcd_is_Zgcd; assumption|].
  intros fuel Hfuel. unfold gcd. apply gcd_fuel_enough; lia.
Qed.

Lemma gcd_is_greatest_common_divisor_witness :
  gcd 12 18 = Z.gcd 12 18
  /\ forall fuel, (Z.to_nat 12 < fuel)%nat -> gcd_fuel fuel 12 18 = gcd 12 18.
Proof. apply (gcd_is_greatest_common_divisor 12 18); lia. Defined.

Lemma exclusive_prefix_sum_length (from : Z) (n : list Z) :
  length (exclusive_prefix_sum from n) = length n.
Proof.
  revert from. induction n as [|c n IH]; intros from; [reflexivity|].
  cbn. rewrite IH. reflexivity.
Qed.

Lemma exclusive_prefix_sum_step (from : Z) (n : list Z) (i : nat) :
  (S i < length n)%nat ->
  exclusive_prefix_sum from n !!! S i
  = exclusive_prefix_sum from n !!! i + n !!! i.
Proof.
  revert from i. induction n as [|c n IH]; intros from i Hi; [cbn in Hi; lia|].
  cbn in Hi. destruct n as [|c' n]; [cbn in Hi; lia|].
  destruct i as [|i].
  - cbn. reflexivity.
  - change (exclusive_prefix_sum from (c :: c' :: n) !!! S (S i))
      with (exclusive_prefix_sum (from + c) (c' :: n) !!! S i).
    change (exclusive_prefix_sum from (c :: c' :: n) !!! S i)
      with (exclusive_prefix_sum (from + c) (c' :: n) !!! i).
    change ((c :: c' :: n) !!! S i) with ((c' :: n) !!! i).
    apply IH. cbn in *. lia.
Qed.

Lemma cmpt_start_length (comm_size : nat) (n : list Z) :
  length (cmpt_start comm_size n) = comm_size.
Proof.
  unfold cmpt_start.
  apply (for_each_ind (fun s => length s = comm_size)).
  - apply length_replicate.
  - intros i s _ Hs. rewrite length_insert. exact Hs.
Qed.

Lemma exclusive_prefix_sum_bound (from : Z) (n : list Z) (i : nat) :
  Forall (fun c => 0 <= c) n ->
  (i < length n)%nat ->
  from <= exclusive_prefix_sum from n !!! i
  /\ 0 <= n !!! i
  /\ exclusive_prefix_sum from n !!! i + n !!! i
     <= from + fold_right Z.add 0 n.
Proof.
  revert from i. induction n as [|c n IH]; intros from i Hn Hi;
    [cbn in Hi; lia|].
  apply Forall_cons in Hn as [Hc Hn].
  assert (Hsum : 0 <= fold_right Z.add 0 n).
  { clear -Hn. induction Hn; cbn; lia. }
  destruct i as [|i].
  - cbn. lia.
  - cbn in Hi.
    change (exclusive_prefix_sum from (c :: n) !!! S i)
      with (exclusive_prefix_sum (from + c) n !!! i).
    change ((c :: n) !!! S i) with (n !!! i).
    destruct (IH (from + c) i Hn ltac:(lia)) as (H1 & H2 & H3).
    cbn [fold_right]. lia.
Qed.

(** X2.  When the counts are not negative and their sum fits an [int], the
    start offsets that the reference transpose computes are the exclusive
    prefix sums of its counts: each offset is the sum of the counts of the
    ranks before. *)
Theorem reference_start_is_exclusive_prefix_sum (n : list Z) :
  Forall (fun c => 0 <= c) n ->
  fold_right Z.add 0 n <= INT_MAX ->
  cmpt_start (length n) n = exclusive_prefix_sum 0 n.
Proof.
  intros Hn Hmax.
  apply list_eq_same_length with (n := length n).
  - apply exclusive_prefix_sum_length.
  - apply cmpt_start_length.
  - intros i x y Hi Hx Hy.
    apply list_lookup_total_correct in Hx, Hy. subst x y.
    induction i as [|i IH].
    + destruct n as [|c n]; [cbn in Hi; lia|].
      destruct (cmpt_start_exclusive (length (c :: n)) (c :: n)
                  ltac:(cbn; lia)) as [E0 _].
      rewrite E0. reflexivity.
    + destruct (cmpt_start_exclusive (length n) n ltac:(lia)) as [_ Estep].
      rewrite (Estep (S i)) by lia.
      rewrite exclusive_prefix_sum_step by lia.
      replace (S i - 1)%nat with i by lia.
      rewrite IH by lia.
      destruct (exclusive_prefix_sum_bound 0 n i Hn ltac:(lia))
        as (H1 & H2 & H3).
      apply TopologyFacts.to_int_small. unfold INT_MAX in Hmax. lia.
Qed.

Lemma reference_start_is_exclusive_prefix_sum_witness :
  cmpt_start 3 [4; 0; 7] = [0; 4; 4].
Proof.
  apply (reference_start_is_exclusive_prefix_sum [4; 0; 7]).
  - repeat constructor; lia.
  - vm_compute. discriminate.
Defined.

End SwitchTopoMore.

Module TopologyMore.
Import Topology TopologyFacts.




End TopologyMore.

Module SwitchTopo_nbMore.
Import SwitchTopo_nb SwitchTopo_nbFacts.

(** X4.  One call of [execute] of the non-blocking transpose, in either
    direction: when the blocks of the descriptors pair up, the call returns
    on every process, and the field of every process then holds, at the
    place of each scalar of each block it receives, the scalar that the
    process the block comes from held at its place in the block; every other
    place of the output memory holds zero. *)
Theorem nb_execute_moves_every_block {D : Type} (dzero : D)
  (localIndex : nat -> Z -> Z -> Z -> nat -> arr3 Z -> Z -> Z)
  (localSplit : Z -> arr3 Z -> nat -> Z -> arr3 Z)
  (memsize : Topology.Topology -> Z) (blockMemSize nranks : Z)
  (descr : Z -> SwitchTopo_nb) (sign : Solver.PlanSign) (nf : Z) (ax0 : nat)
  (arrival : Z -> list Z) (world : Z -> @Memory D) :
  exchange_invariant localIndex localSplit blockMemSize nranks descr sign nf
    ax0 ->
  (forall r, 0 <= r < nranks ->
     arrival_ok (view (descr r) r sign) (arrival r)) ->
  exists world',
    execute dzero localIndex localSplit memsize blockMemSize nranks descr sign
      arrival world = Returns world'
    /\ forall r, 0 <= r < nranks ->
         let w := view (descr r) r sign in
         (forall t X c,
            0 <= t < nblocks (recv_nBlock w) ->
            in_box (fun d => oBlockSize w d t) X -> 0 <= c < nf ->
            let s := recv_src w r t in
            let ws := view (descr s) s sign in
            v (world' r)
              (position localIndex (Topology._axis (topo_out w)) (onmem w) nf
                 (add3 (recv_origin localSplit w t) X) c)
            = v (world s)
                (position localIndex ax0 (inmem ws) nf
                   (add3 (send_origin localSplit ws (srcTag (descr r) sign t))
                      X) c))
         /\ (forall p,
               0 <= p < memsize (topo_out w) ->
               (forall t X c,
                  0 <= t < nblocks (recv_nBlock w) ->
                  in_box (fun d => oBlockSize w d t) X -> 0 <= c < nf ->
                  p <> position localIndex (Topology._axis (topo_out w))
                         (onmem w) nf
                         (add3 (recv_origin localSplit w t) X) c) ->
               v (world' r) p = dzero).
Proof.
  intros Hinv Harr.
  destruct (execute_spec dzero localIndex localSplit memsize blockMemSize
              nranks descr sign nf ax0 Hinv arrival world Harr)
    as (world' & E & H).
  exists world'. split; [exact E|]. intros r Hr. cbv zeta.
  apply (H r Hr).
Qed.

Lemma nb_execute_moves_every_block_witness :
  exists world',
    execute 0 Examples.localIndex Examples.localSplit Examples.memsize 2 2
      Examples.transpose_xy Solver.FLUPS_FORWARD Examples.arrival_xy
      Examples.numbered_field = Returns world'
    /\ v (world' 0) 0 = 11 /\ v (world' 0) 1 = 21
    /\ v (world' 1) 0 = 12 /\ v (world' 1) 1 = 22.
Proof.
  destruct (nb_execute_moves_every_block 0 Examples.localIndex
              Examples.localSplit Examples.memsize 2 2 Examples.transpose_xy
              Solver.FLUPS_FORWARD 1 0%nat Examples.arrival_xy
              Examples.numbered_field
              (transpose_xy_invariant Solver.FLUPS_FORWARD)
              (transpose_xy_arrival Solver.FLUPS_FORWARD))
    as (world' & E & H).
  exists world'. split; [exact E|].
  assert (Hbox : in_box (fun _ : nat => 1) (0, 0, 0))
    by (unfold in_box; cbn; lia).
  split; [exact (proj1 (H 0 ltac:(lia)) 0 (0, 0, 0) 0
                   ltac:(unfold nblocks; cbn; lia) Hbox ltac:(lia))|].
  split; [exact (proj1 (H 0 ltac:(lia)) 1 (0, 0, 0) 0
                   ltac:(unfold nblocks; cbn; lia) Hbox ltac:(lia))|].
  split; [exact (proj1 (H 1 ltac:(lia)) 0 (0, 0, 0) 0
                   ltac:(unfold nblocks; cbn; lia) Hbox ltac:(lia))|].
  exact (proj1 (H 1 ltac:(lia)) 1 (0, 0, 0) 0
           ltac:(unfold nblocks; cbn; lia) Hbox ltac:(lia)).
Defined.

(** X5.  [execute] aborts, in either direction, as soon as on one process one
    of the two topologies is complex and the other is real. *)
Theorem nb_execute_aborts_on_mixed_kinds {D : Type} (dzero : D)
  (localIndex : nat -> Z -> Z -> Z -> nat -> arr3 Z -> Z -> Z)
  (localSplit : Z -> arr3 Z -> nat -> Z -> arr3 Z)
  (memsize : Topology.Topology -> Z) (blockMemSize nranks : Z)
  (descr : Z -> SwitchTopo_nb) (sign : Solver.PlanSign)
  (arrival : Z -> list Z) (world : Z -> @Memory D) (r : Z) :
  0 <= r < nranks ->
  (Topology._nf (_topo_in (descr r)) =? 2)
  <> (Topology._nf (_topo_out (descr r)) =? 2) ->
  exists msg,
    execute dzero localIndex localSplit memsize blockMemSize nranks descr sign
      arrival world = Aborts msg.
Proof.
  intros Hr Hkind. unfold execute. cbv beta zeta.
  match goal with
  | |- context [negb (forallb ?f ?l)] => assert (E : forallb f l = false)
  end.
  { apply not_true_is_false. intros Hall.
    rewrite forallb_forall in Hall.
    specialize (Hall r ltac:(apply in_zrange; lia)).
    unfold execute_checks, FLUPS_CHECK in Hall.
    destruct sign; cbn in Hall;
      destruct (Topology._nf (_topo_in (descr r)) =? 2);
      destruct (Topology._nf (_topo_out (descr r)) =? 2);
      cbn in Hall; congruence. }
  rewrite E. eexists. reflexivity.
Qed.

Lemma nb_execute_aborts_on_mixed_kinds_witness :
  exists msg,
  execute 0 Examples.localIndex Examples.localSplit Examples.memsize 2 1
    (fun _ =>
       {| _topo_in := Examples.pencil 0 (1, 1, 1);
          _topo_out :=
            {| Topology._axis := 1; Topology._nf := 2;
               Topology._alignment := 16; Topology._nloc := (1, 1, 1);
               Topology._nmem := (1, 1, 1) |};
          _nByBlock := (1, 1, 1); _istart := (0, 0, 0); _ostart := (0, 0, 0);
          _inBlock := (1, 1, 1); _onBlock := (1, 1, 1);
          _iBlockSize := fun _ _ => 1; _oBlockSize := fun _ _ => 1;
          _i2o_destRank := fun _ => 0; _o2i_destRank := fun _ => 0;
          _i2o_destTag := fun _ => 0; _o2i_destTag := fun _ => 0;
          _selfBlockN := 1 |})
    Solver.FLUPS_BACKWARD (fun _ => []) Examples.numbered_field
  = Aborts msg.
Proof.
  apply (nb_execute_aborts_on_mixed_kinds 0 Examples.localIndex
           Examples.localSplit Examples.memsize 2 1 _ Solver.FLUPS_BACKWARD
           (fun _ => []) Examples.numbered_field 0).
  - lia.
  - cbn. discriminate.
Defined.

End SwitchTopo_nbMore.

(** ** Topology.cpp: the shared zone *)

Module TopologyIntersectFacts.
Import Topology TopologyIntersect.

(** The loop in closed form. *)
Lemma cmpt_intersect_id_dim_closed (nloc start_id shift onglob : Z) :
  let g0 := start_id + shift in
  cmpt_intersect_id_dim nloc start_id shift onglob
  = (if nloc <=? 0 then 0 else Z.max 0 (Z.min (- g0) (nloc - 1)),
     Z.max 0 (Z.min nloc (onglob - g0))).
Proof.
  intros g0. unfold cmpt_intersect_id_dim.
  destruct (Z.leb_spec nloc 0) as [Hn|Hn].
  { rewrite for_range_empty by lia. f_equal. lia. }
  assert (H : forall k, 0 <= k <= nloc ->
            for_range 0 k (intersect_step start_id shift onglob) (0, 0)
            = (if k <=? 0 then 0 else Z.max 0 (Z.min (- g0) (k - 1)),
               Z.max 0 (Z.min k (onglob - g0)))).
  { intros k Hk.
    apply (for_range_ind
             (fun k se => se
                = (if k <=? 0 then 0 else Z.max 0 (Z.min (- g0) (k - 1)),
                   Z.max 0 (Z.min k (onglob - g0))))); [lia | | ].
    - cbn. f_equal. lia.
    - intros i se Hi ->. unfold intersect_step. cbn [fst snd].
      destruct (Z.leb_spec (i + 1) 0); [lia|].
      f_equal.
      + destruct (Z.leb_spec (start_id + i + shift) 0);
          destruct (Z.leb_spec i 0); subst g0; lia.
      + destruct (Z.ltb_spec (start_id + i + shift) onglob); subst g0; lia. }
  rewrite (H nloc) by lia.
  destruct (Z.leb_spec nloc 0); [lia | reflexivity].
Qed.

(** X6.  When the two topologies are of the same kind and, in every
    direction, the last local point does not lie before the origin of the
    other topology, [cmpt_intersect_id] returns the range of the local
    indices whose point, shifted, is a point of the other topology. *)
Theorem intersect_is_the_shared_range (t : Topology)
  (cmpt_start_id : nat -> Z) (shift : arr3 Z) (other : Topology)
  (other_nglob : arr3 Z) :
  (_nf t =? 2) = (_nf other =? 2) ->
  (forall id, (id < 3)%nat ->
     0 <= cmpt_start_id id + (get3 (_nloc t) id - 1) + get3 shift id) ->
  exists start end_,
    cmpt_intersect_id t cmpt_start_id shift other other_nglob
    = Done (start, end_)
    /\ forall id i, (id < 3)%nat ->
         (get3 start id <= i < get3 end_ id
          <-> 0 <= i < get3 (_nloc t) id
              /\ 0 <= cmpt_start_id id + i + get3 shift id
                 < get3 other_nglob id).
Proof.
  intros Hkind Hlast. unfold cmpt_intersect_id, FLUPS_CHECK.
  rewrite Hkind, eqb_reflx.
  eexists _, _. split; [reflexivity|].
  intros id i Hid.
  specialize (Hlast id Hid).
  assert (E : forall d, (d < 3)%nat ->
            get3 (fst (cmpt_intersect_id_dim (get3 (_nloc t) 0)
                         (cmpt_start_id 0%nat) (get3 shift 0)
                         (get3 other_nglob 0)),
                  fst (cmpt_intersect_id_dim (get3 (_nloc t) 1)
                         (cmpt_start_id 1%nat) (get3 shift 1)
                         (get3 other_nglob 1)),
                  fst (cmpt_intersect_id_dim (get3 (_nloc t) 2)
                         (cmpt_start_id 2%nat) (get3 shift 2)
                         (get3 other_nglob 2))) d
            = fst (cmpt_intersect_id_dim (get3 (_nloc t) d) (cmpt_start_id d)
                     (get3 shift d) (get3 other_nglob d))
            /\ get3 (snd (cmpt_intersect_id_dim (get3 (_nloc t) 0)
                            (cmpt_start_id 0%nat) (get3 shift 0)
                            (get3 other_nglob 0)),
                     snd (cmpt_intersect_id_dim (get3 (_nloc t) 1)
                            (cmpt_start_id 1%nat) (get3 shift 1)
                            (get3 other_nglob 1)),
                     snd (cmpt_intersect_id_dim (get3 (_nloc t) 2)
                            (cmpt_start_id 2%nat) (get3 shift 2)
                            (get3 other_nglob 2))) d
               = snd (cmpt_intersect_id_dim (get3 (_nloc t) d)
                        (cmpt_start_id d) (get3 shift d)
                        (get3 other_nglob d))).
  { intros d Hd. destruct d as [|[|[|d]]]; [| | |lia]; split; reflexivity. }
  destruct (E id Hid) as [-> ->].
  rewrite cmpt_intersect_id_dim_closed. cbn [fst snd].
  destruct (Z.leb_spec (get3 (_nloc t) id) 0); lia.
Qed.

Lemma intersect_is_the_shared_range_witness :
  exists start end_,
    cmpt_intersect_id (Examples.pencil 0 (4, 1, 1)) (fun _ => 0) (-2, 0, 0)
      (Examples.pencil 0 (8, 1, 1)) (8, 1, 1)
    = Done (start, end_)
    /\ forall id i, (id < 3)%nat ->
         (get3 start id <= i < get3 end_ id
          <-> 0 <= i < get3 (_nloc (Examples.pencil 0 (4, 1, 1))) id
              /\ 0 <= 0 + i + get3 (-2, 0, 0) id < get3 (8, 1, 1) id).
Proof.
  apply (intersect_is_the_shared_range (Examples.pencil 0 (4, 1, 1))
           (fun _ => 0) (-2, 0, 0) (Examples.pencil 0 (8, 1, 1)) (8, 1, 1)).
  - reflexivity.
  - intros id Hid. destruct id as [|[|[|id]]]; cbn; lia.
Defined.

(** X7.  When every local point of a direction lies before the origin of the
    other topology, the range that [cmpt_intersect_id] returns for this
    direction is not empty: it holds the last local point. *)
Theorem intersect_before_origin_keeps_last_point
  (nloc start_id shift onglob : Z) :
  0 < nloc -> start_id + (nloc - 1) + shift < 0 -> 0 <= onglob ->
  cmpt_intersect_id_dim nloc start_id shift onglob = (nloc - 1, nloc).
Proof.
  intros Hn Hlast Hglob. rewrite cmpt_intersect_id_dim_closed.
  destruct (Z.leb_spec nloc 0); [lia|]. f_equal; lia.
Qed.

Lemma intersect_before_origin_keeps_last_point_witness :
  cmpt_intersect_id_dim 4 0 (-10) 8 = (3, 4).
Proof.
  apply (intersect_before_origin_keeps_last_point 4 0 (-10) 8); lia.
Defined.

End TopologyIntersectFacts.

(** ** SwitchTopo.hpp: the size of the staging buffers *)

Module SwitchTopoMemoryFacts.
Import SwitchTopoMemory.

Lemma size_t_small (x : Z) : 0 <= x < 2 ^ 64 -> to_size_t x = x.
Proof. intros H. unfold to_size_t. apply Z.mod_small. exact H. Qed.

Lemma round_up_spec (k x : Z) :
  0 < k -> x <= round_up k x < x + k /\ round_up k x mod k = 0.
Proof.
  intros Hk. unfold round_up.
  pose proof (Z.div_mod (x + k - 1) k ltac:(lia)) as Hdm.
  pose proof (Z.mod_pos_bound (x + k - 1) k Hk) as Hm.
  split; [lia|].
  rewrite Z.mul_comm. apply Z.mod_mul. lia.
Qed.

Lemma round_up_cases (k x : Z) :
  0 < k ->
  round_up k x = if x mod k =? 0 then x else x + (k - x mod k).
Proof.
  intros Hk. unfold round_up.
  pose proof (Z.div_mod x k ltac:(lia)) as Hdm.
  pose proof (Z.mod_pos_bound x k Hk) as Hm.
  destruct (Z.eqb_spec (x mod k) 0) as [E|E].
  - replace (x + k - 1) with ((k - 1) + (x / k) * k) by lia.
    rewrite Z.div_add by lia. rewrite Z.div_small by lia. lia.
  - replace (x + k - 1) with ((x mod k - 1) + (x / k + 1) * k) by lia.
    rewrite Z.div_add by lia. rewrite Z.div_small by lia. lia.
Qed.

(** The product of the three extents and [nf], as [size_t] computes it. *)
Lemma block_scalars_size_t (ib nf : Z) (blockSize : nat -> Z -> Z) :
  (forall d : nat, (d < 3)%nat -> 0 <= blockSize d ib <= INT_MAX) -> 0 <= nf <= INT_MAX ->
  block_scalars nf blockSize ib < 2 ^ 64 ->
  to_size_t
    (to_size_t
       (to_size_t (to_size_t (blockSize 0%nat ib)
                   * to_size_t (blockSize 1%nat ib))
        * to_size_t (blockSize 2%nat ib))
     * to_size_t nf)
  = block_scalars nf blockSize ib.
Proof.
  intros Hpos Hnf Hfit. unfold block_scalars in *. unfold INT_MAX in *.
  pose proof (Hpos 0%nat ltac:(lia)) as H0.
  pose proof (Hpos 1%nat ltac:(lia)) as H1.
  pose proof (Hpos 2%nat ltac:(lia)) as H2.
  set (b0 := blockSize 0%nat ib) in *. set (b1 := blockSize 1%nat ib) in *.
  set (b2 := blockSize 2%nat ib) in *.
  rewrite (size_t_small b0), (size_t_small b1), (size_t_small b2),
    (size_t_small nf) by lia.
  rewrite (size_t_small (b0 * b1)) by nia.
  destruct (Z.eq_dec nf 0) as [->|Hnf0].
  - rewrite !Z.mul_0_r. reflexivity.
  - assert (0 <= b0 * b1 * b2) by nia.
    assert (b0 * b1 * b2 <= b0 * b1 * b2 * nf) by nia.
    rewrite (size_t_small (b0 * b1 * b2)) by lia.
    apply size_t_small. nia.
Qed.

(** The function without the conversions. *)
Lemma get_blockMemSize_closed (FLUPS_ALIGNMENT k ib nf : Z)
  (blockSize : nat -> Z -> Z) :
  0 < k -> FLUPS_ALIGNMENT = sizeof_double * k ->
  (forall d : nat, (d < 3)%nat -> 0 <= blockSize d ib <= INT_MAX) -> 0 <= nf <= INT_MAX ->
  block_scalars nf blockSize ib * sizeof_double + FLUPS_ALIGNMENT < 2 ^ 64 ->
  get_blockMemSize FLUPS_ALIGNMENT ib nf blockSize
  = Done (round_up k (block_scalars nf blockSize ib)).
Proof.
  intros Hk Hal Hpos Hnf Hfit. unfold get_blockMemSize.
  assert (HV : 0 <= block_scalars nf blockSize ib).
  { unfold block_scalars. pose proof (Hpos 0%nat ltac:(lia)).
    pose proof (Hpos 1%nat ltac:(lia)). pose proof (Hpos 2%nat ltac:(lia)).
    assert (0 <= blockSize 0%nat ib * blockSize 1%nat ib) by nia.
    assert (0 <= blockSize 0%nat ib * blockSize 1%nat ib * blockSize 2%nat ib)
      by nia.
    nia. }
  unfold sizeof_double in *.
  rewrite block_scalars_size_t by (first [assumption | lia]).
  set (V := block_scalars nf blockSize ib) in *.
  rewrite (size_t_small FLUPS_ALIGNMENT) by lia.
  rewrite (size_t_small (V * 8)) by lia.
  pose proof (Z.mod_pos_bound V k Hk) as Hm.
  assert (Emod : (V * 8) mod FLUPS_ALIGNMENT = 8 * (V mod k)).
  { rewrite Hal. replace (V * 8) with (8 * V) by lia.
    rewrite Z.mul_mod_distr_l by lia. reflexivity. }
  rewrite Emod.
  rewrite (round_up_cases k V Hk).
  assert (Ez : (8 * (V mod k) =? 0) = (V mod k =? 0)).
  { destruct (Z.eqb_spec (V mod k) 0) as [E|E]; [rewrite E; reflexivity|].
    apply Z.eqb_neq. lia. }
  rewrite Ez.
  destruct (Z.eqb_spec (V mod k) 0) as [E|E].
  - rewrite Z.add_0_r. rewrite (size_t_small V) by lia.
    rewrite (size_t_small (V * 8)) by lia.
    rewrite Emod, E. reflexivity.
  - rewrite (size_t_small (FLUPS_ALIGNMENT - 8 * (V mod k))) by lia.
    replace (FLUPS_ALIGNMENT - 8 * (V mod k)) with ((k - V mod k) * 8) by lia.
    rewrite Z.div_mul by lia.
    rewrite (size_t_small (V + (k - V mod k))) by lia.
    rewrite (size_t_small ((V + (k - V mod k)) * 8)) by lia.
    assert (E0 : ((V + (k - V mod k)) * 8) mod FLUPS_ALIGNMENT = 0).
    { pose proof (Z.div_mod V k ltac:(lia)) as Hdm.
      replace ((V + (k - V mod k)) * 8) with ((V / k + 1) * FLUPS_ALIGNMENT)
        by lia.
      apply Z.mod_mul. lia. }
    rewrite E0. reflexivity.
Qed.

(** X8.  For an alignment of [k] scalars, [get_blockMemSize] passes its check
    and returns the scalars of the block rounded up to a multiple of [k]:
    the block fits, less than [k] scalars are added, and the slot takes a
    whole number of alignments. *)
Theorem blockMemSize_is_padded_volume (FLUPS_ALIGNMENT k ib nf : Z)
  (blockSize : nat -> Z -> Z) :
  0 < k -> FLUPS_ALIGNMENT = sizeof_double * k ->
  (forall d : nat, (d < 3)%nat -> 0 <= blockSize d ib <= INT_MAX) -> 0 <= nf <= INT_MAX ->
  block_scalars nf blockSize ib * sizeof_double + FLUPS_ALIGNMENT < 2 ^ 64 ->
  exists size,
    get_blockMemSize FLUPS_ALIGNMENT ib nf blockSize = Done size
    /\ block_scalars nf blockSize ib <= size
       < block_scalars nf blockSize ib + k
    /\ (size * sizeof_double) mod FLUPS_ALIGNMENT = 0.
Proof.
  intros Hk Hal Hpos Hnf Hfit.
  exists (round_up k (block_scalars nf blockSize ib)).
  split; [apply get_blockMemSize_closed; assumption|].
  destruct (round_up_spec k (block_scalars nf blockSize ib) Hk) as [Hb Hm].
  split; [exact Hb|].
  rewrite Hal. rewrite (Z.mul_comm _ sizeof_double).
  unfold sizeof_double. rewrite Z.mul_mod_distr_l by lia. rewrite Hm. reflexivity.
Qed.

Lemma blockMemSize_is_padded_volume_witness :
  exists size,
    get_blockMemSize 32 0 2 (fun d _ => Z.of_nat d + 1) = Done size
    /\ block_scalars 2 (fun d _ => Z.of_nat d + 1) 0 <= size
       < block_scalars 2 (fun d _ => Z.of_nat d + 1) 0 + 4
    /\ (size * sizeof_double) mod 32 = 0.
Proof.
  apply (blockMemSize_is_padded_volume 32 4 0 2 (fun d _ => Z.of_nat d + 1)).
  - lia.
  - reflexivity.
  - intros d Hd. unfold INT_MAX. lia.
  - unfold INT_MAX. lia.
  - vm_compute. reflexivity.
Defined.

(** *** The buffer of a transpose *)

Lemma zrange_snoc (n : Z) : 0 <= n -> zrange 0 (n + 1) = zrange 0 n ++ [n].
Proof.
  intros Hn. unfold zrange.
  replace (Z.to_nat (n + 1 - 0)) with (S (Z.to_nat (n - 0))) by lia.
  rewrite seq_S, List.map_app. cbn [List.map]. f_equal. f_equal. lia.
Qed.

Lemma sum_below_0 (f : Z -> Z) : sum_below 0 f = 0.
Proof. reflexivity. Qed.

Lemma sum_below_succ (n : Z) (f : Z -> Z) :
  0 <= n -> sum_below (n + 1) f = sum_below n f + f n.
Proof.
  intros Hn. unfold sum_below. rewrite zrange_snoc by exact Hn.
  rewrite List.map_app, fold_right_app. cbn [List.map fold_right].
  generalize (List.map f (zrange 0 n)) as l.
  induction l as [|x l IH]; cbn [fold_right]; lia.
Qed.

Lemma sum_below_mono (n m : Z) (f : Z -> Z) :
  (forall i, 0 <= i < m -> 0 <= f i) -> 0 <= n <= m ->
  0 <= sum_below n f <= sum_below m f.
Proof.
  intros Hf Hnm.
  assert (H0 : forall j, 0 <= j <= m -> 0 <= sum_below j f).
  { intros j Hj. rewrite <- (Z2Nat.id j) by lia.
    assert (Hj' : (Z.to_nat j <= Z.to_nat m)%nat) by lia.
    induction (Z.to_nat j) as [|a IH]; [rewrite sum_below_0; lia|].
    rewrite Nat2Z.inj_succ, <- Z.add_1_r, sum_below_succ by lia.
    specialize (IH ltac:(lia)). specialize (Hf (Z.of_nat a) ltac:(lia)). lia. }
  split; [apply H0; lia|].
  replace m with (n + Z.of_nat (Z.to_nat (m - n))) by lia.
  assert (Hb : (Z.to_nat (m - n) <= Z.to_nat (m - n))%nat) by lia.
  revert Hb. generalize (Z.to_nat (m - n)) at 1 3 as a.
  induction a as [|a IH]; intros Hb; [rewrite Z.add_0_r; lia|].
  rewrite Nat2Z.inj_succ, <- Z.add_1_r, Z.add_assoc, sum_below_succ by lia.
  specialize (IH ltac:(lia)).
  specialize (Hf (n + Z.of_nat a) ltac:(lia)). lia.
Qed.

(** One of the two loops: the total grows by the slots of the blocks, each
    taken [lda] times. *)
Lemma add_blocks_closed (FLUPS_ALIGNMENT k nf lda nBlock total : Z)
  (blockSize : nat -> Z -> Z) :
  0 < k -> FLUPS_ALIGNMENT = sizeof_double * k ->
  0 <= nf <= INT_MAX -> 0 <= lda <= INT_MAX -> 0 <= total ->
  (forall ib, 0 <= ib < nBlock ->
     (forall d : nat, (d < 3)%nat -> 0 <= blockSize d ib <= INT_MAX)
     /\ block_scalars nf blockSize ib * sizeof_double + FLUPS_ALIGNMENT
        < 2 ^ 64) ->
  total
  + lda * sum_below nBlock (fun ib => round_up k (block_scalars nf blockSize ib))
  < 2 ^ 64 ->
  for_range 0 nBlock (add_block FLUPS_ALIGNMENT nf lda blockSize) (Done total)
  = Done (total
          + lda * sum_below nBlock
                    (fun ib => round_up k (block_scalars nf blockSize ib))).
Proof.
  intros Hk Hal Hnf Hlda Htot Hblocks Hfit.
  set (f := fun ib => round_up k (block_scalars nf blockSize ib)) in *.
  assert (Hf : forall ib, 0 <= ib < nBlock -> 0 <= f ib).
  { intros ib Hib. unfold f.
    destruct (Hblocks ib Hib) as [Hpos _].
    pose proof (round_up_spec k (block_scalars nf blockSize ib) Hk) as [Hb _].
    assert (0 <= block_scalars nf blockSize ib); [|lia].
    unfold block_scalars. pose proof (Hpos 0%nat ltac:(lia)).
    pose proof (Hpos 1%nat ltac:(lia)). pose proof (Hpos 2%nat ltac:(lia)).
    assert (0 <= blockSize 0%nat ib * blockSize 1%nat ib) by nia.
    assert (0 <= blockSize 0%nat ib * blockSize 1%nat ib * blockSize 2%nat ib)
      by nia.
    nia. }
  destruct (Z.le_gt_cases nBlock 0) as [Hn|Hn].
  { rewrite for_range_empty by lia. unfold sum_below.
    rewrite zrange_nil by lia. cbn. f_equal. lia. }
  apply (for_range_ind
           (fun i acc => acc = Done (total + lda * sum_below i f))); [lia | |].
  - rewrite sum_below_0. f_equal. lia.
  - intros i acc Hi ->. unfold add_block.
    destruct (Hblocks i Hi) as [Hpos Hb].
    rewrite (get_blockMemSize_closed FLUPS_ALIGNMENT k i nf blockSize)
      by assumption.
    fold (f i). rewrite sum_below_succ by lia.
    pose proof (sum_below_mono i nBlock f Hf ltac:(lia)) as M1.
    pose proof (sum_below_mono (i + 1) nBlock f Hf ltac:(lia)) as M2.
    rewrite sum_below_succ in M2 by lia.
    pose proof (Hf i Hi) as Hfi.
    unfold INT_MAX in *.
    assert (B1 : 0 <= lda * sum_below i f) by nia.
    assert (B2 : 0 <= f i * lda) by nia.
    assert (B3 : lda * (sum_below i f + f i) <= lda * sum_below nBlock f)
      by nia.
    rewrite (size_t_small lda) by lia.
    rewrite (size_t_small (f i * lda)) by nia.
    rewrite size_t_small by nia.
    f_equal. lia.
Qed.

Lemma sum_below_nonpos (n : Z) (f : Z -> Z) : n <= 0 -> sum_below n f = 0.
Proof. intros Hn. unfold sum_below. rewrite zrange_nil by lia. reflexivity. Qed.

Lemma sum_below_le (n : Z) (f g : Z -> Z) :
  (forall i, 0 <= i < n -> f i <= g i) -> sum_below n f <= sum_below n g.
Proof.
  destruct (Z.le_gt_cases n 0) as [Hn|Hn].
  { intros _. rewrite !sum_below_nonpos by lia. lia. }
  revert n Hn.
  assert (H : forall n, 0 <= n ->
            (forall i, 0 <= i < n -> f i <= g i) ->
            sum_below n f <= sum_below n g).
  { apply (natlike_ind
             (fun n => (forall i, 0 <= i < n -> f i <= g i) ->
                       sum_below n f <= sum_below n g)).
    - intros _. rewrite !sum_below_0. lia.
    - intros n Hn IH Hfg. rewrite <- Z.add_1_r, !sum_below_succ by lia.
      specialize (IH ltac:(intros i Hi; apply Hfg; lia)).
      specialize (Hfg n ltac:(lia)). lia. }
  intros n Hn. apply H. lia.
Qed.

Lemma sum_below_multiple (k n : Z) (f : Z -> Z) :
  (forall i, 0 <= i < n -> f i mod k = 0) -> 0 < k -> sum_below n f mod k = 0.
Proof.
  intros Hf Hk.
  destruct (Z.le_gt_cases n 0) as [Hn|Hn].
  { rewrite sum_below_nonpos by lia. apply Z.mod_0_l. lia. }
  revert Hf.
  apply (natlike_ind
           (fun n => (forall i, 0 <= i < n -> f i mod k = 0) ->
                     sum_below n f mod k = 0)); [| |lia].
  - intros _. rewrite sum_below_0. apply Z.mod_0_l. lia.
  - intros m Hm IH Hf. rewrite <- Z.add_1_r, sum_below_succ by lia.
    specialize (IH ltac:(intros i Hi; apply Hf; lia)).
    specialize (Hf m ltac:(lia)).
    rewrite Z.add_mod by lia. rewrite IH, Hf. reflexivity.
Qed.

Lemma block_scalars_nonneg (nf ib : Z) (blockSize : nat -> Z -> Z) :
  0 <= nf -> (forall d : nat, (d < 3)%nat -> 0 <= blockSize d ib <= INT_MAX) ->
  0 <= block_scalars nf blockSize ib.
Proof.
  intros Hnf Hpos. unfold block_scalars.
  pose proof (Hpos 0%nat ltac:(lia)). pose proof (Hpos 1%nat ltac:(lia)).
  pose proof (Hpos 2%nat ltac:(lia)).
  assert (0 <= blockSize 0%nat ib * blockSize 1%nat ib) by nia.
  assert (0 <= blockSize 0%nat ib * blockSize 1%nat ib * blockSize 2%nat ib)
    by nia.
  nia.
Qed.

(** X9.  For an alignment of [k] scalars, [get_bufMemSize] returns [lda]
    times the sum of the padded sizes of the blocks to send and of the
    blocks to receive together: there is room for every block in a slot of
    its own, and the buffer takes a whole number of alignments. *)
Theorem bufMemSize_is_sum_of_slots (FLUPS_ALIGNMENT k nf_in nf_out lda : Z)
  (_inBlock _onBlock : Z) (_iBlockSize _oBlockSize : nat -> Z -> Z) :
  let nf := Z.max nf_in nf_out in
  let islot := fun ib => round_up k (block_scalars nf _iBlockSize ib) in
  let oslot := fun ib => round_up k (block_scalars nf _oBlockSize ib) in
  0 < k -> FLUPS_ALIGNMENT = sizeof_double * k ->
  0 <= nf <= INT_MAX -> 0 <= lda <= INT_MAX ->
  (forall ib, 0 <= ib < _inBlock ->
     (forall d : nat, (d < 3)%nat -> 0 <= _iBlockSize d ib <= INT_MAX)
     /\ block_scalars nf _iBlockSize ib * sizeof_double + FLUPS_ALIGNMENT
        < 2 ^ 64) ->
  (forall ib, 0 <= ib < _onBlock ->
     (forall d : nat, (d < 3)%nat -> 0 <= _oBlockSize d ib <= INT_MAX)
     /\ block_scalars nf _oBlockSize ib * sizeof_double + FLUPS_ALIGNMENT
        < 2 ^ 64) ->
  lda * (sum_below _inBlock islot + sum_below _onBlock oslot) < 2 ^ 64 ->
  exists total,
    get_bufMemSize FLUPS_ALIGNMENT nf_in nf_out lda _inBlock _onBlock
      _iBlockSize _oBlockSize = Done total
    /\ total = lda * (sum_below _inBlock islot + sum_below _onBlock oslot)
    /\ lda * (sum_below _inBlock (block_scalars nf _iBlockSize)
              + sum_below _onBlock (block_scalars nf _oBlockSize)) <= total
    /\ (total * sizeof_double) mod FLUPS_ALIGNMENT = 0.
Proof.
  intros nf islot oslot Hk Hal Hnf Hlda Hin Hon Hfit.
  assert (Hi0 : forall ib, 0 <= ib < _inBlock -> 0 <= islot ib).
  { intros ib Hib. unfold islot. destruct (Hin ib Hib) as [Hpos _].
    pose proof (block_scalars_nonneg nf ib _iBlockSize ltac:(lia) Hpos).
    pose proof (round_up_spec k (block_scalars nf _iBlockSize ib) Hk). lia. }
  assert (Ho0 : forall ib, 0 <= ib < _onBlock -> 0 <= oslot ib).
  { intros ib Hib. unfold oslot. destruct (Hon ib Hib) as [Hpos _].
    pose proof (block_scalars_nonneg nf ib _oBlockSize ltac:(lia) Hpos).
    pose proof (round_up_spec k (block_scalars nf _oBlockSize ib) Hk). lia. }
  assert (Si : 0 <= sum_below _inBlock islot).
  { destruct (Z.le_gt_cases _inBlock 0);
      [rewrite sum_below_nonpos by lia; lia|].
    apply (sum_below_mono _inBlock _inBlock islot Hi0). lia. }
  assert (So : 0 <= sum_below _onBlock oslot).
  { destruct (Z.le_gt_cases _onBlock 0);
      [rewrite sum_below_nonpos by lia; lia|].
    apply (sum_below_mono _onBlock _onBlock oslot Ho0). lia. }
  eexists. split; [|split; [reflexivity|split]].
  - unfold get_bufMemSize. fold nf.
    rewrite (add_blocks_closed FLUPS_ALIGNMENT k nf lda _inBlock 0 _iBlockSize)
      by (first [assumption | lia | fold islot; nia]).
    fold islot. rewrite Z.add_0_l.
    rewrite (add_blocks_closed FLUPS_ALIGNMENT k nf lda _onBlock _ _oBlockSize)
      by (first [assumption | lia | nia | fold oslot; nia]).
    fold oslot. f_equal. lia.
  - assert (Li : sum_below _inBlock (block_scalars nf _iBlockSize)
                 <= sum_below _inBlock islot).
    { apply sum_below_le. intros ib Hib. unfold islot.
      pose proof (round_up_spec k (block_scalars nf _iBlockSize ib) Hk). lia. }
    assert (Lo : sum_below _onBlock (block_scalars nf _oBlockSize)
                 <= sum_below _onBlock oslot).
    { apply sum_below_le. intros ib Hib. unfold oslot.
      pose proof (round_up_spec k (block_scalars nf _oBlockSize ib) Hk). lia. }
    nia.
  - assert (Mi : sum_below _inBlock islot mod k = 0).
    { apply sum_below_multiple; [|exact Hk]. intros ib Hib. unfold islot.
      apply round_up_spec. exact Hk. }
    assert (Mo : sum_below _onBlock oslot mod k = 0).
    { apply sum_below_multiple; [|exact Hk]. intros ib Hib. unfold oslot.
      apply round_up_spec. exact Hk. }
    apply Z.mod_divide in Mi; [|lia]. apply Z.mod_divide in Mo; [|lia].
    destruct Mi as [a Ea]. destruct Mo as [b Eb].
    rewrite Ea, Eb, Hal.
    replace (lda * (a * k + b * k) * sizeof_double)
      with (lda * (a + b) * (sizeof_double * k)) by ring.
    apply Z.mod_mul. unfold sizeof_double. lia.
Qed.

Lemma bufMemSize_is_sum_of_slots_witness :
  exists total,
    get_bufMemSize 32 1 2 3 2 1 (fun _ ib => ib + 1) (fun _ _ => 2)
    = Done total
    /\ total
       = 3 * (sum_below 2
                (fun ib => round_up 4
                             (block_scalars (Z.max 1 2) (fun _ ib => ib + 1) ib))
              + sum_below 1
                  (fun ib => round_up 4
                               (block_scalars (Z.max 1 2) (fun _ _ => 2) ib)))
    /\ 3 * (sum_below 2 (block_scalars (Z.max 1 2) (fun _ ib => ib + 1))
            + sum_below 1 (block_scalars (Z.max 1 2) (fun _ _ => 2)))
       <= total
    /\ (total * sizeof_double) mod 32 = 0.
Proof.
  apply (bufMemSize_is_sum_of_slots 32 4 1 2 3 2 1 (fun _ ib => ib + 1)
           (fun _ _ => 2)).
  - lia.
  - reflexivity.
  - unfold INT_MAX. lia.
  - unfold INT_MAX. lia.
  - intros ib Hib. split.
    + intros d Hd. unfold INT_MAX. lia.
    + assert (ib = 0 \/ ib = 1) as [-> | ->] by lia; vm_compute; reflexivity.
  - intros ib Hib. split.
    + intros d Hd. unfold INT_MAX. lia.
    + vm_compute. reflexivity.
  - vm_compute. reflexivity.
Defined.

End SwitchTopoMemoryFacts.

(** ** SwitchTopo_a2a.cpp: counts and addresses of the blocks *)

Module SwitchTopo_a2a_buffersFacts.
Import SwitchTopo_a2a SwitchTopo_a2a_buffers.

Lemma sum_insert (l : list Z) (d : nat) (v : Z) :
  (d < length l)%nat ->
  fold_right Z.add 0 (<[d := v]> l) = fold_right Z.add 0 l - l !!! d + v.
Proof.
  revert d. induction l as [|x l IH]; intros d Hd; [cbn in Hd; lia|].
  destruct d as [|d].
  - cbn. lia.
  - cbn in Hd. cbn [fold_right]. change (<[S d := v]> (x :: l)) with (x :: <[d := v]> l).
    cbn [fold_right]. rewrite IH by lia.
    change ((x :: l) !!! S d) with (l !!! d). lia.
Qed.

Lemma sum_replicate_0 (n : nat) : fold_right Z.add 0 (replicate n 0) = 0.
Proof. induction n as [|n IH]; cbn; [reflexivity | exact IH]. Qed.

Lemma blocks_for_le (destRank : list nat) (r : nat) :
  0 <= blocks_for destRank r <= Z.of_nat (length destRank).
Proof.
  unfold blocks_for.
  pose proof (List.filter_length_le (fun d => Nat.eqb d r) destRank). lia.
Qed.

Lemma blocks_for_cons (d : nat) (l : list nat) (r : nat) :
  blocks_for (d :: l) r = (if Nat.eqb d r then 1 else 0) + blocks_for l r.
Proof.
  unfold blocks_for. cbn [List.filter].
  destruct (Nat.eqb d r); cbn [length]; lia.
Qed.

(** The counting loop, as long as no count leaves the range of [int]. *)
Lemma cmpt_count_loop (subsize : nat) (blockMem : Z) (l : list nat) :
  0 <= blockMem ->
  forall (count : list Z) (base : nat -> Z),
    Forall (fun d => (d < subsize)%nat) l ->
    length count = subsize ->
    (forall r, (r < subsize)%nat ->
       count !!! r = blockMem * base r /\ 0 <= base r) ->
    (forall r, (r < subsize)%nat ->
       blockMem * (base r + blocks_for l r) <= INT_MAX) ->
    let count' :=
      for_each l
        (fun d count => <[d := to_int (count !!! d + blockMem)]> count)
        count in
    length count' = subsize
    /\ (forall r, (r < subsize)%nat ->
          count' !!! r = blockMem * (base r + blocks_for l r))
    /\ fold_right Z.add 0 count'
       = fold_right Z.add 0 count + blockMem * Z.of_nat (length l).
Proof.
  intros Hb. induction l as [|d l IH]; intros count base Hl Hlen Hbase Hmax.
  - cbn. split; [exact Hlen|]. split; [|lia].
    intros r Hr. rewrite (proj1 (Hbase r Hr)).
    unfold blocks_for. cbn. f_equal. lia.
  - apply Forall_cons in Hl as [Hd Hl'].
    rewrite for_each_cons.
    assert (Hstep : to_int (count !!! d + blockMem) = blockMem * (base d + 1)).
    { destruct (Hbase d Hd) as [E Hpos]. rewrite E.
      pose proof (Hmax d Hd) as Hm. rewrite blocks_for_cons in Hm.
      rewrite Nat.eqb_refl in Hm.
      pose proof (blocks_for_le l d) as Hbl.
      replace (blockMem * base d + blockMem) with (blockMem * (base d + 1))
        by lia.
      apply TopologyFacts.to_int_small. unfold INT_MAX in Hm. nia. }
    rewrite Hstep.
    assert (Hlen1 : length (<[d := blockMem * (base d + 1)]> count) = subsize)
      by (rewrite length_insert; exact Hlen).
    assert (Hbase1 : forall r, (r < subsize)%nat ->
              <[d := blockMem * (base d + 1)]> count !!! r
              = blockMem * (base r + if Nat.eqb d r then 1 else 0)
              /\ 0 <= base r + if Nat.eqb d r then 1 else 0).
    { intros r Hr. destruct (Hbase r Hr) as [E Hpos].
      destruct (Nat.eqb_spec d r) as [->|Hne].
      - rewrite list_lookup_total_insert_eq by lia. split; lia.
      - rewrite list_lookup_total_insert_ne by exact Hne.
        rewrite E. split; [f_equal|]; lia. }
    assert (Hmax1 : forall r, (r < subsize)%nat ->
              blockMem * (base r + (if Nat.eqb d r then 1 else 0)
                          + blocks_for l r) <= INT_MAX).
    { intros r Hr. pose proof (Hmax r Hr) as Hm.
      rewrite blocks_for_cons in Hm.
      replace (base r + (if Nat.eqb d r then 1 else 0) + blocks_for l r)
        with (base r + ((if Nat.eqb d r then 1 else 0) + blocks_for l r))
        by lia.
      exact Hm. }
    destruct (IH _ _ Hl' Hlen1 Hbase1 Hmax1) as (Hlen' & Hval & Hsum).
    split; [exact Hlen'|]. split.
    + intros r Hr. rewrite Hval by exact Hr. rewrite blocks_for_cons.
      f_equal. lia.
    + rewrite Hsum, sum_insert by lia.
      rewrite (proj1 (Hbase d Hd)). cbn [length]. lia.
Qed.

Lemma cmpt_count_spec (subsize : nat) (blockMem : Z) (destRank : list nat) :
  Forall (fun d => (d < subsize)%nat) destRank ->
  0 <= blockMem ->
  blockMem * Z.of_nat (length destRank) <= INT_MAX ->
  length (cmpt_count subsize blockMem destRank) = subsize
  /\ (forall r, (r < subsize)%nat ->
        cmpt_count subsize blockMem destRank !!! r
        = blockMem * blocks_for destRank r)
  /\ fold_right Z.add 0 (cmpt_count subsize blockMem destRank)
     = blockMem * Z.of_nat (length destRank).
Proof.
  intros Hall Hb Hmax. unfold cmpt_count.
  destruct (cmpt_count_loop subsize blockMem destRank Hb
              (replicate subsize 0) (fun _ => 0) Hall
              (length_replicate _ _)) as (Hlen & Hval & Hsum).
  { intros r Hr. rewrite lookup_total_replicate_2 by exact Hr. lia. }
  { intros r Hr. pose proof (blocks_for_le destRank r). nia. }
  split; [exact Hlen|]. split.
  - intros r Hr. rewrite Hval by exact Hr. f_equal.
  - rewrite Hsum, sum_replicate_0. lia.
Qed.

(** X10.  When every block is bound for a rank of the sub-communicator and
    the blocks of the process, one block size each, fit an [int],
    [_setup_subComm] counts for each rank the blocks bound for it, one block
    size each, and the counts add up to all the blocks of the process. *)
Theorem subComm_counts_every_block_once (subsize : nat) (blockMem : Z)
  (newRanks destRank : list nat) :
  Forall (fun d => (d < subsize)%nat) (translate_destRank newRanks destRank) ->
  0 <= blockMem ->
  blockMem * Z.of_nat (length destRank) <= INT_MAX ->
  let '(destRank', count, _) :=
    _setup_subComm subsize blockMem newRanks destRank in
  length count = subsize
  /\ (forall r, (r < subsize)%nat ->
        count !!! r = blockMem * blocks_for destRank' r)
  /\ fold_right Z.add 0 count = blockMem * Z.of_nat (length destRank).
Proof.
  intros Hall Hb Hmax. unfold _setup_subComm.
  assert (Hlen : length (translate_destRank newRanks destRank)
                 = length destRank)
    by (unfold translate_destRank; apply length_map).
  destruct (cmpt_count_spec subsize blockMem _ Hall Hb)
    as (Hl & Hval & Hsum); [rewrite Hlen; exact Hmax|].
  split; [exact Hl|]. split; [exact Hval|].
  rewrite Hsum, Hlen. reflexivity.
Qed.

Lemma subComm_counts_every_block_once_witness :
  let '(destRank', count, _) :=
    _setup_subComm 3 8 [2; 0; 1]%nat [0; 0; 2; 1; 0]%nat in
  length count = 3%nat
  /\ (forall r, (r < 3)%nat -> count !!! r = 8 * blocks_for destRank' r)
  /\ fold_right Z.add 0 count = 8 * Z.of_nat (length [0; 0; 2; 1; 0]%nat).
Proof.
  apply (subComm_counts_every_block_once 3 8 [2; 0; 1]%nat
           [0; 0; 2; 1; 0]%nat).
  - cbn. repeat constructor.
  - lia.
  - vm_compute. discriminate.
Defined.

(** *** [setup_buffers] *)

Lemma blocks_below_succ (destRank : list nat) (r : nat) :
  blocks_below destRank (S r)
  = blocks_below destRank r + blocks_for destRank r.
Proof.
  unfold blocks_below, blocks_for.
  induction destRank as [|d l IH]; [reflexivity|].
  cbn [List.filter].
  destruct (Nat.ltb_spec d (S r)); destruct (Nat.ltb_spec d r);
    destruct (Nat.eqb_spec d r); cbn [length]; lia.
Qed.

Lemma blocks_below_0 (destRank : list nat) : blocks_below destRank 0 = 0.
Proof.
  unfold blocks_below. induction destRank as [|d l IH]; [reflexivity|].
  cbn [List.filter]. destruct (Nat.ltb_spec d 0); [lia | exact IH].
Qed.

Lemma blocks_below_le (destRank : list nat) (r : nat) :
  0 <= blocks_below destRank r <= Z.of_nat (length destRank).
Proof.
  unfold blocks_below.
  pose proof (List.filter_length_le (fun d => Nat.ltb d r) destRank). lia.
Qed.

Lemma memblocks_closed (subsize : nat) (blockMem : Z) (destRank : list nat)
  (r : nat) :
  Forall (fun d => (d < subsize)%nat) destRank ->
  0 <= blockMem -> blockMem * Z.of_nat (length destRank) <= INT_MAX ->
  (r <= subsize)%nat ->
  memblocks (cmpt_count subsize blockMem destRank) r
  = blockMem * blocks_below destRank r.
Proof.
  intros Hall Hb Hfit Hr. unfold memblocks.
  destruct (cmpt_count_spec subsize blockMem destRank Hall Hb Hfit)
    as (_ & Hval & _).
  unfold INT_MAX in Hfit.
  induction r as [|r IH].
  - rewrite blocks_below_0. cbn. lia.
  - rewrite seq_S, for_each_app, IH by lia. cbn [for_each fold_left Nat.add].
    rewrite Hval by lia.
    pose proof (blocks_below_le destRank r) as B1.
    pose proof (blocks_below_le destRank (S r)) as B2.
    rewrite blocks_below_succ in B2 |- *.
    assert (0 <= blocks_for destRank r) by (unfold blocks_for; lia).
    unfold to_size_t.
    rewrite (Z.mod_small (blockMem * blocks_for destRank r)) by nia.
    rewrite Z.mod_small by nia. lia.
Qed.

(** X11.  With the counts of [_setup_subComm], as long as the blocks of
    the process, one block size each, fit an [int], [setup_buffers] places
    every block at the sum of the counts of the ranks below its destination:
    as many block sizes as there are blocks bound for a lower rank.  Two
    blocks bound for the same rank are given the same address. *)
Theorem buffers_start_at_lower_ranks_blocks (subsize : nat) (blockMem : Z)
  (i2o_destRank o2i_destRank : list nat) :
  Forall (fun d => (d < subsize)%nat) i2o_destRank ->
  Forall (fun d => (d < subsize)%nat) o2i_destRank ->
  0 <= blockMem ->
  blockMem * Z.of_nat (length i2o_destRank) <= INT_MAX ->
  blockMem * Z.of_nat (length o2i_destRank) <= INT_MAX ->
  let '(sendBuf, recvBuf) :=
    setup_buffers i2o_destRank o2i_destRank
      (cmpt_count subsize blockMem i2o_destRank)
      (cmpt_count subsize blockMem o2i_destRank) in
  (forall ib, (ib < length i2o_destRank)%nat ->
     sendBuf !!! ib
     = blockMem * blocks_below i2o_destRank (i2o_destRank !!! ib))
  /\ (forall ib, (ib < length o2i_destRank)%nat ->
        recvBuf !!! ib
        = blockMem * blocks_below o2i_destRank (o2i_destRank !!! ib))
  /\ (forall ib ib', (ib < length i2o_destRank)%nat ->
        (ib' < length i2o_destRank)%nat ->
        i2o_destRank !!! ib = i2o_destRank !!! ib' ->
        sendBuf !!! ib = sendBuf !!! ib').
Proof.
  intros Hi Ho Hb Hfi Hfo. unfold setup_buffers.
  assert (Hlook : forall (l : list nat) (count : list Z) ib,
            (ib < length l)%nat ->
            List.map (memblocks count) l !!! ib = memblocks count (l !!! ib)).
  { intros l count ib Hib.
    apply list_lookup_total_correct.
    change (List.map (memblocks count) l) with (memblocks count <$> l).
    rewrite list_lookup_fmap.
    rewrite (list_lookup_lookup_total_lt l ib Hib). reflexivity. }
  assert (Hin : forall (l : list nat) ib,
            Forall (fun d => (d < subsize)%nat) l -> (ib < length l)%nat ->
            (l !!! ib <= subsize)%nat).
  { intros l ib Hl Hib.
    pose proof (proj1 (Forall_lookup _ l) Hl ib (l !!! ib)
                  (list_lookup_lookup_total_lt l ib Hib)) as H. cbv beta in H. lia. }
  split; [|split].
  - intros ib Hib. rewrite Hlook by exact Hib.
    apply memblocks_closed; auto.
  - intros ib Hib. rewrite Hlook by exact Hib.
    apply memblocks_closed; auto.
  - intros ib ib' Hib Hib' E. rewrite !Hlook by assumption. rewrite E.
    reflexivity.
Qed.

Lemma buffers_start_at_lower_ranks_blocks_witness :
  let '(sendBuf, recvBuf) :=
    setup_buffers [1; 0; 1]%nat [0; 1]%nat
      (cmpt_count 2 8 [1; 0; 1]%nat) (cmpt_count 2 8 [0; 1]%nat) in
  (forall ib, (ib < length [1; 0; 1]%nat)%nat ->
     sendBuf !!! ib = 8 * blocks_below [1; 0; 1]%nat ([1; 0; 1]%nat !!! ib))
  /\ (forall ib, (ib < length [0; 1]%nat)%nat ->
        recvBuf !!! ib = 8 * blocks_below [0; 1]%nat ([0; 1]%nat !!! ib))
  /\ (forall ib ib', (ib < length [1; 0; 1]%nat)%nat ->
        (ib' < length [1; 0; 1]%nat)%nat ->
        [1; 0; 1]%nat !!! ib = [1; 0; 1]%nat !!! ib' ->
        sendBuf !!! ib = sendBuf !!! ib').
Proof.
  apply (buffers_start_at_lower_ranks_blocks 2 8 [1; 0; 1]%nat [0; 1]%nat).
  - repeat constructor.
  - repeat constructor.
  - lia.
  - vm_compute. discriminate.
  - vm_compute. discriminate.
Defined.

End SwitchTopo_a2a_buffersFacts.

(** ** SwitchTopo_a2a.cpp: the colours of the sub-communicators *)

Module SwitchTopo_a2a_colorsFacts.
Import SwitchTopo_a2a_colors.

(** *** The first pass *)

Lemma first_pass_spec (N : nat) (destRank : list nat) (m0 : nat)
  (g0 : list bool) :
  length g0 = N -> Forall (fun d => (d < N)%nat) destRank ->
  let st := first_pass destRank (m0, g0) in
  length (snd st) = N
  /\ (fst st <= m0)%nat
  /\ (fst st = m0 \/ In (fst st) destRank)
  /\ (forall d, In d destRank -> (fst st <= d)%nat)
  /\ (forall s, (s < N)%nat ->
        snd st !!! s = true <-> g0 !!! s = true \/ In s destRank).
Proof.
  revert m0 g0. unfold first_pass.
  induction destRank as [|d l IH]; intros m0 g0 Hlen Hall.
  - cbn. repeat split; auto; try tauto; try (intros ? []).
  - apply Forall_cons in Hall as [Hd Hl].
    rewrite for_each_cons. cbn [fst snd].
    destruct (IH (Nat.min m0 d) (<[d := true]> g0)
                ltac:(rewrite length_insert; exact Hlen) Hl)
      as (L & A & B & C & G).
    cbv zeta in *.
    set (st := for_each l _ _) in *.
    split; [exact L|]. split; [lia|]. split; [|split].
    + destruct B as [B|B]; [|right; right; exact B].
      destruct (Nat.min_spec m0 d) as [[_ E]|[_ E]];
        [left; lia | right; left; lia].
    + intros x [<-|Hx]; [lia | apply C; exact Hx].
    + intros s Hs. rewrite (G s Hs).
      destruct (Nat.eq_dec d s) as [->|Hne].
      * rewrite list_lookup_total_insert_eq by lia. cbn. tauto.
      * rewrite list_lookup_total_insert_ne by exact Hne. cbn.
        intuition congruence.
Qed.

Lemma init_color_spec (N r : nat) (i2o o2i : list nat) :
  Forall (fun d => (d < N)%nat) i2o -> Forall (fun d => (d < N)%nat) o2i ->
  let st := init_color N r i2o o2i in
  length (snd st) = N
  /\ (fst st <= r)%nat
  /\ (fst st = r \/ In (fst st) i2o \/ In (fst st) o2i)
  /\ (forall s, In s i2o \/ In s o2i -> (fst st <= s)%nat)
  /\ (forall s, (s < N)%nat ->
        snd st !!! s = true <-> In s i2o \/ In s o2i).
Proof.
  intros Hi Ho. unfold init_color.
  destruct (first_pass_spec N i2o r (replicate N false)
              (length_replicate _ _) Hi) as (L1 & A1 & B1 & C1 & G1).
  cbv zeta in *.
  destruct (first_pass i2o (r, replicate N false)) as [m1 g1] eqn:E1.
  cbn [fst snd] in *.
  destruct (first_pass_spec N o2i m1 g1 L1 Ho) as (L2 & A2 & B2 & C2 & G2).
  cbv zeta in *.
  destruct (first_pass o2i (m1, g1)) as [m2 g2] eqn:E2.
  cbn [fst snd] in *.
  split; [exact L2|]. split; [lia|]. split; [|split].
  - destruct B2 as [->|B2]; [|tauto]. destruct B1 as [->|B1]; tauto.
  - intros s [Hs|Hs]; [specialize (C1 s Hs); lia | apply C2; exact Hs].
  - intros s Hs. rewrite (G2 s Hs), (G1 s Hs).
    rewrite lookup_total_replicate_2 by exact Hs. intuition congruence.
Qed.

Lemma count_group_spec (N : nat) (g : list bool) :
  0 <= count_group N g
  /\ (0 < count_group N g <-> exists s, (s < N)%nat /\ g !!! s = true).
Proof.
  unfold count_group. induction N as [|N IH].
  - cbn. split; [lia|]. split; [lia|]. intros (s & Hs & _). lia.
  - rewrite seq_S, for_each_app. cbn [Nat.add for_each fold_left].
    destruct IH as [IH0 IH1]. fold (@for_each nat Z) in *.
    set (n := for_each (seq 0 N) _ 0) in *.
    destruct (g !!! N) eqn:E.
    + split; [lia|]. split; [|lia]. intros _. exists N. split; [lia | exact E].
    + split; [lia|]. rewrite IH1. split.
      * intros (s & Hs & Hg). exists s. split; [lia | exact Hg].
      * intros (s & Hs & Hg). exists s. split; [|exact Hg].
        destruct (Nat.eq_dec s N) as [->|]; [congruence | lia].
Qed.

(** *** One turn on one process *)

Lemma round_spec (N : nat) (g : list bool) (c : list nat) (m0 : nat) :
  let st := round N g c m0 in
  (fst st <= m0)%nat
  /\ (fst st = m0
      \/ exists j, (j < N)%nat /\ g !!! j = true /\ fst st = c !!! j)
  /\ (forall j, (j < N)%nat -> g !!! j = true -> (fst st <= c !!! j)%nat)
  /\ 0 <= snd st
  /\ (0 < snd st ->
      exists j, (j < N)%nat /\ g !!! j = true /\ (fst st < c !!! j)%nat)
  /\ ((exists j, (j < N)%nat /\ g !!! j = true /\ (m0 < c !!! j)%nat) ->
      0 < snd st).
Proof.
  unfold round. induction N as [|N IH].
  - cbn. split; [lia|]. split; [left; reflexivity|].
    split; [intros j Hj; lia|]. split; [lia|]. split; [lia|].
    intros (j & Hj & _). lia.
  - rewrite seq_S, for_each_app. cbn [Nat.add for_each fold_left].
    fold (@for_each nat (nat * Z)) in *.
    cbv zeta in IH.
    destruct (for_each (seq 0 N) (round_step g c) (m0, 0)) as [m n] eqn:E.
    cbn [fst snd] in IH. destruct IH as (A & B & C & D & F & H).
    unfold round_step. cbn [fst snd].
    destruct (g !!! N) eqn:Eg; cbn [andb].
    + destruct (Nat.eqb_spec (c !!! N) m) as [Ec|Ec]; cbn [negb fst snd].
      * split; [exact A|]. split.
        { destruct B as [B|(j & Hj & Hg & B)]; [left; exact B|].
          right. exists j. split; [lia|]. auto. }
        split.
        { intros j Hj Hg. destruct (Nat.eq_dec j N) as [->|Hne]; [lia|].
          apply C; [lia | exact Hg]. }
        split; [exact D|]. split.
        { intros Hn. destruct (F Hn) as (j & Hj & Hg & Hc).
          exists j. split; [lia|]. auto. }
        { intros (j & Hj & Hg & Hc).
          destruct (Nat.eq_dec j N) as [->|Hne]; [lia|].
          apply H. exists j. split; [lia|]. auto. }
      * split; [lia|]. split.
        { destruct (Nat.min_spec m (c !!! N)) as [[_ Em]|[_ Em]]; rewrite Em.
          - destruct B as [B|(j & Hj & Hg & B)]; [left; exact B|].
            right. exists j. split; [lia|]. auto.
          - right. exists N. split; [lia|]. auto. }
        split.
        { intros j Hj Hg. destruct (Nat.eq_dec j N) as [->|Hne]; [lia|].
          specialize (C j ltac:(lia) Hg). lia. }
        destruct (Nat.ltb_spec (c !!! N) m) as [Hlt|Hge].
        { split; [lia|]. split.
          - intros Hn. destruct (F ltac:(lia)) as (j & Hj & Hg & Hc).
            exists j. split; [lia|]. split; [exact Hg|]. lia.
          - intros (j & Hj & Hg & Hc).
            destruct (Nat.eq_dec j N) as [->|Hne]; [lia|].
            assert (0 < n); [|lia].
            apply H. exists j. split; [lia|]. auto. }
        { split; [lia|]. split.
          - intros _. exists N. split; [lia|]. split; [exact Eg|]. lia.
          - intros _. lia. }
    + cbn [fst snd].
      split; [exact A|]. split.
      { destruct B as [B|(j & Hj & Hg & B)]; [left; exact B|].
        right. exists j. split; [lia|]. auto. }
      split.
      { intros j Hj Hg. destruct (Nat.eq_dec j N) as [->|Hne]; [congruence|].
        apply C; [lia | exact Hg]. }
      split; [exact D|]. split.
      { intros Hn. destruct (F Hn) as (j & Hj & Hg & Hc).
        exists j. split; [lia|]. auto. }
      { intros (j & Hj & Hg & Hc).
        destruct (Nat.eq_dec j N) as [->|Hne]; [congruence|].
        apply H. exists j. split; [lia|]. auto. }
Qed.

(** *** Lists indexed by the rank *)

Lemma lookup_total_map_seq {A : Type} `{Inhabited A} (f : nat -> A)
  (N r : nat) :
  (r < N)%nat -> List.map f (seq 0 N) !!! r = f r.
Proof.
  intros Hr. apply list_lookup_total_correct.
  change (List.map f (seq 0 N)) with (f <$> seq 0 N).
  rewrite list_lookup_fmap, lookup_seq_lt by exact Hr. reflexivity.
Qed.

Lemma sum_map_seq_nonneg (h : nat -> Z) (N : nat) :
  (forall r, (r < N)%nat -> 0 <= h r) ->
  0 <= fold_right Z.add 0 (List.map h (seq 0 N))
  /\ (0 < fold_right Z.add 0 (List.map h (seq 0 N))
      <-> exists r, (r < N)%nat /\ 0 < h r).
Proof.
  induction N as [|N IH]; intros Hh.
  - cbn. split; [lia|]. split; [lia|]. intros (r & Hr & _). lia.
  - rewrite seq_S, List.map_app, fold_right_app. cbn [List.map fold_right Nat.add].
    destruct (IH ltac:(intros r Hr; apply Hh; lia)) as [I0 I1].
    pose proof (Hh N ltac:(lia)) as HN.
    assert (E : forall l : list Z,
              fold_right Z.add (h N + 0) l = fold_right Z.add 0 l + h N).
    { induction l as [|x l IHl]; cbn; lia. }
    rewrite E. split; [lia|]. split.
    + intros Hpos. destruct (Z.lt_ge_cases 0 (h N)) as [Hn|Hn].
      * exists N. split; [lia | exact Hn].
      * destruct (proj1 I1 ltac:(lia)) as (r & Hr & Hp).
        exists r. split; [lia | exact Hp].
    + intros (r & Hr & Hp). destruct (Nat.eq_dec r N) as [->|Hne]; [lia|].
      assert (0 < fold_right Z.add 0 (List.map h (seq 0 N))); [|lia].
      apply I1. exists r. split; [lia | exact Hp].
Qed.

Lemma list_sum_map_seq_lt (f f' : nat -> nat) (N : nat) :
  (forall r, (r < N)%nat -> (f' r <= f r)%nat) ->
  (exists r, (r < N)%nat /\ (f' r < f r)%nat) ->
  (list_sum (List.map f' (seq 0 N)) < list_sum (List.map f (seq 0 N)))%nat.
Proof.
  intros Hle (r & Hr & Hlt).
  assert (Hmono : forall M, (M <= N)%nat ->
            (list_sum (List.map f' (seq 0 M))
             <= list_sum (List.map f (seq 0 M)))%nat
            /\ ((r < M)%nat ->
                (list_sum (List.map f' (seq 0 M))
                 < list_sum (List.map f (seq 0 M)))%nat)).
  { induction M as [|M IH]; intros HM.
    - cbn. split; lia.
    - rewrite !seq_S, !List.map_app, !list_sum_app. cbn [List.map list_sum Nat.add].
      destruct (IH ltac:(lia)) as [I0 I1].
      pose proof (Hle M ltac:(lia)).
      change (list_sum [f' M]) with (f' M + 0)%nat.
      change (list_sum [f M]) with (f M + 0)%nat. split; [lia|].
      intros HrM. destruct (Nat.eq_dec r M) as [->|Hne]; [lia|].
      specialize (I1 ltac:(lia)). lia. }
  apply (Hmono N); lia.
Qed.

(** *** The loop on all the processes *)

Section Propagation.
Variable N : nat.
Variables i2o o2i : nat -> list nat.
Hypothesis Hrange :
  forall r, (r < N)%nat ->
    Forall (fun d => (d < N)%nat) (i2o r)
    /\ Forall (fun d => (d < N)%nat) (o2i r).
Hypothesis Hsym :
  forall r s, (r < N)%nat -> (s < N)%nat ->
    talks_to i2o o2i r s -> talks_to i2o o2i s r.

Local Abbreviation G := (fun rank => snd (init_color N rank (i2o rank) (o2i rank))).
Local Abbreviation talks := (talks_to i2o o2i).
Local Abbreviation turn_color := (turn_color N G).
Local Abbreviation turn_count := (turn_count N G).
Local Abbreviation colors_ok := (colors_ok N i2o o2i).

Lemma talks_in_range (r s : nat) : (r < N)%nat -> talks r s -> (s < N)%nat.
Proof using Hrange.
  intros Hr [Hs|Hs]; destruct (Hrange r Hr) as [Hi Ho].
  - apply (proj1 (List.Forall_forall _ _) Hi s Hs).
  - apply (proj1 (List.Forall_forall _ _) Ho s Hs).
Qed.

Lemma group_is_talks (r s : nat) :
  (r < N)%nat -> (s < N)%nat -> (G r !!! s = true <-> talks r s).
Proof using Hrange.
  intros Hr Hs. destruct (Hrange r Hr) as [Hi Ho].
  destruct (init_color_spec N r (i2o r) (o2i r) Hi Ho) as (_ & _ & _ & _ & Hg).
  apply (Hg s Hs).
Qed.

Lemma turn_facts (c : list nat) (r : nat) :
  (r < N)%nat ->
  (turn_color c r <= c !!! r)%nat
  /\ (turn_color c r = c !!! r
      \/ exists j, (j < N)%nat /\ talks r j /\ turn_color c r = c !!! j)
  /\ (forall j, (j < N)%nat -> talks r j -> (turn_color c r <= c !!! j)%nat)
  /\ 0 <= turn_count c r
  /\ (0 < turn_count c r ->
      exists j, (j < N)%nat /\ talks r j /\ (turn_color c r < c !!! j)%nat)
  /\ ((exists j, (j < N)%nat /\ talks r j /\ (c !!! r < c !!! j)%nat) ->
      0 < turn_count c r).
Proof using Hrange.
  intros Hr.
  unfold SwitchTopo_a2a_colors.turn_color, SwitchTopo_a2a_colors.turn_count.
  destruct (round_spec N (G r) c (c !!! r)) as (A & B & C & D & F & H).
  cbv zeta in *.
  split; [exact A|]. split.
  { destruct B as [B|(j & Hj & Hg & B)]; [left; exact B|].
    right. exists j. split; [exact Hj|]. split; [|exact B].
    apply (group_is_talks r j Hr Hj). exact Hg. }
  split.
  { intros j Hj Ht. apply C; [exact Hj|].
    apply (group_is_talks r j Hr Hj). exact Ht. }
  split; [exact D|]. split.
  { intros Hn. destruct (F Hn) as (j & Hj & Hg & Hc).
    exists j. split; [exact Hj|]. split; [|exact Hc].
    apply (group_is_talks r j Hr Hj). exact Hg. }
  { intros (j & Hj & Ht & Hc). apply H. exists j. split; [exact Hj|].
    split; [|exact Hc]. apply (group_is_talks r j Hr Hj). exact Ht. }
Qed.

Lemma turn_keeps_colors_ok (c : list nat) :
  colors_ok c -> colors_ok (List.map (turn_color c) (seq 0 N)).
Proof using Hrange.
  intros [Hlen Hc]. split; [rewrite length_map, length_seq; reflexivity|].
  intros r Hr. rewrite lookup_total_map_seq by exact Hr.
  destruct (turn_facts c r Hr) as (A & B & _).
  destruct (Hc r Hr) as [Hle Hrtc]. split; [lia|].
  destruct B as [->|(j & Hj & Ht & ->)]; [exact Hrtc|].
  destruct (Hc j Hj) as [_ Hj'].
  eapply rtc_l; [exact Ht | exact Hj'].
Qed.

(** When no counter is raised, no colour has changed and linked processes
    have the same colour. *)
Lemma turn_at_rest (c : list nat) :
  (forall r, (r < N)%nat -> turn_count c r <= 0) ->
  forall r s, (r < N)%nat -> talks r s ->
    List.map (turn_color c) (seq 0 N) !!! s
    = List.map (turn_color c) (seq 0 N) !!! r.
Proof using Hrange Hsym.
  intros Hrest.
  assert (Hle : forall r s, (r < N)%nat -> talks r s ->
            (c !!! s <= c !!! r)%nat).
  { intros r s Hr Ht. pose proof (talks_in_range r s Hr Ht) as Hs.
    destruct (turn_facts c r Hr) as (_ & _ & _ & _ & _ & H).
    destruct (Nat.le_gt_cases (c !!! s) (c !!! r)) as [Hok|Hbad];
      [exact Hok|].
    specialize (Hrest r Hr).
    assert (0 < turn_count c r); [|lia].
    apply H. exists s. auto. }
  assert (Heq : forall r s, (r < N)%nat -> talks r s -> c !!! s = c !!! r).
  { intros r s Hr Ht. pose proof (talks_in_range r s Hr Ht) as Hs.
    pose proof (Hle r s Hr Ht). pose proof (Hle s r Hs (Hsym r s Hr Hs Ht)).
    lia. }
  assert (Hsame : forall r, (r < N)%nat -> turn_color c r = c !!! r).
  { intros r Hr. destruct (turn_facts c r Hr) as (_ & B & _).
    destruct B as [B|(j & Hj & Ht & B)]; [exact B|].
    rewrite B. apply Heq; assumption. }
  intros r s Hr Ht. pose proof (talks_in_range r s Hr Ht) as Hs.
  rewrite !lookup_total_map_seq by assumption.
  rewrite !Hsame by assumption. apply Heq; assumption.
Qed.

(** As long as some counter is raised, some colour goes down. *)
Lemma turn_lowers_a_color (c : list nat) (r : nat) :
  (r < N)%nat -> 0 < turn_count c r ->
  (list_sum (List.map (turn_color c) (seq 0 N))
   < list_sum (List.map (fun r => c !!! r) (seq 0 N)))%nat.
Proof using Hrange Hsym.
  intros Hr Hn. apply list_sum_map_seq_lt.
  - intros x Hx. destruct (turn_facts c x Hx) as (A & _). exact A.
  - destruct (turn_facts c r Hr) as (A & _ & _ & _ & F & _).
    destruct (F Hn) as (j & Hj & Ht & Hc).
    destruct (Nat.eq_dec (turn_color c r) (c !!! r)) as [E|E].
    + exists j. split; [exact Hj|].
      destruct (turn_facts c j Hj) as (_ & _ & C & _).
      specialize (C r Hr (Hsym r j Hr Hj Ht)). lia.
    + exists r. split; [exact Hr | lia].
Qed.

Lemma map_lookup_seq (c : list nat) :
  length c = N -> List.map (fun r => c !!! r) (seq 0 N) = c.
Proof.
  intros Hlen. apply list_eq_same_length with (n := N); [exact Hlen | |].
  - rewrite length_map, length_seq. reflexivity.
  - intros i x y Hi Hx Hy.
    apply list_lookup_total_correct in Hx, Hy.
    rewrite lookup_total_map_seq in Hx by exact Hi. congruence.
Qed.

(** The loop ends before its fuel does, on colours that linked processes
    share. *)
Lemma propagate_ends (fuel : nat) (c : list nat) :
  colors_ok c -> (list_sum c < fuel)%nat ->
  exists c',
    propagate fuel N G c = Some c'
    /\ colors_ok c'
    /\ forall r s, (r < N)%nat -> talks r s -> c' !!! s = c' !!! r.
Proof using Hrange Hsym.
  revert c. induction fuel as [|fuel IH]; intros c Hok Hfuel; [lia|].
  cbn [propagate].
  rewrite !List.map_map. cbn [fst snd].
  match goal with
  | |- context [propagate fuel N _ ?l] =>
      change l with (List.map (turn_color c) (seq 0 N))
  end.
  match goal with
  | |- context [fold_right Z.add 0 ?l] =>
      change l with (List.map (turn_count c) (seq 0 N))
  end.
  destruct (sum_map_seq_nonneg (turn_count c) N) as [S0 S1].
  { intros r Hr. destruct (turn_facts c r Hr) as (_ & _ & _ & D & _). exact D. }
  destruct (Z.gtb_spec (fold_right Z.add 0 (List.map (turn_count c) (seq 0 N))) 0)
    as [Hpos|Hzero].
  - destruct (proj1 S1 ltac:(lia)) as (r & Hr & Hn).
    pose proof (turn_lowers_a_color c r Hr Hn) as Hlt.
    rewrite (map_lookup_seq c (proj1 Hok)) in Hlt.
    apply IH; [apply turn_keeps_colors_ok; exact Hok | lia].
  - eexists. split; [reflexivity|]. split.
    + apply turn_keeps_colors_ok. exact Hok.
    + apply turn_at_rest. intros r Hr.
      destruct (Z.le_gt_cases (turn_count c r) 0) as [Hle|Hgt]; [exact Hle|].
      assert (0 < fold_right Z.add 0 (List.map (turn_count c) (seq 0 N)));
        [|lia].
      apply S1. exists r. split; [exact Hr | lia].
Qed.
End Propagation.

Lemma list_sum_map_seq_le (f : nat -> nat) (N : nat) :
  (forall r, (r < N)%nat -> (f r <= N)%nat) ->
  (list_sum (List.map f (seq 0 N)) <= N * N)%nat.
Proof.
  intros Hf.
  assert (H : forall M, (M <= N)%nat ->
            (list_sum (List.map f (seq 0 M)) <= M * N)%nat).
  { induction M as [|M IH]; intros HM; [cbn; lia|].
    rewrite seq_S, List.map_app, list_sum_app. cbn [List.map Nat.add].
    change (list_sum [f M]) with (f M + 0)%nat.
    specialize (IH ltac:(lia)). specialize (Hf M ltac:(lia)). lia. }
  apply (H N). lia.
Qed.

(** X12.  When every block goes to a process of the communicator, every
    process that sends to another also receives from it, and every process
    has a block, the loop of the constructor ends, and the colour it gives a
    process is the lowest rank among the processes linked to it by a chain
    of exchanges: processes that exchange a block get the same colour, hence
    the same sub-communicator. *)
Theorem colors_are_lowest_linked_rank (fuel N : nat)
  (i2o o2i : nat -> list nat) :
  (forall r, (r < N)%nat ->
     Forall (fun d => (d < N)%nat) (i2o r)
     /\ Forall (fun d => (d < N)%nat) (o2i r)) ->
  (forall r s, (r < N)%nat -> (s < N)%nat ->
     talks_to i2o o2i r s -> talks_to i2o o2i s r) ->
  (forall r, (r < N)%nat -> exists s, talks_to i2o o2i r s) ->
  (N * N < fuel)%nat ->
  exists mycolor,
    cmpt_colors fuel N i2o o2i = Colors mycolor
    /\ length mycolor = N
    /\ forall r, (r < N)%nat ->
         rtc (talks_to i2o o2i) r (mycolor !!! r)
         /\ forall s, rtc (talks_to i2o o2i) r s ->
              mycolor !!! s = mycolor !!! r /\ (mycolor !!! r <= s)%nat.
Proof.
  intros Hrange Hsym Hblock Hfuel. unfold cmpt_colors. cbv zeta.
  set (G := fun rank => snd (init_color N rank (i2o rank) (o2i rank))).
  set (c0 := List.map
               (fun rank => fst (init_color N rank (i2o rank) (o2i rank)))
               (seq 0 N)).
  match goal with
  | |- context [if forallb ?f ?l then _ else _] =>
      assert (Hall : forallb f l = true)
  end.
  { apply forallb_forall. intros r Hr. apply in_seq in Hr.
    destruct (count_group_spec N (G r)) as [_ Hpos].
    destruct (Hblock r ltac:(lia)) as (s & Hs).
    assert (0 < count_group N (G r)) as Hcount;
      [|apply Z.gtb_lt; exact Hcount].
    apply Hpos. exists s.
    pose proof (talks_in_range N i2o o2i Hrange r s ltac:(lia) Hs) as HsN.
    split; [exact HsN|].
    apply (group_is_talks N i2o o2i Hrange r s); [lia | exact HsN | exact Hs]. }
  rewrite Hall.
  assert (Hok : colors_ok N i2o o2i c0).
  { split; [unfold c0; rewrite length_map, length_seq; reflexivity|].
    intros r Hr. unfold c0. rewrite lookup_total_map_seq by exact Hr.
    destruct (Hrange r Hr) as [Hi Ho].
    destruct (init_color_spec N r (i2o r) (o2i r) Hi Ho)
      as (_ & A & B & _).
    cbv zeta in A, B. split; [exact A|].
    destruct B as [->|B]; [apply rtc_refl | apply rtc_once; exact B]. }
  assert (Hsum : (list_sum c0 < fuel)%nat).
  { pose proof (list_sum_map_seq_le
                  (fun rank => fst (init_color N rank (i2o rank) (o2i rank)))
                  N) as H.
    fold c0 in H.
    assert (list_sum c0 <= N * N)%nat; [|lia].
    apply H. intros r Hr. destruct (Hrange r Hr) as [Hi Ho].
    destruct (init_color_spec N r (i2o r) (o2i r) Hi Ho) as (_ & A & _).
    cbv zeta in A. lia. }
  destruct (propagate_ends N i2o o2i Hrange Hsym fuel c0 Hok Hsum)
    as (c & Ec & [Hlen Hc] & Hedge).
  match goal with
  | |- context [match ?p with Some _ => _ | None => _ end] =>
      let H := fresh in assert (H : p = Some c) by exact Ec; rewrite H
  end.
  exists c. split; [reflexivity|]. split; [exact Hlen|].
  intros r Hr. split; [apply (Hc r Hr)|].
  intros s Hrs.
  assert (Hs : (s < N)%nat /\ c !!! s = c !!! r).
  { induction Hrs as [r|r y s Hry Hys IH].
    - split; [exact Hr | reflexivity].
    - pose proof (talks_in_range N i2o o2i Hrange r y Hr Hry) as Hy.
      destruct (IH Hy) as [Hs Es]. split; [exact Hs|].
      rewrite Es. apply Hedge; assumption. }
  destruct Hs as [Hs Es]. split; [exact Es|].
  destruct (Hc s Hs) as [Hle _]. lia.
Qed.

Lemma colors_are_lowest_linked_rank_witness :
  exists mycolor,
    cmpt_colors 10 3
      (fun r => match r with 0 => [1] | 1 => [0; 1] | _ => [2] end)%nat
      (fun r => match r with 0 => [1] | 1 => [1; 0] | _ => [2] end)%nat
    = Colors mycolor
    /\ length mycolor = 3%nat
    /\ forall r, (r < 3)%nat ->
         rtc (talks_to
                (fun r => match r with 0 => [1] | 1 => [0; 1] | _ => [2] end)%nat
                (fun r => match r with 0 => [1] | 1 => [1; 0] | _ => [2] end)%nat)
           r (mycolor !!! r)
         /\ forall s,
              rtc (talks_to
                     (fun r => match r with 0 => [1] | 1 => [0; 1] | _ => [2] end)%nat
                     (fun r => match r with 0 => [1] | 1 => [1; 0] | _ => [2] end)%nat)
                r s ->
              mycolor !!! s = mycolor !!! r /\ (mycolor !!! r <= s)%nat.
Proof.
  apply (colors_are_lowest_linked_rank 10 3
           (fun r => match r with 0 => [1] | 1 => [0; 1] | _ => [2] end)%nat
           (fun r => match r with 0 => [1] | 1 => [1; 0] | _ => [2] end)%nat).
  - intros r Hr. destruct r as [|[|[|r]]]; [| | |lia];
      split; repeat constructor.
  - intros r s Hr Hs. unfold talks_to.
    destruct r as [|[|[|r]]]; [| | |lia];
      destruct s as [|[|[|s]]]; try lia; cbn; intuition lia.
  - intros r Hr. unfold talks_to.
    destruct r as [|[|[|r]]]; [| | |lia];
      [exists 1%nat | exists 0%nat | exists 2%nat]; cbn; auto.
  - lia.
Defined.

End SwitchTopo_a2a_colorsFacts.

(** ** Solver.cpp: the copies between the user's arrays and the solver *)

Module SolverCopyFacts.
Import SolverCopy.

Section DoCopyFacts.
Context {D : Type}.
Variable collapsedIndex : nat -> Z -> Z -> arr3 Z -> Z -> Z.
Variable FLUPS_ALIGNMENT : Z.

Lemma copy_rows_writes (ax0 : nat) (nmem : arr3 Z)
  (memdim ondim onmax inmax : Z) (src : buffer D) :
  writes (copy_rows collapsedIndex ax0 nmem memdim ondim onmax inmax src)
    (fun p x =>
       (exists id ii, 0 <= id < onmax /\ 0 <= ii < inmax
          /\ p = id / ondim * memdim
                 + collapsedIndex ax0 0 (id mod ondim) nmem 1 + ii)
       /\ x = src p).
Proof.
  unfold copy_rows.
  eapply writes_weaken; [|apply writes_for_range; intros id Hid;
                           apply writes_for_range; intros ii Hii;
                           apply writes_write].
  intros p x. cbv beta. split.
  - intros (id & Hid & ii & Hii & -> & ->). split; [|reflexivity].
    exists id, ii. auto.
  - intros ((id & ii & Hid & Hii & ->) & ->).
    exists id. split; [exact Hid|]. exists ii. auto.
Qed.

Lemma copy_rows_spec (ax0 : nat) (nmem : arr3 Z)
  (memdim ondim onmax inmax : Z) (src dst : buffer D) (p : Z) :
  let touched :=
    exists id ii, 0 <= id < onmax /\ 0 <= ii < inmax
      /\ p = id / ondim * memdim
             + collapsedIndex ax0 0 (id mod ondim) nmem 1 + ii in
  (touched ->
   copy_rows collapsedIndex ax0 nmem memdim ondim onmax inmax src dst p = src p)
  /\ (~ touched ->
      copy_rows collapsedIndex ax0 nmem memdim ondim onmax inmax src dst p
      = dst p).
Proof.
  intros touched. split.
  - intros Ht.
    apply (writes_hit _ _ dst p (src p)
             (copy_rows_writes ax0 nmem memdim ondim onmax inmax src)).
    + split; [exact Ht | reflexivity].
    + intros y [_ ->]. reflexivity.
  - intros Hn.
    apply (writes_miss _ _ dst p
             (copy_rows_writes ax0 nmem memdim ondim onmax inmax src)).
    intros x [Ht _]. exact (Hn Ht).
Qed.

(** Whatever the alignment, a call that passes the checks runs the loop of
    its direction. *)
Lemma do_copy_runs (_lda : Z) (topo : Topology.Topology) (memdim : Z)
  (data_aligned : bool) (sign : Solver.PlanSign) (own arg : buffer D) :
  let ax0 := Topology._axis topo in
  let ondim :=
    get3 (Topology._nloc topo) ((ax0 + 1) mod 3)%nat
    * get3 (Topology._nloc topo) ((ax0 + 2) mod 3)%nat in
  let rows :=
    copy_rows collapsedIndex ax0 (Topology._nmem topo) memdim ondim
      (ondim * _lda) (get3 (Topology._nloc topo) ax0) in
  do_copy collapsedIndex FLUPS_ALIGNMENT _lda topo _lda memdim false
    data_aligned sign (own, arg)
  = Done match sign with
         | Solver.FLUPS_FORWARD => (rows arg own, arg)
         | Solver.FLUPS_BACKWARD => (own, rows own arg)
         end.
Proof.
  intros ax0 ondim rows. unfold do_copy, FLUPS_CHECK.
  rewrite Z.eqb_refl. cbn [negb fst snd].
  fold ax0. fold ondim. fold rows.
  destruct (data_aligned && _); destruct sign; reflexivity.
Qed.

(** X13.  On a real topology, a call of [do_copy] that passes its checks
    copies the scalars of the local extent, every component, between the
    array of the caller and the buffer of the solver, place for place, and
    leaves every other place of the two as it was, whether the memory is
    aligned or not: forward into the solver, backward out of it. *)
Theorem do_copy_moves_the_local_extent (_lda : Z) (topo : Topology.Topology)
  (memdim : Z) (data_aligned : bool) (sign : Solver.PlanSign)
  (own arg : buffer D) :
  Topology._nf topo = 1 ->
  exists own' arg',
    do_copy collapsedIndex FLUPS_ALIGNMENT _lda topo _lda memdim false
      data_aligned sign (own, arg) = Done (own', arg')
    /\ forall p,
         (local_place collapsedIndex _lda topo memdim p ->
          own' p = match sign with
                   | Solver.FLUPS_FORWARD => arg p
                   | Solver.FLUPS_BACKWARD => own p
                   end
          /\ arg' p = match sign with
                      | Solver.FLUPS_FORWARD => arg p
                      | Solver.FLUPS_BACKWARD => own p
                      end)
         /\ (~ local_place collapsedIndex _lda topo memdim p ->
             own' p = own p /\ arg' p = arg p).
Proof.
  intros _. rewrite do_copy_runs. cbv zeta.
  destruct sign; eexists _, _; (split; [reflexivity|]); intros p;
    match goal with
    | |- context [copy_rows _ ?a ?n ?m ?o ?x ?i ?src ?dst] =>
        destruct (copy_rows_spec a n m o x i src dst p) as [Hhit Hmiss]
    end;
    cbv zeta in Hhit, Hmiss; unfold local_place; cbv zeta; split.
  - intros Ht. split; [apply Hhit; exact Ht | reflexivity].
  - intros Hn. split; [apply Hmiss; exact Hn | reflexivity].
  - intros Ht. split; [reflexivity | apply Hhit; exact Ht].
  - intros Hn. split; [reflexivity | apply Hmiss; exact Hn].
Qed.

(** X14.  On a real topology, copying the right-hand side into the solver
    and, with nothing in between, copying the solver's buffer out into the
    field gives the field the right-hand side on the whole local extent, and
    changes nothing else of the field. *)
Theorem do_copy_forward_backward (_lda : Z) (topo : Topology.Topology)
  (memdim : Z) (rhs_aligned field_aligned : bool) (own rhs field : buffer D) :
  Topology._nf topo = 1 ->
  exists own' field',
    do_copy collapsedIndex FLUPS_ALIGNMENT _lda topo _lda memdim false
      rhs_aligned Solver.FLUPS_FORWARD (own, rhs) = Done (own', rhs)
    /\ do_copy collapsedIndex FLUPS_ALIGNMENT _lda topo _lda memdim false
         field_aligned Solver.FLUPS_BACKWARD (own', field)
       = Done (own', field')
    /\ forall p,
         (local_place collapsedIndex _lda topo memdim p -> field' p = rhs p)
         /\ (~ local_place collapsedIndex _lda topo memdim p ->
             field' p = field p).
Proof.
  intros _.
  eexists _, _. split; [rewrite do_copy_runs; reflexivity|].
  split; [rewrite do_copy_runs; reflexivity|].
  intros p. cbv zeta.
  match goal with
  | |- context [copy_rows _ ?a ?n ?m ?o ?x ?i ?src field] =>
      destruct (copy_rows_spec a n m o x i src field p) as [Hhit Hmiss];
      destruct (copy_rows_spec a n m o x i rhs own p) as [Hhit' _]
  end.
  cbv zeta in Hhit, Hmiss, Hhit'. unfold local_place. cbv zeta. split.
  - intros Ht. rewrite (Hhit Ht). apply Hhit'. exact Ht.
  - intros Hn. apply Hmiss. exact Hn.
Qed.
End DoCopyFacts.

Lemma do_copy_moves_the_local_extent_witness :
  exists own' arg',
    do_copy Examples.collapsedIndex 16 1 Examples.green_topo 1 4 false true
      Solver.FLUPS_FORWARD (fun _ => 0, fun p => p + 1) = Done (own', arg')
    /\ own' 3 = 4 /\ own' 4 = 0 /\ arg' 3 = 4.
Proof.
  destruct (do_copy_moves_the_local_extent Examples.collapsedIndex 16 1
              Examples.green_topo 4 true Solver.FLUPS_FORWARD
              (fun _ => 0) (fun p => p + 1) eq_refl)
    as (own' & arg' & Hrun & H).
  exists own', arg'. split; [exact Hrun|].
  destruct (H 3) as [Hhit _]. destruct (H 4) as [_ Hmiss].
  destruct Hhit as [E3 A3].
  { exists 1, 1. cbn. repeat split; lia. }
  destruct Hmiss as [E4 _].
  { intros (id & ii & Hid & Hii & E). cbn in Hid, Hii, E.
    unfold Examples.collapsedIndex in E. cbn in E.
    Z.div_mod_to_equations. lia. }
  split; [exact E3|]. split; [exact E4 | exact A3].
Defined.

Lemma do_copy_forward_backward_witness :
  exists own' field',
    do_copy Examples.collapsedIndex 16 1 Examples.green_topo 1 4 false true
      Solver.FLUPS_FORWARD (fun _ => 0, fun p => p + 1)
    = Done (own', fun p => p + 1)
    /\ do_copy Examples.collapsedIndex 16 1 Examples.green_topo 1 4 false
         false Solver.FLUPS_BACKWARD (own', fun _ => 9)
       = Done (own', field')
    /\ field' 3 = 4 /\ field' 4 = 9.
Proof.
  destruct (do_copy_forward_backward Examples.collapsedIndex 16 1
              Examples.green_topo 4 true false
              (fun _ => 0) (fun p => p + 1) (fun _ => 9) eq_refl)
    as (own' & field' & Hfwd & Hbwd & H).
  exists own', field'. split; [exact Hfwd|]. split; [exact Hbwd|].
  destruct (H 3) as [Hhit _]. destruct (H 4) as [_ Hmiss]. split.
  - apply Hhit. exists 1, 1. cbn. repeat split; lia.
  - apply Hmiss. intros (id & ii & Hid & Hii & E). cbn in Hid, Hii, E.
    unfold Examples.collapsedIndex in E. cbn in E.
    Z.div_mod_to_equations. lia.
Defined.

End SolverCopyFacts.

(** ** dothemagic_std.ipp: the product with the Green's function *)

Module SolverMagicFacts.
Import SolverMagic.

Section RowsFacts.
Context {D : Type}.

(** A loop over rows that do not overlap, each step of which rewrites one
    row from what that row holds, rewrites every row from what the buffer
    held on entry. *)
Lemma rows_spec (loc : Z -> Z) (w : Z) (row : Z -> buffer D -> buffer D)
  (val : Z -> buffer D -> Z -> D) (onmax : Z) (data : buffer D) :
  (forall id d p,
      row id d p
      = if (loc id <=? p) && (p <? loc id + w) then val id d p else d p) ->
  (forall id d d' p,
      loc id <= p < loc id + w ->
      (forall q, loc id <= q < loc id + w -> d q = d' q) ->
      val id d p = val id d' p) ->
  (forall id id' k k',
      0 <= id < onmax -> 0 <= id' < onmax -> 0 <= k < w -> 0 <= k' < w ->
      loc id + k = loc id' + k' -> id = id') ->
  let data' := for_range 0 onmax row data in
  (forall id k, 0 <= id < onmax -> 0 <= k < w ->
     data' (loc id + k) = val id data (loc id + k))
  /\ (forall p,
        (forall id k, 0 <= id < onmax -> 0 <= k < w -> p <> loc id + k) ->
        data' p = data p).
Proof.
  intros Hrow Hval Hrows. cbv zeta.
  destruct (Z.le_gt_cases onmax 0) as [Hle|Hgt].
  { rewrite for_range_empty by exact Hle. split; [intros; lia | reflexivity]. }
  pose (Inv := fun (n : Z) (s : buffer D) =>
    (forall id k, 0 <= id < n -> 0 <= k < w ->
       s (loc id + k) = val id data (loc id + k))
    /\ (forall p,
          (forall id k, 0 <= id < n -> 0 <= k < w -> p <> loc id + k) ->
          s p = data p)).
  enough (Inv onmax (for_range 0 onmax row data)) as H by exact H.
  apply for_range_ind; [lia | split; [intros; lia | reflexivity] |].
  intros i s Hi [IHin IHout]. split.
  - intros id k Hid Hk. rewrite Hrow.
    destruct (Z.eq_dec id i) as [->|Hne].
    + destruct (Z.leb_spec (loc i) (loc i + k));
        destruct (Z.ltb_spec (loc i + k) (loc i + w)); cbn; try lia.
      apply Hval; [lia|]. intros q Hq. apply IHout.
      intros id' k' Hid' Hk' Heq.
      assert (i = id')
        by (apply (Hrows i id' (q - loc i) k'); lia).
      lia.
    + destruct (Z.leb_spec (loc i) (loc id + k));
        destruct (Z.ltb_spec (loc id + k) (loc i + w)); cbn;
        try (apply IHin; lia).
      exfalso. apply Hne.
      apply (Hrows id i k (loc id + k - loc i)); lia.
  - intros p Hp. rewrite Hrow.
    destruct (Z.leb_spec (loc i) p);
      destruct (Z.ltb_spec p (loc i + w)); cbn;
      try (apply IHout; intros; apply Hp; lia).
    exfalso. apply (Hp i (p - loc i)); lia.
Qed.
End RowsFacts.

Section DoTheMagicFacts.
Context {D : Type}.
Variable dmul : D -> D -> D.
Variable dadd : D -> D -> D.
Variable dsub : D -> D -> D.
Variable collapsedIndex : nat -> Z -> Z -> arr3 Z -> Z -> Z.
Variable FLUPS_ALIGNMENT : Z.

(** One row of the real kind. *)
Lemma magic_row_real (dl gl inmax : Z) (normfact : D) (green d : buffer D)
  (p : Z) :
  for_range 0 inmax
    (fun ii data =>
       write data (dl + ii)
         (dmul (data (dl + ii)) (dmul normfact (green (gl + ii)))))
    d p
  = if (dl <=? p) && (p <? dl + inmax)
    then dmul (d p) (dmul normfact (green (gl + (p - dl))))
    else d p.
Proof.
  destruct (Z.le_gt_cases inmax 0) as [Hle|Hgt].
  - rewrite for_range_empty by exact Hle.
    destruct (Z.leb_spec dl p); destruct (Z.ltb_spec p (dl + inmax));
      cbn; first [reflexivity | lia].
  - revert p.
    apply (for_range_ind
             (fun i (s : buffer D) =>
                forall p, s p = if (dl <=? p) && (p <? dl + i)
                                then dmul (d p)
                                       (dmul normfact (green (gl + (p - dl))))
                                else d p)).
    + lia.
    + intros p.
      destruct (Z.leb_spec dl p); destruct (Z.ltb_spec p (dl + 0));
        cbn; first [reflexivity | lia].
    + intros i s Hi IH p. unfold write.
      destruct (Z.eqb_spec p (dl + i)) as [->|Hne].
      * rewrite IH.
        destruct (Z.leb_spec dl (dl + i));
          destruct (Z.ltb_spec (dl + i) (dl + i));
          destruct (Z.ltb_spec (dl + i) (dl + (i + 1)));
          cbn; try lia.
        replace (gl + (dl + i - dl)) with (gl + i) by lia. reflexivity.
      * rewrite IH.
        destruct (Z.leb_spec dl p); destruct (Z.ltb_spec p (dl + i));
          destruct (Z.ltb_spec p (dl + (i + 1)));
          cbn; first [reflexivity | lia].
Qed.

Lemma magic_row_complex (dl gl inmax : Z) (normfact : D)
  (green d : buffer D) (p : Z) :
  for_range 0 inmax
    (fun ii data =>
       let a := data (dl + (ii * 2 + 0)) in
       let b := data (dl + (ii * 2 + 1)) in
       let c := green (gl + (ii * 2 + 0)) in
       let e := green (gl + (ii * 2 + 1)) in
       let data :=
         write data (dl + (ii * 2 + 0))
           (dmul normfact (dsub (dmul a c) (dmul b e))) in
       write data (dl + (ii * 2 + 1))
         (dmul normfact (dadd (dmul a e) (dmul b c))))
    d p
  = if (dl <=? p) && (p <? dl + 2 * inmax)
    then complex_value dmul dadd dsub dl gl normfact green d p
    else d p.
Proof.
  destruct (Z.le_gt_cases inmax 0) as [Hle|Hgt].
  - rewrite for_range_empty by exact Hle.
    destruct (Z.leb_spec dl p); destruct (Z.ltb_spec p (dl + 2 * inmax));
      cbn; first [reflexivity | lia].
  - revert p.
    apply (for_range_ind
             (fun i (s : buffer D) =>
                forall p, s p = if (dl <=? p) && (p <? dl + 2 * i)
                                then complex_value dmul dadd dsub dl gl normfact green d p
                                else d p)).
    + lia.
    + intros p.
      destruct (Z.leb_spec dl p); destruct (Z.ltb_spec p (dl + 2 * 0));
        cbn; first [reflexivity | lia].
    + intros i s Hi IH p. cbv zeta.
      assert (Ha : s (dl + (i * 2 + 0)) = d (dl + (i * 2 + 0))).
      { rewrite IH.
        destruct (Z.leb_spec dl (dl + (i * 2 + 0)));
          destruct (Z.ltb_spec (dl + (i * 2 + 0)) (dl + 2 * i));
          cbn; first [reflexivity | lia]. }
      assert (Hb : s (dl + (i * 2 + 1)) = d (dl + (i * 2 + 1))).
      { rewrite IH.
        destruct (Z.leb_spec dl (dl + (i * 2 + 1)));
          destruct (Z.ltb_spec (dl + (i * 2 + 1)) (dl + 2 * i));
          cbn; first [reflexivity | lia]. }
      rewrite Ha, Hb. unfold write.
      destruct (Z.eqb_spec p (dl + (i * 2 + 1))) as [->|Hne1].
      * destruct (Z.leb_spec dl (dl + (i * 2 + 1)));
          destruct (Z.ltb_spec (dl + (i * 2 + 1)) (dl + 2 * (i + 1)));
          cbn; try lia.
        unfold complex_value.
        replace (dl + (i * 2 + 1) - dl) with (1 + i * 2) by lia.
        rewrite Z.div_add, Z.mod_add by lia. cbn.
        reflexivity.
      * destruct (Z.eqb_spec p (dl + (i * 2 + 0))) as [->|Hne0].
        -- destruct (Z.leb_spec dl (dl + (i * 2 + 0)));
             destruct (Z.ltb_spec (dl + (i * 2 + 0)) (dl + 2 * (i + 1)));
             cbn; try lia.
           unfold complex_value.
           replace (dl + (i * 2 + 0) - dl) with (0 + i * 2) by lia.
           rewrite Z.div_add, Z.mod_add by lia. cbn.
           reflexivity.
        -- rewrite IH.
           destruct (Z.leb_spec dl p); destruct (Z.ltb_spec p (dl + 2 * i));
             destruct (Z.ltb_spec p (dl + 2 * (i + 1)));
             cbn; first [reflexivity | lia].
Qed.

(** X15.  The real kind of the product.  When the checks pass and the rows
    of the local extent do not overlap, every scalar of the local extent, of
    every component, is multiplied once by the normalisation factor times
    the value of the Green's function at the same point (the Green's
    function has one component), and nothing else is changed. *)
Theorem dothemagic_std_real_multiplies_by_green (_ndim : nat)
  (_topo_hat : arr3 Topology.Topology) (lda memdim : Z) (normfact : D)
  (green data : buffer D) :
  let topo := get3 _topo_hat (_ndim - 1) in
  let ax0 := Topology._axis topo in
  let nmem := Topology._nmem topo in
  let ondim := get3 (Topology._nloc topo) ((ax0 + 1) mod 3)%nat
               * get3 (Topology._nloc topo) ((ax0 + 2) mod 3)%nat in
  let inmax := get3 (Topology._nloc topo) ax0 in
  let gloc := fun id => collapsedIndex ax0 0 (id mod ondim) nmem 1 in
  let dloc := fun id => id / ondim * memdim + gloc id in
  (0 < _ndim <= 3)%nat ->
  Topology._nf topo = 1 ->
  (get3 nmem ax0 * 1 * sizeof_double) mod FLUPS_ALIGNMENT = 0 ->
  (forall id id' ii ii',
      0 <= id < ondim * lda -> 0 <= id' < ondim * lda ->
      0 <= ii < inmax -> 0 <= ii' < inmax ->
      dloc id + ii = dloc id' + ii' -> id = id') ->
  exists data',
    dothemagic_std_real dmul dadd dsub collapsedIndex FLUPS_ALIGNMENT _ndim
      _topo_hat lda memdim normfact green true true data = Done data'
    /\ (forall id ii, 0 <= id < ondim * lda -> 0 <= ii < inmax ->
          data' (dloc id + ii)
          = dmul (data (dloc id + ii))
              (dmul normfact (green (gloc id + ii))))
    /\ (forall p,
          (forall id ii, 0 <= id < ondim * lda -> 0 <= ii < inmax ->
             p <> dloc id + ii) ->
          data' p = data p).
Proof.
  intros topo ax0 nmem ondim inmax gloc dloc _ Hnf Hal Hrows.
  unfold dothemagic_std_real, dothemagic_std, FLUPS_CHECK. cbv zeta.
  fold topo. rewrite Hnf. cbn [Z.eqb Pos.eqb andb].
  fold ax0 nmem. rewrite Hal. cbn [Z.eqb andb].
  eexists. split; [reflexivity|].
  unfold magic_loop_real. fold ondim inmax.
  pose proof (rows_spec dloc inmax
    (fun id d =>
       for_range 0 inmax
         (fun ii data0 =>
            write data0 (dloc id + ii)
              (dmul (data0 (dloc id + ii))
                 (dmul normfact (green (gloc id + ii))))) d)
    (fun id d p => dmul (d p) (dmul normfact (green (gloc id + (p - dloc id)))))
    (ondim * lda) data) as H.
  cbv zeta in H.
  destruct H as [Hin Hout].
  - intros id d p. apply magic_row_real.
  - intros id d d' p Hp Hq. rewrite (Hq p Hp). reflexivity.
  - exact Hrows.
  - split.
    + intros id ii Hid Hii. etrans; [apply (Hin id ii Hid Hii)|]. cbv beta.
      replace (gloc id + (dloc id + ii - dloc id)) with (gloc id + ii) by lia.
      reflexivity.
    + exact Hout.
Qed.

(** X16.  The complex kind of the product.  When the checks pass and the
    rows of the local extent do not overlap, every complex number of the
    local extent, of every component, is replaced by its complex product
    with the value of the Green's function at the same point, times the
    normalisation factor; nothing else is changed. *)
Theorem dothemagic_std_complex_multiplies_by_green (_ndim : nat)
  (_topo_hat : arr3 Topology.Topology) (lda memdim : Z) (normfact : D)
  (green data : buffer D) :
  let topo := get3 _topo_hat (_ndim - 1) in
  let ax0 := Topology._axis topo in
  let nmem := Topology._nmem topo in
  let ondim := get3 (Topology._nloc topo) ((ax0 + 1) mod 3)%nat
               * get3 (Topology._nloc topo) ((ax0 + 2) mod 3)%nat in
  let inmax := get3 (Topology._nloc topo) ax0 in
  let gloc := fun id => collapsedIndex ax0 0 (id mod ondim) nmem 2 in
  let dloc := fun id => id / ondim * memdim + gloc id in
  (0 < _ndim <= 3)%nat ->
  Topology._nf topo = 2 ->
  (get3 nmem ax0 * 2 * sizeof_double) mod FLUPS_ALIGNMENT = 0 ->
  (forall id id' k k',
      0 <= id < ondim * lda -> 0 <= id' < ondim * lda ->
      0 <= k < 2 * inmax -> 0 <= k' < 2 * inmax ->
      dloc id + k = dloc id' + k' -> id = id') ->
  exists data',
    dothemagic_std_complex dmul dadd dsub collapsedIndex FLUPS_ALIGNMENT
      _ndim _topo_hat lda memdim normfact green true true data = Done data'
    /\ (forall id ii, 0 <= id < ondim * lda -> 0 <= ii < inmax ->
          let a := data (dloc id + 2 * ii) in
          let b := data (dloc id + 2 * ii + 1) in
          let c := green (gloc id + 2 * ii) in
          let e := green (gloc id + 2 * ii + 1) in
          data' (dloc id + 2 * ii)
          = dmul normfact (dsub (dmul a c) (dmul b e))
          /\ data' (dloc id + 2 * ii + 1)
             = dmul normfact (dadd (dmul a e) (dmul b c)))
    /\ (forall p,
          (forall id k, 0 <= id < ondim * lda -> 0 <= k < 2 * inmax ->
             p <> dloc id + k) ->
          data' p = data p).
Proof.
  intros topo ax0 nmem ondim inmax gloc dloc _ Hnf Hal Hrows.
  unfold dothemagic_std_complex, dothemagic_std, FLUPS_CHECK. cbv zeta.
  fold topo. rewrite Hnf. cbn [Z.eqb Pos.eqb andb].
  fold ax0 nmem. rewrite Hal. cbn [Z.eqb andb].
  eexists. split; [reflexivity|].
  unfold magic_loop_complex. fold ondim inmax.
  pose proof (rows_spec dloc (2 * inmax)
    (fun id d =>
       for_range 0 inmax
         (fun ii data0 =>
            write
              (write data0 (dloc id + (ii * 2 + 0))
                 (dmul normfact
                    (dsub
                       (dmul (data0 (dloc id + (ii * 2 + 0)))
                          (green (gloc id + (ii * 2 + 0))))
                       (dmul (data0 (dloc id + (ii * 2 + 1)))
                          (green (gloc id + (ii * 2 + 1)))))))
              (dloc id + (ii * 2 + 1))
              (dmul normfact
                 (dadd
                    (dmul (data0 (dloc id + (ii * 2 + 0)))
                       (green (gloc id + (ii * 2 + 1))))
                    (dmul (data0 (dloc id + (ii * 2 + 1)))
                       (green (gloc id + (ii * 2 + 0))))))) d)
    (fun id d p =>
       complex_value dmul dadd dsub (dloc id) (gloc id) normfact green d p)
    (ondim * lda) data) as H.
  cbv zeta in H.
  destruct H as [Hin Hout].
  - intros id d p.
    apply (magic_row_complex (dloc id) (gloc id) inmax normfact green d p).
  - intros id d d' p Hp Hq. unfold complex_value.
    assert (Hr : 0 <= (p - dloc id) mod 2 < 2) by (apply Z.mod_pos_bound; lia).
    pose proof (Z.div_mod (p - dloc id) 2 ltac:(lia)) as Hdm.
    rewrite !Hq by lia. reflexivity.
  - exact Hrows.
  - split.
    + intros id ii Hid Hii. cbv zeta. split.
      * replace (dloc id + 2 * ii) with (dloc id + (2 * ii + 0)) at 1 by lia.
        etrans; [apply (Hin id (2 * ii + 0) Hid); lia|]. cbv beta.
        unfold complex_value.
        replace (dloc id + (2 * ii + 0) - dloc id) with (0 + ii * 2) by lia.
        rewrite Z.div_add, Z.mod_add by lia. cbn [Z.div Z.modulo Z.eqb Z.add].
        change (0 / 2) with 0. change (0 mod 2) with 0. cbn [Z.eqb Z.add].
        f_equal; f_equal; f_equal; f_equal; lia.
      * replace (dloc id + 2 * ii + 1) with (dloc id + (2 * ii + 1)) at 1 by lia.
        etrans; [apply (Hin id (2 * ii + 1) Hid); lia|]. cbv beta.
        unfold complex_value.
        replace (dloc id + (2 * ii + 1) - dloc id) with (1 + ii * 2) by lia.
        rewrite Z.div_add, Z.mod_add by lia.
        change (1 / 2) with 0. change (1 mod 2) with 1. cbn [Z.eqb Z.add].
        f_equal; f_equal; f_equal; f_equal; lia.
    + exact Hout.
Qed.
End DoTheMagicFacts.

Lemma dothemagic_std_real_multiplies_by_green_witness :
  exists data',
    dothemagic_std_real Z.mul Z.add Z.sub Examples.collapsedIndex 16 3
      (Examples.green_topo, Examples.green_topo, Examples.green_topo) 2 4 3
      (fun p => p + 1) true true (fun p => 10 + p) = Done data'
    /\ data' 0 = 10 * (3 * 1) /\ data' 6 = 16 * (3 * 3) /\ data' 8 = 18.
Proof.
  destruct (dothemagic_std_real_multiplies_by_green Z.mul Z.add Z.sub
              Examples.collapsedIndex 16 3
              (Examples.green_topo, Examples.green_topo, Examples.green_topo)
              2 4 3 (fun p => p + 1) (fun p => 10 + p))
    as (data' & Hrun & Hin & Hout).
  - lia.
  - reflexivity.
  - reflexivity.
  - cbn. unfold Examples.collapsedIndex. cbn. intros.
    Z.div_mod_to_equations. lia.
  - exists data'. split; [exact Hrun|].
    split; [exact (Hin 0 0 ltac:(cbn; lia) ltac:(cbn; lia))|].
    split; [exact (Hin 3 0 ltac:(cbn; lia) ltac:(cbn; lia))|].
    apply (Hout 8). cbn. unfold Examples.collapsedIndex. cbn. intros.
    Z.div_mod_to_equations. lia.
Defined.

Lemma dothemagic_std_complex_multiplies_by_green_witness :
  exists data',
    dothemagic_std_complex Z.mul Z.add Z.sub Examples.collapsedIndex 16 3
      (MoreExamples.hat_topo, MoreExamples.hat_topo, MoreExamples.hat_topo)
      1 8 1 (fun p => p + 1) true true (fun p => p + 1) = Done data'
    /\ data' 0 = 1 * (1 * 1 - 2 * 2) /\ data' 1 = 1 * (1 * 2 + 2 * 1)
    /\ data' 8 = 9.
Proof.
  destruct (dothemagic_std_complex_multiplies_by_green Z.mul Z.add Z.sub
              Examples.collapsedIndex 16 3
              (MoreExamples.hat_topo, MoreExamples.hat_topo,
               MoreExamples.hat_topo)
              1 8 1 (fun p => p + 1) (fun p => p + 1))
    as (data' & Hrun & Hin & Hout).
  - lia.
  - reflexivity.
  - reflexivity.
  - cbn. unfold Examples.collapsedIndex. cbn. intros.
    Z.div_mod_to_equations. lia.
  - exists data'. split; [exact Hrun|].
    destruct (Hin 0 0 ltac:(cbn; lia) ltac:(cbn; lia)) as [Hre Him].
    split; [exact Hre|]. split; [exact Him|].
    apply (Hout 8). cbn. unfold Examples.collapsedIndex. cbn. intros.
    Z.div_mod_to_equations. lia.
Defined.

End SolverMagicFacts.

(** ** Profiler.cpp: the timers that the solver starts and stops *)

Module ProfilerFacts.
Import Profiler.

Section AgentsFacts.
Context {D : Type}.
Variable dadd : D -> D -> D.
Variable dsub : D -> D -> D.
Variable dlt : D -> D -> bool.
Variable dzero : D.
Variable count0 : Z.
Variable memsize0 : Z.
Variable daddy0 : option string.
Variable isroot0 : bool.

(** X17.  A started timer that is stopped adds the interval to the
    accumulated time and keeps the larger of the former maximum and the
    interval; as minimum it records the interval just measured, whatever
    the former minimum and the intervals measured before were (the values
    being ordered by [<], as the readings of a clock are). *)
Theorem stop_records_last_interval_as_minimum (t0 t1 : D)
  (a : TimerAgent D) :
  (forall x y : D, dlt x y = false -> dlt y x = false -> x = y) ->
  let a' := stop dadd dsub dlt t1 (start t0 a) in
  let dt := dsub t1 t0 in
  _timeMin a' = dt
  /\ _timeMax a' = (if dlt (_timeMax a) dt then dt else _timeMax a)
  /\ _timeAcc a' = dadd (_timeAcc a) dt
  /\ _count a' = to_int (_count a + 1).
Proof.
  intros Htri. cbn. unfold min, max.
  split; [|auto].
  destruct (dlt (_timeMax a) (dsub t1 t0)) eqn:E1.
  - destruct (dlt (dsub t1 t0) (dsub t1 t0)); reflexivity.
  - destruct (dlt (dsub t1 t0) (_timeMax a)) eqn:E2; [reflexivity|].
    apply Htri; assumption.
Qed.

Lemma same_but_links_refl (b : TimerAgent D) : same_but_links b b.
Proof. split; reflexivity. Qed.

Lemma same_but_links_trans (a b c : TimerAgent D) :
  same_but_links a b -> same_but_links b c -> same_but_links a c.
Proof.
  intros [E1 S1] [E2 S2]. split; [congruence | etrans; eassumption].
Qed.

Lemma keeps_refl (m : gmap string (TimerAgent D)) : keeps m m.
Proof. intros k b Hb. exists b. split; [exact Hb | apply same_but_links_refl]. Qed.

Lemma keeps_trans (m1 m2 m3 : gmap string (TimerAgent D)) :
  keeps m1 m2 -> keeps m2 m3 -> keeps m1 m3.
Proof.
  intros H12 H23 k b Hb.
  destruct (H12 k b Hb) as (b2 & Hb2 & S12).
  destruct (H23 k b2 Hb2) as (b3 & Hb3 & S23).
  exists b3. split; [exact Hb3 | eapply same_but_links_trans; eassumption].
Qed.

Lemma keeps_is_Some (m m' : gmap string (TimerAgent D)) (k : string) :
  keeps m m' -> is_Some (m !! k) -> is_Some (m' !! k).
Proof.
  intros Hk [b Hb]. destruct (Hk k b Hb) as (b' & Hb' & _). eauto.
Qed.

Lemma keeps_listed (m m' : gmap string (TimerAgent D)) (k n : string)
  (b : TimerAgent D) :
  keeps m m' -> m !! k = Some b -> is_Some (_children b !! n) ->
  exists b', m' !! k = Some b' /\ is_Some (_children b' !! n).
Proof.
  intros Hk Hb [p Hp]. destruct (Hk k b Hb) as (b' & Hb' & _ & Hsub).
  exists b'. split; [exact Hb'|]. exists p.
  eapply lookup_weaken; eassumption.
Qed.

(** [_createSingle]: an agent that exists is reset, one that does not is
    made. *)
Lemma createSingle_spec (name : string) (m : gmap string (TimerAgent D)) :
  names_ok m ->
  let m' := _createSingle dzero count0 memsize0 daddy0 isroot0 name m in
  names_ok m'
  /\ is_Some (m' !! name)
  /\ (forall k b, m !! k = Some b ->
        m' !! k = Some (if decide (k = name) then reset dzero b else b))
  /\ (m !! name = None -> keeps m m').
Proof.
  intros Hn. cbv zeta. unfold _createSingle.
  destruct (m !! name) as [a|] eqn:Ea.
  - split; [|split; [|split]].
    + intros k b. rewrite lookup_insert.
      destruct (decide (name = k)) as [<-|Hne].
      * intros [= <-]. cbn. apply Hn. exact Ea.
      * apply Hn.
    + rewrite lookup_insert_eq. eauto.
    + intros k b Hb. rewrite lookup_insert.
      destruct (decide (name = k)) as [<-|Hne].
      * rewrite decide_True by reflexivity. congruence.
      * rewrite decide_False by congruence. exact Hb.
    + discriminate.
  - split; [|split; [|split]].
    + intros k b. rewrite lookup_insert.
      destruct (decide (name = k)) as [<-|Hne].
      * intros [= <-]. reflexivity.
      * apply Hn.
    + rewrite lookup_insert_eq. eauto.
    + intros k b Hb. rewrite lookup_insert.
      destruct (decide (name = k)) as [<-|Hne]; [congruence|].
      rewrite decide_False by congruence. exact Hb.
    + intros _ k b Hb. exists b. split; [|apply same_but_links_refl].
      rewrite lookup_insert_ne; [exact Hb | congruence].
Qed.

(** [addChild] between two agents of the map. *)
Lemma addChild_spec (this child : string) (m : gmap string (TimerAgent D)) :
  names_ok m -> is_Some (m !! this) -> is_Some (m !! child) ->
  exists m',
    addChild this child m = Some m'
    /\ names_ok m'
    /\ keeps m m'
    /\ (exists t', m' !! this = Some t' /\ is_Some (_children t' !! child))
    /\ (forall t, m !! this = Some t -> _children t !! child = None ->
          exists c', m' !! child = Some c' /\ _daddy c' = Some this
                     /\ _isroot c' = false).
Proof.
  intros Hn [t Ht] [c Hc]. unfold addChild. rewrite Hc, Ht.
  rewrite (Hn child c Hc).
  destruct (_children t !! child) as [p|] eqn:Ep.
  - exists m. split; [reflexivity|]. split; [exact Hn|].
    split; [apply keeps_refl|]. split; [exists t; eauto|].
    intros t0 [= <-]. congruence.
  - set (t1 := set_children (<[child:=child]> (_children t)) t).
    assert (Hc1 : exists c1, <[this:=t1]> m !! child = Some c1
                    /\ _name c1 = child
                    /\ scalars c1 = scalars c
                    /\ _children c ⊆ _children c1
                    /\ (this = child -> c1 = t1)).
    { rewrite lookup_insert. destruct (decide (this = child)) as [->|Hne].
      - exists t1. assert (t = c) as -> by congruence.
        split; [reflexivity|]. split; [apply (Hn child c Hc)|].
        split; [reflexivity|]. split; [|reflexivity].
        cbn. apply insert_subseteq. exact Ep.
      - exists c. split; [exact Hc|]. split; [apply (Hn child c Hc)|].
        split; [reflexivity|]. split; [reflexivity | contradiction]. }
    destruct Hc1 as (c1 & Hc1 & Hname1 & Hsc1 & Hch1 & Hsame). rewrite Hc1.
    eexists. split; [reflexivity|].
    split; [|split; [|split]].
    + intros k b. rewrite lookup_insert.
      destruct (decide (child = k)) as [<-|Hne].
      * intros [= <-]. exact Hname1.
      * rewrite lookup_insert. destruct (decide (this = k)) as [<-|Hne'].
        -- intros [= <-]. apply (Hn this t Ht).
        -- apply Hn.
    + intros k b Hb. rewrite lookup_insert.
      destruct (decide (child = k)) as [<-|Hne].
      * exists (setDaddy this c1). split; [reflexivity|].
        assert (b = c) as -> by congruence.
        split; [exact Hsc1 | exact Hch1].
      * rewrite lookup_insert. destruct (decide (this = k)) as [<-|Hne'].
        -- exists t1. split; [reflexivity|].
           assert (b = t) as -> by congruence.
           split; [reflexivity|]. cbn. apply insert_subseteq. exact Ep.
        -- exists b. split; [exact Hb | apply same_but_links_refl].
    + rewrite lookup_insert. destruct (decide (child = this)) as [E|Hne].
      * exists (setDaddy this c1). split; [reflexivity|].
        rewrite (Hsame (eq_sym E)). cbn. rewrite lookup_insert_eq. eauto.
      * rewrite lookup_insert_eq. exists t1. split; [reflexivity|].
        cbn. rewrite lookup_insert_eq. eauto.
    + intros _ _ _. exists (setDaddy this c1).
      rewrite lookup_insert_eq. auto.
Qed.

Local Abbreviation createSingle := (_createSingle dzero count0 memsize0 daddy0 isroot0).
Local Abbreviation create' := (create dzero count0 memsize0 daddy0 isroot0).

Lemma create_unfold (fuel : nat) (child daddy : string)
  (m : gmap string (TimerAgent D)) :
  create' (S fuel) child daddy m
  = match createSingle child m !! daddy with
    | Some _ => addChild daddy child (createSingle child m)
    | None =>
        match create' fuel daddy "root" (createSingle child m) with
        | None => None
        | Some m2 => addChild daddy child m2
        end
    end.
Proof.
  cbn [create]. destruct (createSingle child m !! daddy); reflexivity.
Qed.

(** The call that finds [daddy] in the map. *)
Lemma create_found (fuel : nat) (child daddy : string)
  (m : gmap string (TimerAgent D)) :
  names_ok m ->
  is_Some (createSingle child m !! daddy) ->
  exists m',
    create' (S fuel) child daddy m = Some m'
    /\ names_ok m'
    /\ keeps (createSingle child m) m'
    /\ (exists d, m' !! daddy = Some d /\ is_Some (_children d !! child))
    /\ (forall t, createSingle child m !! daddy = Some t ->
          _children t !! child = None ->
          exists c', m' !! child = Some c' /\ _daddy c' = Some daddy
                     /\ _isroot c' = false).
Proof.
  intros Hn Hd.
  destruct (createSingle_spec child m Hn) as (Hn1 & Hc1 & _ & _).
  destruct (addChild_spec daddy child _ Hn1 Hd Hc1)
    as (m' & Hrun & Hn' & Hk & Hl & Hdad).
  destruct Hd as [t Ht]. exists m'.
  split; [rewrite create_unfold, Ht; exact Hrun | auto].
Qed.

(** The call with ["root"] as parent, which makes the root if need be. *)
Lemma create_root (fuel : nat) (child : string)
  (m : gmap string (TimerAgent D)) :
  names_ok m ->
  exists m',
    create' (S (S fuel)) child "root" m = Some m'
    /\ names_ok m'
    /\ keeps (createSingle child m) m'
    /\ (exists d, m' !! "root" = Some d /\ is_Some (_children d !! child)).
Proof.
  intros Hn.
  destruct (createSingle_spec child m Hn) as (Hn1 & Hc1 & _ & _).
  destruct (createSingle child m !! "root") as [r|] eqn:Er.
  - destruct (create_found (S fuel) child "root" m Hn ltac:(eauto))
      as (m' & Hrun & Hn' & Hk & Hl & _).
    exists m'. auto.
  - rewrite create_unfold, Er.
    destruct (createSingle_spec "root" _ Hn1) as (Hn2 & Hr2 & _ & Hk2).
    destruct (create_found fuel "root" "root" _ Hn1 Hr2)
      as (m2 & Hrun2 & Hn2' & Hk2' & Hl2 & _).
    rewrite Hrun2.
    assert (Hk12 : keeps (createSingle child m) m2)
      by (eapply keeps_trans; [apply Hk2; exact Er | exact Hk2']).
    destruct (addChild_spec "root" child m2 Hn2')
      as (m' & Hrun & Hn' & Hk & Hl & _).
    + destruct Hl2 as (d & Hd & _). eauto.
    + eapply keeps_is_Some; eassumption.
    + exists m'. split; [exact Hrun|]. split; [exact Hn'|].
      split; [eapply keeps_trans; eassumption | exact Hl].
Qed.

(** [create] in general: three nested calls at most. *)
Lemma create_spec (fuel : nat) (child daddy : string)
  (m : gmap string (TimerAgent D)) :
  names_ok m ->
  exists m',
    create' (S (S (S fuel))) child daddy m = Some m'
    /\ names_ok m'
    /\ keeps (createSingle child m) m'
    /\ (exists d, m' !! daddy = Some d /\ is_Some (_children d !! child)).
Proof.
  intros Hn.
  destruct (createSingle_spec child m Hn) as (Hn1 & Hc1 & _ & _).
  destruct (createSingle child m !! daddy) as [r|] eqn:Er.
  - destruct (create_found (S (S fuel)) child daddy m Hn ltac:(eauto))
      as (m' & Hrun & Hn' & Hk & Hl & _).
    exists m'. auto.
  - rewrite create_unfold, Er.
    destruct (createSingle_spec daddy _ Hn1) as (Hn2 & Hd2 & _ & Hk2).
    destruct (create_root fuel daddy _ Hn1) as (m2 & Hrun2 & Hn2' & Hk2' & _).
    rewrite Hrun2.
    assert (Hk12 : keeps (createSingle child m) m2)
      by (eapply keeps_trans; [apply Hk2; exact Er | exact Hk2']).
    destruct (addChild_spec daddy child m2 Hn2')
      as (m' & Hrun & Hn' & Hk & Hl & _).
    + apply (keeps_is_Some _ _ _ Hk2' Hd2).
    + apply (keeps_is_Some _ _ _ Hk12 Hc1).
    + exists m'. split; [exact Hrun|]. split; [exact Hn'|].
      split; [eapply keeps_trans; eassumption | exact Hl].
Qed.

(** X18.  [create] returns whatever the map holds, after three nested calls
    at most: the parent, made if it was missing, then lists the child, every
    timer that existed still exists, and every timer still lists the
    children it had. *)
Theorem create_links_and_removes_nothing (fuel : nat) (child daddy : string)
  (m : gmap string (TimerAgent D)) :
  names_ok m ->
  (3 <= fuel)%nat ->
  exists m',
    create' fuel child daddy m = Some m'
    /\ names_ok m'
    /\ is_Some (m' !! child)
    /\ (exists d, m' !! daddy = Some d /\ is_Some (_children d !! child))
    /\ (forall k b n, m !! k = Some b -> is_Some (_children b !! n) ->
          exists b', m' !! k = Some b' /\ is_Some (_children b' !! n)).
Proof.
  intros Hn Hfuel.
  destruct fuel as [|[|[|fuel]]]; try lia.
  destruct (create_spec fuel child daddy m Hn) as (m' & Hrun & Hn' & Hk & Hl).
  destruct (createSingle_spec child m Hn) as (_ & Hc1 & Hold & _).
  exists m'. split; [exact Hrun|]. split; [exact Hn'|].
  split; [eapply keeps_is_Some; eassumption|]. split; [exact Hl|].
  intros k b n Hb Hlist.
  apply (keeps_listed _ _ k n _ Hk (Hold k b Hb)).
  destruct (decide (k = child)); exact Hlist.
Qed.

(** X19.  Creating a timer that exists already sets its times back to zero
    and keeps its number of calls, its amount of memory and its children:
    the number of calls no longer matches the accumulated time. *)
Theorem create_again_resets_times_not_count (fuel : nat)
  (name daddy : string) (m : gmap string (TimerAgent D))
  (a : TimerAgent D) :
  names_ok m ->
  (3 <= fuel)%nat ->
  m !! name = Some a ->
  exists m' a',
    create' fuel name daddy m = Some m'
    /\ m' !! name = Some a'
    /\ _count a' = _count a
    /\ _memsize a' = _memsize a
    /\ _timeAcc a' = dzero /\ _timeMax a' = dzero /\ _timeMin a' = dzero
    /\ _children a ⊆ _children a'.
Proof.
  intros Hn Hfuel Ha.
  destruct fuel as [|[|[|fuel]]]; try lia.
  destruct (create_spec fuel name daddy m Hn) as (m' & Hrun & Hn' & Hk & Hl).
  destruct (createSingle_spec name m Hn) as (_ & _ & Hold & _).
  pose proof (Hold name a Ha) as H1. rewrite decide_True in H1 by reflexivity.
  destruct (Hk name _ H1) as (a' & Ha' & Hsc & Hch).
  exists m', a'. split; [exact Hrun|]. split; [exact Ha'|].
  unfold scalars in Hsc. cbn in Hsc.
  injection Hsc as _ Hcount _ _ Hacc Hmax Hmin Hmem.
  auto 10.
Qed.

(** X20.  Creating an existing timer under another parent, which does not
    list it yet, leaves it listed under the former parent as well, while
    its own pointer goes to the new parent: the timer is then reached from
    both. *)
Theorem create_under_second_parent_lists_twice (fuel : nat)
  (child d1 d2 : string) (m : gmap string (TimerAgent D))
  (b1 b2 : TimerAgent D) :
  names_ok m ->
  (3 <= fuel)%nat ->
  m !! d1 = Some b1 -> is_Some (_children b1 !! child) ->
  m !! d2 = Some b2 -> _children b2 !! child = None ->
  exists m' b1' b2' c',
    create' fuel child d2 m = Some m'
    /\ m' !! d1 = Some b1' /\ is_Some (_children b1' !! child)
    /\ m' !! d2 = Some b2' /\ is_Some (_children b2' !! child)
    /\ m' !! child = Some c' /\ _daddy c' = Some d2.
Proof.
  intros Hn Hfuel Hb1 Hl1 Hb2 Hl2.
  destruct fuel as [|fuel]; [lia|].
  destruct (createSingle_spec child m Hn) as (_ & _ & Hold & _).
  pose proof (Hold d2 b2 Hb2) as H2.
  destruct (create_found fuel child d2 m Hn ltac:(eauto))
    as (m' & Hrun & Hn' & Hk & (b2' & Hb2' & Hl2') & Hdad).
  destruct (Hdad _ H2) as (c' & Hc' & Hd' & _).
  { destruct (decide (d2 = child)); exact Hl2. }
  destruct (keeps_listed _ _ d1 child _ Hk (Hold d1 b1 Hb1)) as (b1' & Hb1' & Hl1').
  { destruct (decide (d1 = child)); exact Hl1. }
  exists m', b1', b2', c'. auto 10.
Qed.

Lemma Profiler_new_names_ok :
  names_ok (Profiler_new dzero count0 memsize0 daddy0 isroot0).
Proof. apply createSingle_spec. intros k a Hk. rewrite lookup_empty in Hk. discriminate. Qed.

Lemma create_names_ok (fuel : nat) (child daddy : string)
  (m m' : gmap string (TimerAgent D)) :
  names_ok m -> create' (S (S (S fuel))) child daddy m = Some m' ->
  names_ok m'.
Proof.
  intros Hn Hrun.
  destruct (create_spec fuel child daddy m Hn) as (m2 & Hrun2 & Hn2 & _).
  rewrite Hrun in Hrun2. injection Hrun2 as <-. exact Hn2.
Qed.
End AgentsFacts.

Lemma timers_names_ok : names_ok ProfilerExamples.timers.
Proof.
  unfold ProfilerExamples.timers.
  destruct (ProfilerExamples.create3 "copy" "solve" _) as [m1|] eqn:E1;
    [|intros k a Hk; rewrite lookup_empty in Hk; discriminate].
  destruct (ProfilerExamples.create3 "setup" "root" m1) as [m2|] eqn:E2;
    [|intros k a Hk; rewrite lookup_empty in Hk; discriminate].
  eapply create_names_ok; [|exact E2].
  eapply create_names_ok; [|exact E1].
  apply Profiler_new_names_ok.
Qed.

Lemma stop_records_last_interval_as_minimum_witness :
  _timeMin
    (stop Z.add Z.sub Z.ltb 15
       (start 10
          (stop Z.add Z.sub Z.ltb 3
             (start 2 (new_TimerAgent 0 0 0 None true "copy")))))
  = 15 - 10.
Proof.
  apply (stop_records_last_interval_as_minimum Z.add Z.sub Z.ltb 10 15
           (stop Z.add Z.sub Z.ltb 3
              (start 2 (new_TimerAgent 0 0 0 None true "copy")))).
  intros x y H1 H2. apply Z.ltb_ge in H1, H2. lia.
Defined.

Lemma create_links_and_removes_nothing_witness :
  exists m',
    ProfilerExamples.create3 "fftw" "solve" ProfilerExamples.timers = Some m'
    /\ is_Some (m' !! "fftw")
    /\ (exists d, m' !! "solve" = Some d /\ is_Some (_children d !! "fftw")).
Proof.
  destruct (create_links_and_removes_nothing 0 0 0 None true 3 "fftw" "solve"
              ProfilerExamples.timers timers_names_ok ltac:(lia))
    as (m' & Hrun & _ & Hc & Hl & _).
  exists m'. auto.
Defined.

Lemma create_again_resets_times_not_count_witness :
  exists m' a',
    ProfilerExamples.create3 "copy" "solve"
      (<["copy" := stop Z.add Z.sub Z.ltb 15
                     (start 10 (new_TimerAgent 0 0 0 None true "copy"))]>
         ProfilerExamples.timers) = Some m'
    /\ m' !! "copy" = Some a'
    /\ _count a' = 1 /\ _timeAcc a' = 0.
Proof.
  destruct (create_again_resets_times_not_count 0 0 0 None true 3
              "copy" "solve"
              (<["copy" := stop Z.add Z.sub Z.ltb 15
                             (start 10 (new_TimerAgent 0 0 0 None true "copy"))]>
                 ProfilerExamples.timers)
              (stop Z.add Z.sub Z.ltb 15
                 (start 10 (new_TimerAgent 0 0 0 None true "copy"))))
    as (m' & a' & Hrun & Ha' & Hcount & _ & Hacc & _).
  - intros k a. rewrite lookup_insert.
    destruct (decide ("copy" = k)) as [<-|Hne].
    + intros [= <-]. reflexivity.
    + apply timers_names_ok.
  - lia.
  - apply lookup_insert_eq.
  - exists m', a'. auto.
Defined.

Lemma create_under_second_parent_lists_twice_witness :
  exists m' b1' b2' c',
    ProfilerExamples.create3 "copy" "setup" ProfilerExamples.timers = Some m'
    /\ m' !! "solve" = Some b1' /\ is_Some (_children b1' !! "copy")
    /\ m' !! "setup" = Some b2' /\ is_Some (_children b2' !! "copy")
    /\ m' !! "copy" = Some c' /\ _daddy c' = Some "setup"%string.
Proof.
  destruct (ProfilerExamples.timers !! "solve") as [b1|] eqn:E1;
    [|vm_compute in E1; discriminate].
  destruct (ProfilerExamples.timers !! "setup") as [b2|] eqn:E2;
    [|vm_compute in E2; discriminate].
  apply (create_under_second_parent_lists_twice 0 0 0 None true 3
           "copy" "solve" "setup" ProfilerExamples.timers b1 b2
           timers_names_ok ltac:(lia) E1).
  - vm_compute in E1. injection E1 as <-. vm_compute. eauto.
  - exact E2.
  - vm_compute in E2. injection E2 as <-. vm_compute. reflexivity.
Defined.

End ProfilerFacts.
